(** * conventional-commits-changelog: a shallow embedding of src/index.js

    The functions of [src/index.js] are translated to Gallina and the
    properties of the changelog engine are stated and proved over the
    translation.

    Conventions of the embedding.
    - A JavaScript string is a [string] of 8-bit code units. [toLowerCase],
      [toUpperCase], [trim] and the regular expressions are those of
      JavaScript on code units below 128 and leave the others alone; a
      property that depends on them beyond that range says so in its
      hypotheses.
    - A value that may be [null] or [undefined] is an [option]; where the
      source tells the two apart (the return value of [findPreviousVersion])
      a dedicated type keeps them distinct.
    - A function that may throw returns a [result].
    - A plain object used as a map is a [JsObject.t]: an association list
      that keeps the property order of [Object.entries] (array-index keys in
      ascending order first, then the other keys in insertion order). The
      list holds the own properties; [JsObject.read] is the property read
      [o[k]], which also finds what [Object.prototype] provides.
    - An object that is shared between caller and callee (the [options] of
      [buildChangelog]) lives in a [heap] and is passed by location.
    - The packages [semver] and [conventional-commits-parser] are external:
      their entry points are parameters of the sections below. *)

From Stdlib Require Import String Ascii List ZArith NArith Bool Lia DecimalString DecimalPos
  Sorted Permutation.
From stdpp Require Import base option list gmap strings.
Import ListNotations.

#[local] Open Scope string_scope.
#[local] Open Scope list_scope.

(** ** Exceptions *)

Inductive error : Type :=
| TypeError
| SyntaxError
| Error (message : string).

Inductive result (A : Type) : Type :=
| Ok (a : A)
| Throw (e : error).

Arguments Ok {A} a.
Arguments Throw {A} e.

Definition bind {A B : Type} (m : result A) (f : A -> result B) : result B :=
  match m with
  | Ok a => f a
  | Throw e => Throw e
  end.

Notation "'let*' x ':=' m 'in' k" := (bind m (fun x => k))
  (at level 10, x pattern, m at level 100, k at level 200).

(** ** Strings *)

Definition chars (s : string) : list ascii := list_ascii_of_string s.

Definition is_upper (c : ascii) : bool :=
  ((65 <=? nat_of_ascii c) && (nat_of_ascii c <=? 90))%nat.

Definition is_digit (c : ascii) : bool :=
  ((48 <=? nat_of_ascii c) && (nat_of_ascii c <=? 57))%nat.

Definition is_lower (c : ascii) : bool :=
  ((97 <=? nat_of_ascii c) && (nat_of_ascii c <=? 122))%nat.

Definition lower_char (c : ascii) : ascii :=
  if is_upper c then ascii_of_nat (nat_of_ascii c + 32) else c.

Definition upper_char (c : ascii) : ascii :=
  if is_lower c then ascii_of_nat (nat_of_ascii c - 32) else c.

Fixpoint map_string (f : ascii -> ascii) (s : string) : string :=
  match s with
  | EmptyString => EmptyString
  | String c s' => String (f c) (map_string f s')
  end.

(** [toLowerCase] and [toUpperCase] map the letters below 128 and leave
    every other code unit as it is; they are the methods of JavaScript on
    strings of code units below 128. *)
Definition toLowerCase (s : string) : string := map_string lower_char s.
Definition toUpperCase (s : string) : string := map_string upper_char s.

(** [String.prototype.trim] on the code units below 128, where the white
    space is tab, line feed, vertical tab, form feed, carriage return and
    space. JavaScript also strips white space from 128 on (the no-break
    space, the byte order mark, the separators of Unicode), which [trim]
    leaves in place: it is the method of JavaScript on strings of code units
    below 128. *)
Definition is_space (c : ascii) : bool :=
  ((9 <=? nat_of_ascii c) && (nat_of_ascii c <=? 13) || (nat_of_ascii c =? 32))%nat.

Fixpoint trimStart (s : string) : string :=
  match s with
  | EmptyString => EmptyString
  | String c s' => if is_space c then trimStart s' else s
  end.

Fixpoint trimEnd (s : string) : string :=
  match s with
  | EmptyString => EmptyString
  | String c s' =>
      match trimEnd s' with
      | EmptyString => if is_space c then EmptyString else String c EmptyString
      | t => String c t
      end
  end.

Definition trim (s : string) : string := trimEnd (trimStart s).


(** [str.startsWith(p)] and [str.endsWith(p)]. *)
Definition str_startsWith (p s : string) : bool := String.prefix p s.

Definition str_endsWith (p s : string) : bool :=
  (String.length p <=? String.length s)%nat
  && String.eqb (String.substring (String.length s - String.length p) (String.length p) s) p.

(** Truthiness of a possibly absent string: [null], [undefined] and the
    empty string are falsy. *)
Definition truthy (o : option string) : bool :=
  match o with
  | Some s => negb (String.eqb s "")
  | None => false
  end.

(** [arr.includes(x)] and [arr.indexOf(x)] on an array of strings;
    [indexOf] answers [-1] when [x] is absent. *)
Definition includes (l : list string) (x : string) : bool :=
  existsb (String.eqb x) l.

Fixpoint indexOf_from (l : list string) (x : string) (i : Z) : Z :=
  match l with
  | [] => (-1)%Z
  | y :: l' => if String.eqb y x then i else indexOf_from l' x (i + 1)%Z
  end.

Definition indexOf (l : list string) (x : string) : Z := indexOf_from l x 0%Z.

(** [arr.join(sep)]. *)
Fixpoint join (sep : string) (l : list string) : string :=
  match l with
  | [] => ""
  | [x] => x
  | x :: l' => x +:+ sep +:+ join sep l'
  end.

(** Lexicographic order on code units, the order of [<] on strings and of
    [Array.prototype.sort] without a comparator. *)
Fixpoint str_ltb (a b : string) : bool :=
  match a, b with
  | _, EmptyString => false
  | EmptyString, String _ _ => true
  | String x a', String y b' =>
      if (nat_of_ascii x <? nat_of_ascii y)%nat then true
      else if (nat_of_ascii y <? nat_of_ascii x)%nat then false
      else str_ltb a' b'
  end.

(** [Array.prototype.sort(cmp)]: the sort is stable, so for a consistent
    comparator the result is the one of a stable insertion sort. An element
    is placed before the first later element it does not exceed. *)
Section Sort.
Context {A : Type} (cmp : A -> A -> Z).

Fixpoint sort_insert (x : A) (l : list A) : list A :=
  match l with
  | [] => [x]
  | y :: l' => if (cmp x y <=? 0)%Z then x :: y :: l' else y :: sort_insert x l'
  end.

Fixpoint js_sort (l : list A) : list A :=
  match l with
  | [] => []
  | x :: l' => sort_insert x (js_sort l')
  end.
End Sort.

Definition default_cmp (a b : string) : Z :=
  if str_ltb a b then (-1)%Z else if str_ltb b a then 1%Z else 0%Z.

(** Decimal numerals. *)
Definition digit_value (c : ascii) : N := N.of_nat (nat_of_ascii c - 48).

Definition digits_to_N (l : list ascii) : N :=
  fold_left (fun acc c => (acc * 10 + digit_value c)%N) l 0%N.

Definition N_to_string (n : N) : string := NilEmpty.string_of_uint (N.to_uint n).

(** ** Plain objects used as maps *)

Module JsObject.

Definition t (V : Type) : Type := list (string * V).

(** An array index is a canonical numeric string below [2^32 - 1]. *)
Definition array_index (k : string) : option N :=
  match chars k with
  | [] => None
  | c :: cs =>
      if forallb is_digit (c :: cs)
         && (negb (Ascii.eqb c "0"%char) || (List.length cs =? 0)%nat)
         && (List.length (c :: cs) <=? 10)%nat
         && (digits_to_N (c :: cs) <? 4294967295)%N
      then Some (digits_to_N (c :: cs))
      else None
  end.

(** The properties of [Object.prototype]: eleven functions and the
    accessor [__proto__]. None of them is nullish, an array or iterable. *)
Definition prototype_keys : list string :=
  ["constructor"; "__defineGetter__"; "__defineSetter__"; "hasOwnProperty";
   "__lookupGetter__"; "__lookupSetter__"; "isPrototypeOf"; "propertyIsEnumerable";
   "toString"; "valueOf"; "__proto__"; "toLocaleString"].

Definition inherited (k : string) : bool := includes prototype_keys k.

Section Ops.
Context {V : Type}.

Definition empty : t V := [].

Fixpoint get (k : string) (o : t V) : option V :=
  match o with
  | [] => None
  | (k', v) :: o' => if String.eqb k' k then Some v else get k o'
  end.

Definition has (k : string) (o : t V) : bool :=
  match get k o with Some _ => true | None => false end.

Fixpoint replace (k : string) (v : V) (o : t V) : t V :=
  match o with
  | [] => []
  | (k', v') :: o' =>
      if String.eqb k' k then (k', v) :: o' else (k', v') :: replace k v o'
  end.

(** Position of a new array-index key: before the first key that is not
    an array index or is a larger one. *)
Fixpoint add_index (n : N) (k : string) (v : V) (o : t V) : t V :=
  match o with
  | [] => [(k, v)]
  | (k', v') :: o' =>
      match array_index k' with
      | Some n' => if (n' <? n)%N then (k', v') :: add_index n k v o'
                   else (k, v) :: (k', v') :: o'
      | None => (k, v) :: (k', v') :: o'
      end
  end.

(** [o[k] = v]. *)
Definition set (k : string) (v : V) (o : t V) : t V :=
  if has k o then replace k v o
  else match array_index k with
       | Some n => add_index n k v o
       | None => o ++ [(k, v)]
       end.

Definition entries (o : t V) : list (string * V) := o.
Definition keys (o : t V) : list string := map fst o.

(** [o[k]], the property read. An object literal inherits from
    [Object.prototype]: for a key that is not an own property the read
    finds the member of the prototype, if the key names one. *)
Inductive property : Type :=
| Own (v : V)
| Inherited
| Absent.

Definition read (k : string) (o : t V) : property :=
  match get k o with
  | Some v => Own v
  | None => if inherited k then Inherited else Absent
  end.

(** [Object.fromEntries(l)] defines own properties, whatever the key. *)
Definition fromEntries (l : list (string * V)) : t V :=
  fold_left (fun o e => set (fst e) (snd e) o) l empty.
End Ops.

Arguments property V : clear implicits.

Section Arrays.
Context {V : Type}.

(** The array under [k] with [items] behind it, an empty array standing
    for a missing one. *)
Definition append (k : string) (items : list V) (o : t (list V)) : t (list V) :=
  set k (default [] (get k o) ++ items) o.

(** [o[k] ??= []; o[k].push(...items)] on an object whose own properties
    are arrays. For a key that [Object.prototype] provides the read is not
    nullish, nothing is assigned, and the member found has no [push] (nor
    can it be spread): a [TypeError]. *)
Definition push (k : string) (items : list V) (o : t (list V)) : result (t (list V)) :=
  match read k o with
  | Inherited => Throw TypeError
  | Own _ | Absent => Ok (append k items o)
  end.
End Arrays.

End JsObject.

(** ** Regular expressions

    [RegExp.create] stands for [new RegExp(source)] without flags and
    [RegExp.test] for [RegExp.prototype.test]. The pattern syntax covered is
    the fragment the program and its documented options use: ordinary
    characters, [.], groups with alternation, character classes, the
    quantifiers [?], [*] and [+], the assertions [^], [$], and [\b], and an
    escaped punctuation character. [create] answers [None] for a malformed
    pattern of the fragment, and also for a pattern outside the fragment,
    which it cannot read; no property below draws on the second case. *)

Module RegExp.

Inductive regex : Type :=
| Empty
| Char (c : ascii)
| Any
| Class (negated : bool) (ranges : list (ascii * ascii))
| Seq (a b : regex)
| Alt (a b : regex)
| Opt (a : regex)
| Star (a : regex)
| Plus (a : regex)
| Bol
| Eol
| WordBoundary.

(** *** Reading a pattern *)

Definition is_alnum (c : ascii) : bool := is_digit c || is_upper c || is_lower c.

(** The members of a character class, up to the closing bracket. *)
Fixpoint parse_class (s : list ascii) (acc : list (ascii * ascii))
  : option (list (ascii * ascii) * list ascii) :=
  match s with
  | [] => None
  | "]"%char :: s' => Some (rev acc, s')
  | "\"%char :: c :: s' =>
      if is_alnum c then None else parse_class s' ((c, c) :: acc)
  | "\"%char :: [] => None
  | c :: "-"%char :: "]"%char :: s' => Some (rev (("-"%char, "-"%char) :: (c, c) :: acc), s')
  | _ :: "-"%char :: "\"%char :: _ => None
  | c :: "-"%char :: d :: s' =>
      if (nat_of_ascii c <=? nat_of_ascii d)%nat
      then parse_class s' ((c, d) :: acc) else None
  | c :: s' => parse_class s' ((c, c) :: acc)
  end.

Definition quantified (a : regex) (s : list ascii) : regex * list ascii :=
  match s with
  | "?"%char :: s' => (Opt a, s')
  | "*"%char :: s' => (Star a, s')
  | "+"%char :: s' => (Plus a, s')
  | _ => (a, s)
  end.

(** An assertion takes no quantifier: there is nothing to repeat. *)
Definition assertion_first (s : list ascii) : bool :=
  match s with
  | "^"%char :: _ | "$"%char :: _ => true
  | "\"%char :: "b"%char :: _ => true
  | _ => false
  end.

Definition quantifier_first (s : list ascii) : bool :=
  match s with
  | "?"%char :: _ | "*"%char :: _ | "+"%char :: _ => true
  | _ => false
  end.

Fixpoint parse_disjunction (fuel : nat) (s : list ascii) : option (regex * list ascii) :=
  match fuel with
  | O => None
  | S fuel' =>
      match parse_sequence fuel' s with
      | Some (a, "|"%char :: s1) =>
          match parse_disjunction fuel' s1 with
          | Some (b, s2) => Some (Alt a b, s2)
          | None => None
          end
      | other => other
      end
  end
with parse_sequence (fuel : nat) (s : list ascii) : option (regex * list ascii) :=
  match fuel with
  | O => None
  | S fuel' =>
      match s with
      | [] => Some (Empty, s)
      | "|"%char :: _ => Some (Empty, s)
      | ")"%char :: _ => Some (Empty, s)
      | _ =>
          match parse_atom fuel' s with
          | Some (a, s1) =>
              if assertion_first s && quantifier_first s1 then None
              else
                let (q, s2) := quantified a s1 in
                match parse_sequence fuel' s2 with
                | Some (b, s3) => Some (Seq q b, s3)
                | None => None
                end
          | None => None
          end
      end
  end
with parse_atom (fuel : nat) (s : list ascii) : option (regex * list ascii) :=
  match fuel with
  | O => None
  | S fuel' =>
      match s with
      | [] => None
      | "("%char :: s1 =>
          let body :=
            match s1 with
            | "?"%char :: ":"%char :: s2 => Some s2
            | "?"%char :: _ => None
            | _ => Some s1
            end in
          match body with
          | Some s2 =>
              match parse_disjunction fuel' s2 with
              | Some (a, ")"%char :: s3) => Some (a, s3)
              | _ => None
              end
          | None => None
          end
      | "["%char :: "^"%char :: s1 =>
          match parse_class s1 [] with
          | Some (rs, s2) => Some (Class true rs, s2)
          | None => None
          end
      | "["%char :: s1 =>
          match parse_class s1 [] with
          | Some (rs, s2) => Some (Class false rs, s2)
          | None => None
          end
      | "."%char :: s1 => Some (Any, s1)
      | "^"%char :: s1 => Some (Bol, s1)
      | "$"%char :: s1 => Some (Eol, s1)
      | "\"%char :: "b"%char :: s1 => Some (WordBoundary, s1)
      | "\"%char :: c :: s1 => if is_alnum c then None else Some (Char c, s1)
      | "\"%char :: [] => None
      | "?"%char :: _ | "*"%char :: _ | "+"%char :: _ => None
      | "{"%char :: _ | "}"%char :: _ | "]"%char :: _ => None
      | c :: s1 => Some (Char c, s1)
      end
  end.

(** [new RegExp(source)]; [None] is a [SyntaxError]. *)
Definition create (source : string) : option regex :=
  match parse_disjunction (4 * (String.length source + 1)) (chars source) with
  | Some (r, []) => Some r
  | _ => None
  end.

(** *** Matching *)

Definition is_word (c : ascii) : bool := is_alnum c || Ascii.eqb c "_"%char.

Definition word_before (prev : option ascii) : bool :=
  match prev with Some c => is_word c | None => false end.

Definition word_after (s : list ascii) : bool :=
  match s with c :: _ => is_word c | [] => false end.

Definition line_terminator (c : ascii) : bool :=
  (nat_of_ascii c =? 10)%nat || (nat_of_ascii c =? 13)%nat.

Definition in_class (negated : bool) (ranges : list (ascii * ascii)) (c : ascii) : bool :=
  xorb negated
    (existsb (fun r => (nat_of_ascii (fst r) <=? nat_of_ascii c)%nat
                       && (nat_of_ascii c <=? nat_of_ascii (snd r))%nat) ranges).

(** [matches r prev s k]: some match of [r] at the position whose previous
    character is [prev] and whose remaining input is [s] can be continued
    by [k]. Backtracking explores every alternative, so the answer is the
    one of [test], which only asks whether a match exists. *)
Fixpoint matches (r : regex) (prev : option ascii) (s : list ascii)
         (k : option ascii -> list ascii -> bool) {struct r} : bool :=
  let step (ok : ascii -> bool) :=
    match s with
    | c :: s' => if ok c then k (Some c) s' else false
    | [] => false
    end in
  let repeat (a : regex) :=
    fix loop (n : nat) (prev : option ascii) (s : list ascii) {struct n} : bool :=
      k prev s ||
      match n with
      | O => false
      | S n' =>
          matches a prev s
            (fun prev' s' =>
               if (List.length s' <? List.length s)%nat then loop n' prev' s' else false)
      end in
  match r with
  | Empty => k prev s
  | Char c => step (Ascii.eqb c)
  | Any => step (fun c => negb (line_terminator c))
  | Class negated ranges => step (in_class negated ranges)
  | Seq a b => matches a prev s (fun prev' s' => matches b prev' s' k)
  | Alt a b => matches a prev s k || matches b prev s k
  | Opt a => matches a prev s k || k prev s
  | Star a => repeat a (List.length s) prev s
  | Plus a => matches a prev s (fun prev' s' => repeat a (List.length s') prev' s')
  | Bol => match prev with None => k prev s | Some _ => false end
  | Eol => match s with [] => k prev s | _ :: _ => false end
  | WordBoundary => if xorb (word_before prev) (word_after s) then k prev s else false
  end.

Fixpoint search (r : regex) (prev : option ascii) (s : list ascii) : bool :=
  matches r prev s (fun _ _ => true) ||
  match s with
  | [] => false
  | c :: s' => search r (Some c) s'
  end.

Definition test (r : regex) (str : string) : bool := search r None (chars str).

End RegExp.

(** ** Semantic versions

    A [SemVer] carries what the program reads from a version object: the
    three numbers, which the constructor keeps within the safe integers, and
    the prerelease identifiers. An identifier of digits is [Numeric] whether
    the package holds it as a number (below [MAX_SAFE_INTEGER]) or as a
    string (from there on). Build metadata takes no part in [version] nor in
    the comparisons. [version] is the canonical
    string, from which [semver.compare], [semver.eq] and [semver.gte] rebuild
    the same object; the embedding keeps the object in its place. *)

Module Semver.

Inductive identifier : Type :=
| Numeric (n : N)
| Alphanumeric (s : string).

Record SemVer : Type := mkSemVer {
  major : N;
  minor : N;
  patch : N;
  prerelease : list identifier
}.

Definition identifier_string (i : identifier) : string :=
  match i with
  | Numeric n => N_to_string n
  | Alphanumeric s => s
  end.

(** The [version] property, also the result of [toString]. *)
Definition version (v : SemVer) : string :=
  N_to_string (major v) +:+ "." +:+ N_to_string (minor v) +:+ "." +:+ N_to_string (patch v)
  +:+ match prerelease v with
      | [] => ""
      | ids => "-" +:+ join "." (map identifier_string ids)
      end.

Definition compare_N (a b : N) : Z :=
  if (a <? b)%N then (-1)%Z else if (b <? a)%N then 1%Z else 0%Z.

(** The double nearest to a natural number, ties to the even significand:
    what unary [+] makes of a string of digits. A double has 53 significant
    bits, so a number below [2^53] is kept and a larger one may be rounded;
    [2^1024] stands for [Infinity]. *)
Definition to_double (n : N) : N :=
  let bits := N.size n in
  if (bits <=? 53)%N then n
  else
    let k := (bits - 53)%N in
    let q := N.shiftr n k in
    let r := (n - N.shiftl q k)%N in
    let half := N.shiftl 1 (k - 1) in
    let q := if (half <? r)%N || ((r =? half)%N && N.odd q) then (q + 1)%N else q in
    let v := N.shiftl q k in
    if (N.shiftl 1 1024 <=? v)%N then N.shiftl 1 1024 else v.

(** [a === b] on two identifiers. *)
Definition identifier_eqb (a b : identifier) : bool :=
  match a, b with
  | Numeric x, Numeric y => (x =? y)%N
  | Alphanumeric x, Alphanumeric y => String.eqb x y
  | _, _ => false
  end.

(** [compareIdentifiers]: numbers before words, words by code units, and
    numbers by value, as doubles: an identifier of digits that is not a safe
    integer is kept as a string and converted by [+a] for the comparison. *)
Definition compareIdentifiers (a b : identifier) : Z :=
  match a, b with
  | Numeric x, Numeric y => compare_N (to_double x) (to_double y)
  | Numeric _, Alphanumeric _ => (-1)%Z
  | Alphanumeric _, Numeric _ => 1%Z
  | Alphanumeric x, Alphanumeric y => default_cmp x y
  end.

(** The loop of [comparePre]: identical identifiers are passed over, the
    first two that differ decide, also when they compare equal. *)
Fixpoint compare_identifiers (a b : list identifier) : Z :=
  match a, b with
  | [], [] => 0%Z
  | _ :: _, [] => 1%Z
  | [], _ :: _ => (-1)%Z
  | x :: a', y :: b' =>
      if identifier_eqb x y then compare_identifiers a' b'
      else compareIdentifiers x y
  end.

(** [comparePre]: a version without prerelease exceeds one with. *)
Definition comparePre (a b : SemVer) : Z :=
  match prerelease a, prerelease b with
  | [], [] => 0%Z
  | _ :: _, [] => (-1)%Z
  | [], _ :: _ => 1%Z
  | pa, pb => compare_identifiers pa pb
  end.

Definition compareMain (a b : SemVer) : Z :=
  if negb (compare_N (major a) (major b) =? 0)%Z then compare_N (major a) (major b)
  else if negb (compare_N (minor a) (minor b) =? 0)%Z then compare_N (minor a) (minor b)
  else compare_N (patch a) (patch b).

Definition compare (a b : SemVer) : Z :=
  if negb (compareMain a b =? 0)%Z then compareMain a b else comparePre a b.

Definition eq (a b : SemVer) : bool := (compare a b =? 0)%Z.
Definition gte (a b : SemVer) : bool := (0 <=? compare a b)%Z.

(** *** An instance of the entry points [coerce] and [valid]

    The program calls [semver.coerce] and [semver.valid], which are not
    part of the repository; the functions of the program take them as
    parameters. The instance below follows the package's documented
    grammar and serves to run the program on concrete inputs: [coerce_in]
    reads the leftmost run of at most 16 digits that starts the string or
    follows a non-digit, then up to two more dot-separated runs, then
    (when asked for) prerelease identifiers. *)

Fixpoint span (p : ascii -> bool) (s : list ascii) : list ascii * list ascii :=
  match s with
  | c :: s' => if p c then let (a, b) := span p s' in (c :: a, b) else ([], s)
  | [] => ([], [])
  end.

Definition MAX_SAFE_INTEGER : N := 9007199254740991.

(** A maximal run of digits, not empty. *)
Definition digits (s : list ascii) : option (list ascii * list ascii) :=
  let (ds, rest) := span is_digit s in
  match ds with
  | [] => None
  | _ :: _ => Some (ds, rest)
  end.

(** The number a run denotes in a version: no leading zero, a safe
    integer. *)
Definition numeral (ds : list ascii) : option N :=
  match ds with
  | [] => None
  | d :: ds' =>
      if (negb (Ascii.eqb d "0"%char) || (List.length ds' =? 0)%nat)
         && (digits_to_N ds <=? MAX_SAFE_INTEGER)%N
      then Some (digits_to_N ds)
      else None
  end.

(** What [coerce] takes for a component: a run of at most 16 digits. *)
Definition component (s : list ascii) : option (list ascii * list ascii) :=
  match digits s with
  | Some (ds, rest) => if (List.length ds <=? 16)%nat then Some (ds, rest) else None
  | None => None
  end.

Definition dot_component (s : list ascii) : option (list ascii * list ascii) :=
  match s with
  | "."%char :: s' => component s'
  | _ => None
  end.

Definition dot_digits (s : list ascii) : option (list ascii * list ascii) :=
  match s with
  | "."%char :: s' => digits s'
  | _ => None
  end.

Definition identifier_char (c : ascii) : bool :=
  RegExp.is_alnum c || Ascii.eqb c "-"%char.

Definition read_identifier (s : list ascii) : option (identifier * list ascii) :=
  let (cs, rest) := span identifier_char s in
  match cs with
  | [] => None
  | c :: cs' =>
      if forallb is_digit cs
      then if negb (Ascii.eqb c "0"%char) || (List.length cs' =? 0)%nat
           then Some (Numeric (digits_to_N cs), rest) else None
      else Some (Alphanumeric (string_of_list_ascii cs), rest)
  end.

Fixpoint more_identifiers (fuel : nat) (s : list ascii) : list identifier * list ascii :=
  match fuel, s with
  | S fuel', "."%char :: s' =>
      match read_identifier s' with
      | Some (i, rest) => let (ids, rest') := more_identifiers fuel' rest in (i :: ids, rest')
      | None => ([], s)
      end
  | _, _ => ([], s)
  end.

Definition read_prerelease (s : list ascii) : list identifier * list ascii :=
  match s with
  | "-"%char :: s' =>
      match read_identifier s' with
      | Some (i, rest) =>
          let (ids, rest') := more_identifiers (List.length rest) rest in (i :: ids, rest')
      | None => ([], s)
      end
  | _ => ([], s)
  end.

Definition zero : list ascii := ["0"%char].

Definition coerce_at (includePrerelease : bool) (s : list ascii) : option SemVer :=
  match component s with
  | None => None
  | Some (ma, s1) =>
      let '(mi, s2) := match dot_component s1 with Some r => r | None => (zero, s1) end in
      let '(pa, s3) := match dot_component s1 with
                       | Some _ => match dot_component s2 with Some r => r | None => (zero, s2) end
                       | None => (zero, s2)
                       end in
      match numeral ma, numeral mi, numeral pa with
      | Some a, Some b, Some c =>
          Some (mkSemVer a b c (if includePrerelease then fst (read_prerelease s3) else []))
      | _, _, _ => None
      end
  end.

(** The leftmost digit run that is not too long decides. *)
Fixpoint coerce_in (includePrerelease : bool) (at_start : bool) (s : list ascii)
  : option SemVer :=
  match s with
  | [] => None
  | c :: s' =>
      if at_start && is_digit c
      then if (List.length (fst (span is_digit s)) <=? 16)%nat
           then coerce_at includePrerelease s
           else coerce_in includePrerelease false s'
      else coerce_in includePrerelease (negb (is_digit c)) s'
  end.

Definition coerce (includePrerelease : bool) (v : string) : option SemVer :=
  coerce_in includePrerelease true (chars v).

(** Build metadata: identifiers that are not empty, with dots between
    them; [run] tells whether the identifier at hand has a character. *)
Fixpoint build (b : list ascii) (run : bool) : bool :=
  match b with
  | [] => run
  | c :: b' =>
      if Ascii.eqb c "."%char then run && build b' false
      else identifier_char c && build b' true
  end.

(** [semver.valid(v)] as a truth value: a string of at most 256 characters
    that is, once trimmed, [v]?, three numbers, an optional prerelease and
    an optional build. *)
Definition valid (v : string) : bool :=
  let s := match chars (trim v) with "v"%char :: s' => s' | s => s end in
  if (256 <? String.length v)%nat then false else
  match digits s with
  | Some (ma, s1) =>
      match dot_digits s1 with
      | Some (mi, s2) =>
          match dot_digits s2 with
          | Some (pa, s3) =>
              match numeral ma, numeral mi, numeral pa with
              | Some _, Some _, Some _ =>
                  match snd (read_prerelease s3) with
                  | [] => true
                  | "+"%char :: b => build b false
                  | _ => false
                  end
              | _, _, _ => false
              end
          | None => false
          end
      | None => false
      end
  | None => false
  end.

End Semver.

(** ** Data model *)

(** What a function hands back where the source tells [null], [undefined]
    and a string apart. *)
Inductive value : Type :=
| Null
| Undefined
| Str (s : string).

(** [x ? a : b] and [x || y] look at the truth of [x]. *)
Definition value_truthy (v : value) : bool :=
  match v with
  | Str s => negb (String.eqb s "")
  | Null | Undefined => false
  end.

(** A string inside a template literal. *)
Definition template (o : option string) : string :=
  match o with
  | Some s => s
  | None => "undefined"
  end.

Module Note.
Record t : Type := make { title : string; text : string }.
End Note.

Module Revert.
Record t : Type := make { header : option string }.
End Revert.

Module Commit.
Record t : Type := make {
  type : option string;
  subType : option string;
  scope : option string;
  subject : option string;
  header : option string;
  body : option string;
  footer : option string;
  breaking : option string;
  notes : option (list Note.t);
  merge : option string;
  revert : option Revert.t;
  raw : option string;
  orig : option string
}.

(** [{ ...commit, type, subType }] *)
Definition with_type (c : t) (ty st : option string) : t :=
  make ty st (scope c) (subject c) (header c) (body c) (footer c) (breaking c)
       (notes c) (merge c) (revert c) (raw c) (orig c).

(** [{ ...commit, orig, raw }] *)
Definition with_source (c : t) (o r : option string) : t :=
  make (type c) (subType c) (scope c) (subject c) (header c) (body c) (footer c)
       (breaking c) (notes c) (merge c) (revert c) r o.

(** An object without any property. *)
Definition empty : t :=
  make None None None None None None None None None None None None None.
End Commit.

Module MessageType.
Record t : Type := make { type : string; subType : option string }.
End MessageType.

Module Release.
Record t : Type := make {
  tag : option string;
  name : option string;
  date : option string;
  description : option string;
  header : option string;
  footer : option string;
  messages : option (list string);
  commits : option (JsObject.t (list Commit.t))
}.
End Release.

(** The options of [getCommits]. *)
Record GetCommitsOptions : Type := {
  defaultType : option MessageType.t;
  options_validTypes : list string
}.

(** What [getCommits] leaves behind: the returned object and the exception
    written with [console.log], if any. *)
Record Commits : Type := {
  commits : list Commit.t;
  groups : JsObject.t (list Commit.t);
  logged : option error
}.

(** The [check] argument of [getNotices]: a string or a [RegExp] object. *)
Inductive check : Type :=
| Literal (s : string)
| Pattern (r : RegExp.regex).

(** Objects live in a heap, a reference is a location. *)
Definition loc : Type := nat.

Module NoticeOptions.
Record t : Type := make {
  keys : option (JsObject.t check);
  all : option bool;
  inFooter : option bool
}.
Definition empty : t := make None None None.
End NoticeOptions.

Module Options.
Record t : Type := make {
  coerce : option bool;
  onlyFirst : option bool;
  onlyBody : option bool;
  types : option (JsObject.t string);
  notice : option loc
}.
Definition empty : t := make None None None None None.
End Options.

(** The two kinds of objects [buildChangelog] writes to. *)
Record heap : Type := {
  options_at : gmap loc Options.t;
  notice_at : gmap loc NoticeOptions.t
}.

(** The bucket of [groupReleases] while releases are added to it. *)
Module Group.
Record t : Type := make {
  tag : string;
  name : list string;
  date : list string;
  messages : list string;
  commits : JsObject.t (list Commit.t)
}.
End Group.

(** [const validTypes] *)
Definition validTypes : list string :=
  ["feat"; "fix"; "chore"; "perf"; "style"; "refactor"; "ci"; "build"; "test"; "docs"].

(** [str.replace(a, b)] with a string [a]: the first occurrence only. *)
Fixpoint replace_first (a b s : string) : string :=
  if String.prefix a s
  then b +:+ String.substring (String.length a) (String.length s - String.length a) s
  else match s with
       | EmptyString => EmptyString
       | String c s' => String c (replace_first a b s')
       end.

(** [str.replace(/c/g, b)] for a single character [c]. *)
Fixpoint replace_all (c : ascii) (b : string) (s : string) : string :=
  match s with
  | EmptyString => EmptyString
  | String x s' => (if Ascii.eqb x c then b else String x EmptyString) +:+ replace_all c b s'
  end.

Definition escapeHTML (str : string) : string :=
  replace_all "'"%char "&#39;"
    (replace_all "034"%char "&quot;"
       (replace_all ">"%char "&gt;"
          (replace_all "<"%char "&lt;"
             (replace_all "&"%char "&amp;" str)))).

(** [str.split(c)] for a single character [c]. *)
Fixpoint split_acc (c : ascii) (s : list ascii) (cur : list ascii) : list string :=
  match s with
  | [] => [string_of_list_ascii (rev cur)]
  | x :: s' =>
      if Ascii.eqb x c then string_of_list_ascii (rev cur) :: split_acc c s' []
      else split_acc c s' (x :: cur)
  end.

Definition split (c : ascii) (s : string) : list string := split_acc c (chars s) [].

(** [arr.findIndex(p)], [-1] when no element passes. *)
Fixpoint findIndex_from {A : Type} (p : A -> bool) (l : list A) (i : Z) : Z :=
  match l with
  | [] => (-1)%Z
  | x :: l' => if p x then i else findIndex_from p l' (i + 1)%Z
  end.

Definition findIndex {A : Type} (p : A -> bool) (l : list A) : Z := findIndex_from p l 0%Z.

(** [arr[i]] for an array of versions: outside the array it is
    [undefined]. *)
Definition at_index (l : list Semver.SemVer) (i : Z) : value :=
  if (i <? 0)%Z then Undefined
  else match nth_error l (Z.to_nat i) with
       | Some v => Str (Semver.version v)
       | None => Undefined
       end.

(** [switch (true)]: the bodies are tried in order, a body runs when one of
    its [case] labels is [true]. *)
Definition switch_true {A : Type} (cases : list (list bool * A)) : option A :=
  option_map snd (List.find (fun c => existsb (fun b => b) (fst c)) cases).

(** [traverse f l]: [l.map(f)] where [f] may throw; the first exception
    ends the walk. *)
Fixpoint traverse {A B : Type} (f : A -> result B) (l : list A) : result (list B) :=
  match l with
  | [] => Ok []
  | x :: l' =>
      let* y := f x in
      let* ys := traverse f l' in
      Ok (y :: ys)
  end.

(** ** The rules of getMessageType

    A [case] label of the two [switch (true)] statements is one of the
    local helpers [s], [c], [sc] applied to its patterns, or the call of
    [semver.valid]. The tables keep the labels in source order, each body
    with its result. *)

Module Rule.

Inductive t : Type :=
| s (expr : string)
| c (expr : string)
| sc (expr1 expr2 : string)
| valid.

Definition verbs : string :=
  join "|" ["add"; "correct"; "create"; "improve"; "include"; "update"].
Definition suffix : string := join "|" ["s"; "ed"; "ing"].
Definition e_suffix : string := join "|" ["e"; "es"; "ed"; "ing"].
Definition y_suffix : string := join "|" ["y"; "ies"; "ied"; "ying"].

Definition feat_add_verbs : list t :=
  [ s ("add(" +:+ suffix +:+ ")?");
    s ("allow(" +:+ suffix +:+ ")?");
    s ("creat(" +:+ e_suffix +:+ ")?");
    s ("enabl(" +:+ e_suffix +:+ ")?");
    s ("implement(" +:+ suffix +:+ ")?");
    s ("includ(" +:+ e_suffix +:+ ")?");
    s ("incorporat(" +:+ e_suffix +:+ ")?");
    s ("install(" +:+ suffix +:+ ")?");
    s ("introduc(" +:+ e_suffix +:+ ")?");
    s ("support(" +:+ suffix +:+ ")?") ].

Definition feat_change_verbs : list t :=
  [ s ("adjust(" +:+ suffix +:+ ")?");
    s ("append(" +:+ suffix +:+ ")?");
    s ("chang(" +:+ e_suffix +:+ ")?");
    s ("extend(" +:+ suffix +:+ ")?");
    s ("hid(" +:+ e_suffix +:+ ")?");
    s ("mak(" +:+ e_suffix +:+ ")?");
    s ("modif(" +:+ y_suffix +:+ ")?");
    s ("tweak(" +:+ suffix +:+ ")?") ].

Definition feat_remove_verbs : list t :=
  [ s ("delet(" +:+ e_suffix +:+ ")?");
    s ("deprecat(" +:+ e_suffix +:+ ")?");
    s ("disabl(" +:+ e_suffix +:+ ")?");
    s ("remov(" +:+ e_suffix +:+ ")?");
    s ("uninstall(" +:+ suffix +:+ ")?") ].

Definition just (type : string) : MessageType.t := MessageType.make type None.
Definition feat (subType : string) : MessageType.t := MessageType.make "feat" (Some subType).

(** The first [switch], taken when [forceType === 'feat']. *)
Definition feat_cases : list (list t * MessageType.t) :=
  [ (feat_add_verbs, feat "add");
    (feat_remove_verbs, feat "remove") ].

(** The second [switch], the cascade. *)
Definition cascade : list (list t * MessageType.t) :=
  [ (* Merge *)
    ([ s "merge" ], just "merge");
    (* Docs *)
    ([ c "documentation";
       c ("(" +:+ verbs +:+ ").*docs?");
       c "read ?me";
       c "docblocks?";
       c ("(" +:+ verbs +:+ ").*comments?");
       c "license";
       c "change.?log" ], just "docs");
    (* CI *)
    ([ c "jenkins"; c "travis"; c "teamcity" ], just "ci");
    (* Fix *)
    ([ c "bug fix";
       s ("revert(" +:+ suffix +:+ ")?");
       s "typo";
       s "prevent" ], just "fix");
    (* Chore *)
    ([ c "version bumps?";
       s ("bump(" +:+ suffix +:+ ")?");
       s ("ignor(" +:+ e_suffix +:+ ")?");
       s ("cleanup(" +:+ suffix +:+ ")?");
       s ("renam(" +:+ e_suffix +:+ ")?");
       s ("upgrad(" +:+ e_suffix +:+ ")?");
       s "init.*commit";
       s "init" ], just "chore");
    (* Perf *)
    ([ s ("cach(" +:+ e_suffix +:+ ")?"); s "optimize" ], just "perf");
    (* Test *)
    ([ sc ("test(" +:+ suffix +:+ ")?") "test cases?";
       c ("(fix|" +:+ verbs +:+ "|run|remove).*tests?");
       c "unit tests?";
       c "tests? pass(ed)?";
       c "php.?unit";
       c "behat"; c "pest"; c "jest"; c "mocha"; c "jasmine"; c "karma"; c "vitest" ],
     just "test");
    (* Style *)
    ([ c "prettier"; c "eslint"; c "jshint"; c "jslint"; c "tslint"; c "beautifier";
       c "stylelint"; c "linting"; s "lint" ], just "style");
    (* Build *)
    ([ valid;
       s "semver";
       sc ("build(" +:+ suffix +:+ ")?") "dist.*(build|folder|dir|directory|files?)";
       c "build.*(status|steps?)";
       c "(update).*build";
       c "distributions?";
       c ("(" +:+ verbs +:+ ").*dist");
       c "peers?";
       c "peer.?dependency";
       c "package.?(lock|json)";
       c "composer.?(lock|json)";
       c "lock.?file";
       s "version";
       c "bower"; c "brotli"; c "browserify"; c "esbuild"; c "grunt"; c "gulp"; c "maven";
       c "node( |.)?js";
       c "node versions?";
       c "npm"; c "pnpm"; c "parcel"; c "rollup"; c "snowpack"; c "tsup"; c "vite";
       c "webpack"; c "yarn" ], just "build");
    (* Refactor *)
    ([ s ("convert(" +:+ suffix +:+ ")?");
       s ("improv(" +:+ e_suffix +:+ ")?");
       s ("mov(" +:+ e_suffix +:+ ")?");
       s ("refactor(" +:+ suffix +:+ ")?");
       s ("replac(" +:+ e_suffix +:+ ")?");
       s ("simplif(" +:+ y_suffix +:+ ")?");
       s ("switch(" +:+ suffix +:+ ")?");
       s "tidy" ], just "refactor");
    (* Fix 2 *)
    ([ sc "fix" ("fix(" +:+ e_suffix +:+ ")");
       s ("correct(" +:+ suffix +:+ "|ion|ions)?");
       c "console.?log" ], just "fix");
    (* Chore 2 *)
    ([ s ("updat(" +:+ e_suffix +:+ ")?") ], just "chore");
    (* Feat (Add) *)
    (feat_add_verbs, feat "add");
    (* Feat (Change) *)
    (feat_change_verbs, feat "change");
    (* Feat (Remove) *)
    (feat_remove_verbs, feat "remove");
    (* Build 2 *)
    ([ c "build" ], just "build");
    (* Chore 3 *)
    ([ c "versions?"; c "upgrade" ], just "chore");
    (* Test 2 *)
    ([ c "tests?" ], just "test");
    (* Fix 3 *)
    ([ c "fix" ], just "fix");
    (* Refactor 2 *)
    ([ c "clean" ], just "refactor") ].

End Rule.

(** ** An instance of the commit parser

    [parser.parse] belongs to conventional-commits-parser and is a parameter
    of the program. This instance serves to run the program on one-line
    messages: it reads the header with the [headerPattern] the action
    configures (a word for the type, an optional scope in parentheses, an
    optional exclamation mark, a colon, one blank, the subject), leaves body,
    footer, notes, merge and revert empty, and refuses a blank message the
    way the package does. *)

Module HeaderParser.

Definition whitespace (x : ascii) : bool :=
  (nat_of_ascii x =? 32)%nat || ((9 <=? nat_of_ascii x) && (nat_of_ascii x <=? 13))%nat.

Definition blank (raw : string) : bool := forallb whitespace (chars raw).

Definition first_line (raw : string) : list ascii :=
  fst (Semver.span (fun x => negb (RegExp.line_terminator x)) (chars raw)).

Definition non_empty (l : list ascii) : option string :=
  match l with
  | [] => None
  | _ :: _ => Some (string_of_list_ascii l)
  end.

(** After the type and the scope: the mark, the colon, the blank and the
    subject. *)
Definition after_scope (l : list ascii) : option (option string * option string) :=
  let '(bang, l) := match l with
                    | "!"%char :: l' => (Some "!", l')
                    | _ => (None, l)
                    end in
  match l with
  | ":"%char :: x :: subject => if whitespace x then Some (bang, non_empty subject) else None
  | _ => None
  end.

(** The groups type, scope, breaking and subject, when the header matches. *)
Definition match_header (header : list ascii)
  : option (option string * option string * option string * option string) :=
  let (type, l) := Semver.span RegExp.is_word header in
  match l with
  | "("%char :: l' =>
      let (scope, l'') := Semver.span (fun x => negb (Ascii.eqb x ")"%char)) l' in
      match l'' with
      | ")"%char :: l3 =>
          match after_scope l3 with
          | Some (bang, subject) => Some (non_empty type, non_empty scope, bang, subject)
          | None => None
          end
      | _ => None
      end
  | _ =>
      match after_scope l with
      | Some (bang, subject) => Some (non_empty type, None, bang, subject)
      | None => None
      end
  end.

Definition parse (raw : string) : result Commit.t :=
  if blank raw then Throw TypeError
  else
    let header := first_line raw in
    let '(type, scope, bang, subject) :=
      match match_header header with
      | Some groups => groups
      | None => (None, None, None, None)
      end in
    Ok (Commit.make type None scope subject (non_empty header) None None bang
                    (Some []) None None None None).

End HeaderParser.

(** ** The program *)

Section Program.

(** [semver.coerce(v, { includePrerelease })], [None] for [null]. *)
Variable semver_coerce : bool -> string -> option Semver.SemVer.

(** [!!semver.valid(v)] *)
Variable semver_valid : string -> bool.

(** [parser.parse(raw)] of conventional-commits-parser. *)
Variable parser_parse : string -> result Commit.t.

(** *** findPreviousVersion *)

(** [versions.map(v => semver.coerce(v, ...))], before [.version] is read:
    reading it of [null] is a [TypeError]. *)
Definition coerce_all (versions : list string) : result (list Semver.SemVer) :=
  traverse (fun v => match semver_coerce true v with
                     | Some c => Ok c
                     | None => Throw TypeError
                     end) versions.

(** The array checks of the source are carried by the types; [versions]
    holds strings. *)
Definition findPreviousVersion (versions : list string) (versionToFind : string)
           (type : string) : result value :=
  let type := toUpperCase type in
  if negb (includes ["MAJOR"; "MINOR"; "PATCH"] type)
  then Throw (Error "Invalid input parameters")
  else
    match semver_coerce true versionToFind with
    | None => Throw (Error "Invalid version string")
    | Some coercedVersion =>
        let* coerced := coerce_all versions in
        let sortedVersions :=
          js_sort Semver.compare
            (List.filter (fun v => truthy (Some (Semver.version v))) coerced) in
        let prefixV := str_startsWith "v" versionToFind in
        let answer (m : value) : value :=
          match m with
          | Str s => if prefixV && value_truthy m then Str ("v" +:+ s) else m
          | _ => m
          end in
        let first_from (range : Semver.SemVer) : value :=
          match List.find (fun v => Semver.gte v range) sortedVersions with
          | Some v => if truthy (Some (Semver.version v)) then Str (Semver.version v) else Null
          | None => Null
          end in
        if String.eqb type "MAJOR" then
          let range := Semver.mkSemVer (Semver.major coercedVersion) 0 0 [] in
          Ok (answer (first_from range))
        else if String.eqb type "MINOR" then
          let range := Semver.mkSemVer (Semver.major coercedVersion)
                                       (Semver.minor coercedVersion) 0 [] in
          Ok (answer (first_from range))
        else
          let index := findIndex (fun v => Semver.eq v coercedVersion) sortedVersions in
          let m := if (index =? 0)%Z then Null else at_index sortedVersions (index - 1) in
          Ok (answer m)
    end.

(** *** contains, startsWith

    The patterns handed to these two are the constants of
    [getMessageType], all well-formed, so the constructor does not throw
    here; a pattern that did not compile would match nothing. *)
Definition regexp_test (source : string) (str : string) : bool :=
  match RegExp.create source with
  | Some r => RegExp.test r str
  | None => false
  end.

Definition contains (expr str : string) : bool :=
  regexp_test ("\b" +:+ expr +:+ "\b") (toLowerCase str).

Definition startsWith (expr str : string) : bool :=
  regexp_test ("^" +:+ expr +:+ "\b") (toLowerCase str).

(** *** getMessageType *)

Definition holds (message : string) (r : Rule.t) : bool :=
  match r with
  | Rule.s expr => startsWith expr message
  | Rule.c expr => contains expr message
  | Rule.sc expr1 expr2 => startsWith expr1 message || contains expr2 message
  | Rule.valid => semver_valid message
  end.

Definition run_switch (message : string) (cases : list (list Rule.t * MessageType.t))
  : option MessageType.t :=
  switch_true (map (fun body => (map (holds message) (fst body), snd body)) cases).

(** [message] is [None] when the caller passes [null] or [undefined]: the
    first [case] then calls [toLowerCase] on it and throws. *)
Definition getMessageType (message : option string)
           (defaultType : option MessageType.t) (forceType : option string)
  : result MessageType.t :=
  match message with
  | None => Throw TypeError
  | Some message =>
      if match forceType with Some f => String.eqb f "feat" | None => false end
      then
        match run_switch message Rule.feat_cases with
        | Some r => Ok r
        | None => Ok (Rule.feat "change")
        end
      else
        match run_switch message Rule.cascade with
        | Some r => Ok r
        | None =>
            match defaultType with
            | Some d => Ok d
            | None => Ok (Rule.just "other")
            end
        end
  end.

(** *** parseCommitMessage *)

Definition parseCommitMessage (commit : Commit.t) (defaultType : option MessageType.t)
           (validTypes : list string) : result Commit.t :=
  if truthy (Commit.merge commit)
  then Ok (Commit.with_type commit (Some "merge") (Commit.subType commit))
  else if match Commit.revert commit with Some _ => true | None => false end
  then Ok (Commit.with_type commit (Some "revert") (Commit.subType commit))
  else
    let type := Commit.type commit in
    let* data :=
      getMessageType
        (match Commit.subject commit with Some x => Some x | None => Commit.header commit end)
        defaultType type in
    let type := match type with Some t => t | None => MessageType.type data end in
    let subType :=
      if String.eqb type "feat"
      then Some (if truthy (MessageType.subType data)
                 then template (MessageType.subType data) else "change")
      else None in
    if includes validTypes type
    then Ok (Commit.with_type commit (Some type) subType)
    else
      let* commit := parser_parse (type +:+ ": " +:+ template (Commit.orig commit)) in
      Ok (Commit.with_type commit (Some type) subType).

(** *** createSortGroupKeys

    The sign of the comparator's number. [NaN] counts as zero in a sort: it
    is the difference of two infinities, and the difference with a member of
    [Object.prototype], which [typeOrder[a]] finds for a key that names one
    and is not listed. *)
Definition createSortGroupKeys {V : Type} (types : option (list string))
           (a b : string * V) : Z :=
  let order := match types with Some t => t | None => validTypes end in
  let typeOrder : JsObject.t Z :=
    JsObject.fromEntries (combine order (map Z.of_nat (seq 0 (List.length order)))) in
  match JsObject.read (fst a) typeOrder, JsObject.read (fst b) typeOrder with
  | JsObject.Own x, JsObject.Own y => (x - y)%Z
  | JsObject.Own _, JsObject.Absent => (-1)%Z
  | JsObject.Absent, JsObject.Own _ => 1%Z
  | JsObject.Absent, JsObject.Absent => 0%Z
  | JsObject.Inherited, _ | _, JsObject.Inherited => 0%Z
  end.

(** *** getCommits *)

(** The body of the loop up to the normalised commit. The call of
    [parseCommitMessage] passes the constant [validTypes] of the module,
    not the one of [options]. *)
Definition normalise (options : GetCommitsOptions) (message : string) : result Commit.t :=
  let raw := message in
  let orig := message in
  let* commit := parser_parse orig in
  let type := Commit.type commit in
  let* (commit, type, orig) :=
    if truthy type && negb (includes (options_validTypes options) (template type))
    then
      let orig := replace_first ": " " " orig in
      let* commit := parser_parse orig in
      Ok (commit, None, orig)
    else Ok (commit, type, orig) in
  let* parsed :=
    parseCommitMessage
      (Commit.with_source (Commit.with_type commit type (Commit.subType commit))
                          (Some orig) (Some raw))
      (defaultType options) validTypes in
  Ok (Commit.with_source parsed (Some orig) (Some raw)).

Definition group_key_of (commit : Commit.t) : string :=
  if truthy (Commit.subType commit)
  then template (Commit.type commit) +:+ "_" +:+ template (Commit.subType commit)
  else template (Commit.type commit).

(** [groups[key] ??= []; groups[key].push(commit)] *)
Definition push_group (key : string) (commit : Commit.t)
           (groups : JsObject.t (list Commit.t)) : result (JsObject.t (list Commit.t)) :=
  JsObject.push key [commit] groups.

(** The [for] loop inside [try]: the state is what has been pushed when
    the loop ends or an exception leaves it. The commit is pushed to
    [commits] before its bucket is looked up. *)
Fixpoint collect (options : GetCommitsOptions) (messages : list string)
         (commits : list Commit.t) (groups : JsObject.t (list Commit.t))
  : list Commit.t * JsObject.t (list Commit.t) * option error :=
  match messages with
  | [] => (commits, groups, None)
  | message :: rest =>
      if String.eqb message "" then collect options rest commits groups
      else
        match normalise options message with
        | Throw e => (commits, groups, Some e)
        | Ok commit =>
            match push_group (group_key_of commit) commit groups with
            | Throw e => (commits ++ [commit], groups, Some e)
            | Ok groups => collect options rest (commits ++ [commit]) groups
            end
        end
  end.

(** The commits of the messages that pass through the loop body without an
    exception, in order, and the buckets they fill. *)
Definition processed (options : GetCommitsOptions) (messages : list string) : list Commit.t :=
  flat_map (fun message =>
              if String.eqb message "" then []
              else match normalise options message with
                   | Ok commit => [commit]
                   | Throw _ => []
                   end) messages.

Definition grouped (commits : list Commit.t) (groups : JsObject.t (list Commit.t))
  : JsObject.t (list Commit.t) :=
  fold_left (fun groups commit => JsObject.append (group_key_of commit) [commit] groups)
            commits groups.

(** The comparator of the sort. [indexOf] is always a number, [-1] for a
    key that is not listed, so the [?? Infinity] of the source never
    applies. *)
Definition by_validTypes {V : Type} (options : GetCommitsOptions) (a b : string * V) : Z :=
  (indexOf (options_validTypes options) (fst a)
   - indexOf (options_validTypes options) (fst b))%Z.

Definition getCommits (messages : list string) (options : GetCommitsOptions) : Commits :=
  match collect options messages [] JsObject.empty with
  | (commits, groups, None) =>
      {| commits := commits;
         groups := JsObject.fromEntries
                     (js_sort (by_validTypes options) (JsObject.entries groups));
         logged := None |}
  | (commits, groups, Some e) =>
      {| commits := commits; groups := groups; logged := Some e |}
  end.

(** *** getNotices *)

(** The callback of [filter] assigns to [check], so the walk over the
    notes threads it. A [RegExp] has no [startsWith]: calling it is a
    [TypeError]. *)
Fixpoint filter_notes (check : check) (notes : list Note.t) : result (list Note.t) :=
  match notes with
  | [] => Ok []
  | note :: rest =>
      match check with
      | Pattern _ => Throw TypeError
      | Literal s =>
          let* check :=
            if str_startsWith "/" s && str_endsWith "/" s
            then match RegExp.create s with
                 | Some r => Ok (Pattern r)
                 | None => Throw SyntaxError
                 end
            else Ok (Literal s) in
          let keep :=
            match check with
            | Pattern r => RegExp.test r (Note.title note)
            | Literal s => String.eqb (Note.title note) s
            end in
          let* kept := filter_notes check rest in
          Ok (if keep then note :: kept else kept)
      end
  end.

Definition getNotices (commit : Commit.t) (label : string) (check : option check)
           (breakingLabel : string) : result (list string) :=
  let check := match check with Some c => c | None => Literal label end in
  let* notices :=
    match Commit.notes commit with
    | Some notes => let* kept := filter_notes check notes in Ok (map Note.text kept)
    | None => Ok []
    end in
  if negb (List.length notices =? 0)%nat then Ok notices
  else if String.eqb label breakingLabel && truthy (Commit.breaking commit)
       then Ok [template (Commit.breaking commit)]
       else Ok [].

(** *** buildChangelog *)

Definition default_types : JsObject.t string :=
  [("feat_add", "Added"); ("feat_change", "Changed"); ("feat_remove", "Removed");
   ("fix", "Fixed")].

(** [/^BREAKING[ -]CHANGE$/] *)
Definition breaking_pattern : RegExp.regex :=
  match RegExp.create "^BREAKING[ -]CHANGE$" with
  | Some r => r
  | None => RegExp.Empty
  end.

Definition default_keys : JsObject.t check :=
  [("BREAKING CHANGES", Pattern breaking_pattern)].

(** [x ??= d] on a property. *)
Definition or_default {A : Type} (x : option A) (d : A) : option A :=
  match x with
  | Some a => Some a
  | None => Some d
  end.

Definition read_options (h : heap) (l : loc) : Options.t :=
  default Options.empty (options_at h !! l).

Definition read_notice (h : heap) (l : loc) : NoticeOptions.t :=
  default NoticeOptions.empty (notice_at h !! l).

Definition write_options (l : loc) (o : Options.t) (h : heap) : heap :=
  {| options_at := <[l := o]> (options_at h); notice_at := notice_at h |}.

Definition write_notice (l : loc) (n : NoticeOptions.t) (h : heap) : heap :=
  {| options_at := options_at h; notice_at := <[l := n]> (notice_at h) |}.

(** The assignments at the head of [buildChangelog]: they write to the
    object the caller passed, and to its [notice] object when it has one;
    a new object is made only for a missing one. *)
Definition set_defaults (options : option loc) (h : heap) : loc * heap :=
  let '(l, h) :=
    match options with
    | Some l => (l, h)
    | None => let l := fresh (dom (options_at h)) in (l, write_options l Options.empty h)
    end in
  let o := read_options h l in
  let '(n, h) :=
    match Options.notice o with
    | Some n => (n, h)
    | None => let n := fresh (dom (notice_at h)) in (n, write_notice n NoticeOptions.empty h)
    end in
  let h :=
    write_options l
      (Options.make (or_default (Options.coerce o) true)
                    (or_default (Options.onlyFirst o) false)
                    (or_default (Options.onlyBody o) false)
                    (or_default (Options.types o) default_types)
                    (Some n)) h in
  let k := read_notice h n in
  let h :=
    write_notice n
      (NoticeOptions.make (or_default (NoticeOptions.keys k) default_keys)
                          (or_default (NoticeOptions.all k) false)
                          (or_default (NoticeOptions.inFooter k) true)) h in
  (l, h).

(** The options as the loop reads them, once the defaults are in. *)
Record Settings : Type := {
  coerce : bool;
  onlyFirst : bool;
  onlyBody : bool;
  types : JsObject.t string;
  keys : JsObject.t check;
  all : bool;
  inFooter : bool
}.

Definition settings_of (h : heap) (l : loc) : Settings :=
  let o := read_options h l in
  let k := match Options.notice o with
           | Some n => read_notice h n
           | None => NoticeOptions.empty
           end in
  {| coerce := default true (Options.coerce o);
     onlyFirst := default false (Options.onlyFirst o);
     onlyBody := default false (Options.onlyBody o);
     types := default default_types (Options.types o);
     keys := default default_keys (NoticeOptions.keys k);
     all := default false (NoticeOptions.all k);
     inFooter := default true (NoticeOptions.inFooter k) |}.

(** A left fold whose step may throw. *)
Fixpoint foldM {A S : Type} (f : S -> A -> result S) (l : list A) (s : S) : result S :=
  match l with
  | [] => Ok s
  | x :: l' => let* s' := f s x in foldM f l' s'
  end.

(** [notices[label] ??= []; notices[label] = [...notices[label], ...found]] *)
Definition add_notices (label : string) (found : list string)
           (notices : JsObject.t (list string)) : result (JsObject.t (list string)) :=
  JsObject.push label found notices.

Definition collect_notices (o : Settings) (buckets : JsObject.t (list Commit.t))
  : result (JsObject.t (list string)) :=
  foldM (fun notices bucket =>
           if all o || includes (JsObject.keys (types o)) (fst bucket)
           then
             foldM (fun notices commit =>
                      foldM (fun notices key =>
                               let* commitNotices :=
                                 getNotices commit (fst key) (Some (snd key))
                                            "BREAKING CHANGE" in
                               if negb (List.length commitNotices =? 0)%nat
                               then add_notices (fst key) commitNotices notices
                               else Ok notices)
                            (JsObject.entries (keys o)) notices)
                   (snd bucket) notices
           else Ok notices)
        (JsObject.entries buckets) JsObject.empty.

Definition notice_lines (notices : JsObject.t (list string)) : list string :=
  flat_map (fun entry =>
              ["### " +:+ fst entry; ""] ++ map (fun item => "- " +:+ item) (snd entry) ++ [""])
           (JsObject.entries notices).

(** [commit.subject ?? commit.breaking ?? commit.header ?? commit.merge
    ?? commit?.revert?.header] *)
Definition display (commit : Commit.t) : option string :=
  match Commit.subject commit with
  | Some x => Some x
  | None =>
      match Commit.breaking commit with
      | Some x => Some x
      | None =>
          match Commit.header commit with
          | Some x => Some x
          | None =>
              match Commit.merge commit with
              | Some x => Some x
              | None => match Commit.revert commit with
                        | Some r => Revert.header r
                        | None => None
                        end
              end
          end
      end
  end.

(** [scopes[commit?.scope ?? ''] ??= []; scopes[...].push(commit)] *)
Definition add_scope (scopes : JsObject.t (list Commit.t)) (commit : Commit.t)
  : result (JsObject.t (list Commit.t)) :=
  JsObject.push (default "" (Commit.scope commit)) [commit] scopes.

(** One line per commit; [escapeHTML(undefined)] is a [TypeError]. *)
Definition commit_line (scope : string) (commit : Commit.t) : result string :=
  match display commit with
  | Some text =>
      Ok ((if truthy (Some scope) then "  " else "") +:+ "- " +:+ escapeHTML text)
  | None => Throw TypeError
  end.

Definition scope_lines (scopes : JsObject.t (list Commit.t)) (scope : string)
  : result (list string) :=
  let* bullets := traverse (commit_line scope) (default [] (JsObject.get scope scopes)) in
  Ok ((if truthy (Some scope) then ["- " +:+ scope] else []) ++ bullets).

(** The section of one type. [release.commits[type]] is a property read:
    for a type that names a member of [Object.prototype] and is no bucket of
    the release it finds that member, which is truthy and not iterable. *)
Definition type_lines (buckets : JsObject.t (list Commit.t)) (entry : string * string)
  : result (list string) :=
  match JsObject.read (fst entry) buckets with
  | JsObject.Absent => Ok []
  | JsObject.Inherited => Throw TypeError
  | JsObject.Own bucket =>
      let* scopes := foldM add_scope bucket JsObject.empty in
      let* body := traverse (scope_lines scopes) (js_sort default_cmp (JsObject.keys scopes)) in
      Ok (["### " +:+ snd entry; ""] ++ concat body ++ [""])
  end.

(** The body of the loop for a release that has commit buckets. *)
Definition release_lines (o : Settings) (version : string) (release : Release.t)
           (buckets : JsObject.t (list Commit.t)) : result (list string) :=
  let heading :=
    if onlyBody o then []
    else [""; "## "
              +:+ (if coerce o
                   then match semver_coerce true version with
                        | Some v => Semver.version v
                        | None => "null"
                        end
                   else version)
              +:+ (if truthy (Release.date release)
                   then " (" +:+ template (Release.date release) +:+ ")" else "");
          ""] in
  let* notices :=
    if negb (List.length (JsObject.keys (keys o)) =? 0)%nat
    then collect_notices o buckets
    else Ok JsObject.empty in
  let notice := notice_lines notices in
  let block := if negb (List.length notice =? 0)%nat then [join (String "010" "") notice; ""] else [] in
  let* sections := traverse (type_lines buckets) (JsObject.entries (types o)) in
  Ok (heading
      ++ (if truthy (Release.header release) then [template (Release.header release); ""] else [])
      ++ (if inFooter o then [] else block)
      ++ concat sections
      ++ (if inFooter o then block else [])
      ++ (if truthy (Release.footer release) then [template (Release.footer release); ""] else [])).

(** The loop over [Object.entries(releases)]; [Object.keys] of a missing
    [commits] is a [TypeError]. *)
Fixpoint render (o : Settings) (releases : list (string * Release.t)) (lines : list string)
  : result (list string) :=
  match releases with
  | [] => Ok lines
  | (version, release) :: rest =>
      match Release.commits release with
      | None => Throw TypeError
      | Some buckets =>
          let* lines :=
            if negb (List.length (JsObject.keys buckets) =? 0)%nat
            then let* emitted := release_lines o version release buckets in
                 Ok (lines ++ emitted)
            else Ok lines in
          if onlyFirst o then Ok lines else render o rest lines
      end
  end.

(** [releases] is given by its entries; [options] is a reference, [None]
    for a missing argument. The heap that comes back holds the writes. *)
Definition buildChangelog (releases : list (string * Release.t)) (options : option loc)
           (h : heap) : heap * result (list string) :=
  let '(l, h) := set_defaults options h in
  let o := settings_of h l in
  (h, render o releases (if onlyBody o then [] else ["# Changelog"; ""])).

(** *** groupReleases *)

Definition group_of (groupBy : string) (version : string) : option string :=
  let parts :=
    split "."%char (match semver_coerce false version with
                    | Some v => Semver.version v
                    | None => ""
                    end) in
  if negb (List.length parts =? 3)%nat then None
  else
    let parts := removelast parts in
    let parts := if String.eqb (toLowerCase groupBy) "major" then removelast parts else parts in
    Some (join "." parts).

(** [groups[group].commits[type] ??= []; ...push(...commits)] *)
Definition add_commits (commits : JsObject.t (list Commit.t)) (entry : string * list Commit.t)
  : result (JsObject.t (list Commit.t)) :=
  JsObject.push (fst entry) (snd entry) commits.

(** One turn of the first loop. The key [group] starts with the digits of
    the major number, so [groups[group]] finds an own property or none
    (lemma [group_of_not_inherited]). *)
Definition add_release (groupBy : string) (groups : JsObject.t Group.t)
           (entry : string * Release.t) : result (JsObject.t Group.t) :=
  let (version, release) := entry in
  match group_of groupBy version with
  | None => Ok groups
  | Some group =>
      let g := default (Group.make group [] [] [] JsObject.empty) (JsObject.get group groups) in
      let* commits :=
        foldM add_commits (JsObject.entries (default JsObject.empty (Release.commits release)))
              (Group.commits g) in
      Ok (JsObject.set group
            (Group.make (Group.tag g)
               (Group.name g ++ (if truthy (Release.name release)
                                 then [template (Release.name release)] else []))
               (Group.date g ++ (if truthy (Release.date release)
                                 then [template (Release.date release)] else []))
               (Group.messages g ++ default [] (Release.messages release))
               commits)
            groups)
  end.

(** The second loop: names and dates become strings. *)
Definition close_group (g : Group.t) : Release.t :=
  Release.make (Some (Group.tag g))
    (if truthy (Some (join ", " (Group.name g))) then Some (join ", " (Group.name g)) else None)
    (Some (join ", " (Group.date g)))
    None None None
    (Some (Group.messages g))
    (Some (Group.commits g)).

Definition groupReleases (releases : list (string * Release.t)) (groupBy : string)
  : result (JsObject.t Release.t) :=
  let* groups := foldM (add_release groupBy) releases JsObject.empty in
  Ok (map (fun entry => (fst entry, close_group (snd entry))) groups).

(** *** Vocabulary of the properties *)

(** The notice object the defaults go to: the caller's own when the options
    have one, a new one otherwise. *)
Definition notice_target (h : heap) (o : Options.t) : loc :=
  match Options.notice o with
  | Some n => n
  | None => fresh (dom (notice_at h))
  end.

Definition filled_options (o : Options.t) (n : loc) : Options.t :=
  Options.make (Some (default true (Options.coerce o)))
               (Some (default false (Options.onlyFirst o)))
               (Some (default false (Options.onlyBody o)))
               (Some (default default_types (Options.types o)))
               (Some n).

Definition filled_notice (k : NoticeOptions.t) : NoticeOptions.t :=
  NoticeOptions.make (Some (default default_keys (NoticeOptions.keys k)))
                     (Some (default false (NoticeOptions.all k)))
                     (Some (default true (NoticeOptions.inFooter k))).

(** The commits a release holds under a type key. *)
Definition under (type : string) (release : Release.t) : list Commit.t :=
  flat_map snd (List.filter (fun entry => String.eqb (fst entry) type)
                            (JsObject.entries (default JsObject.empty (Release.commits release)))).

(** The commits of a bucket of the result under a type key, none when the
    bucket or the key is missing. *)
Definition bucket_commits (buckets : JsObject.t Release.t) (group type : string)
  : list Commit.t :=
  match JsObject.get group buckets with
  | Some release => default [] (JsObject.get type (default JsObject.empty (Release.commits release)))
  | None => []
  end.

(** What the releases of a bucket bring to a type key, in iteration order. *)
Definition contributions (groupBy : string) (releases : list (string * Release.t))
           (group type : string)
  : list Commit.t :=
  flat_map (fun entry =>
              match group_of groupBy (fst entry) with
              | Some g => if String.eqb g group then under type (snd entry) else []
              | None => []
              end) releases.

(** The buckets during the first loop. *)
Definition open_commits (groups : JsObject.t Group.t) (group type : string) : list Commit.t :=
  match JsObject.get group groups with
  | Some g => default [] (JsObject.get type (Group.commits g))
  | None => []
  end.

End Program.

(** ** Checks and example data *)

(** A rule whose patterns are well-formed, inside [contains] and inside
    [startsWith]. *)
Definition compiles (r : Rule.t) : bool :=
  let ok source := match RegExp.create source with Some _ => true | None => false end in
  match r with
  | Rule.s expr => ok ("^" +:+ expr +:+ "\b")
  | Rule.c expr => ok ("\b" +:+ expr +:+ "\b")
  | Rule.sc expr1 expr2 => ok ("^" +:+ expr1 +:+ "\b") && ok ("\b" +:+ expr2 +:+ "\b")
  | Rule.valid => true
  end.

(** A commit with one footer note, the rest as the parser leaves it. *)
Definition noted (title text : string) : Commit.t :=
  Commit.make (Some "feat") (Some "add") None (Some "add an option") None None None None
              (Some [Note.make title text]) None None None None.

Definition default_options : GetCommitsOptions :=
  {| defaultType := None; options_validTypes := validTypes |}.

(** A release without commit bucket, a release with one fix, and a heap in
    which the caller's options at location [0] set [onlyFirst] alone. *)
Definition fix_commit : Commit.t :=
  Commit.make (Some "fix") None None (Some "a bug") (Some "fix: a bug") None None None
              (Some []) None None (Some "fix: a bug") (Some "fix: a bug").

Definition empty_release : Release.t :=
  Release.make (Some "2.0.0") None None None None None (Some []) (Some JsObject.empty).

Definition fix_release : Release.t :=
  Release.make (Some "1.0.0") None None None None None (Some ["fix: a bug"])
               (Some [("fix", [fix_commit])]).

Definition caller_heap : heap :=
  {| options_at := {[ 0%nat := Options.make None (Some true) None None None ]};
     notice_at := ∅ |}.

(** Three releases of two minor lines. *)
Definition titled (type subject : string) : Commit.t :=
  Commit.make (Some type) None None (Some subject) None None None None None None None None
              None.

Definition three_releases : list (string * Release.t) :=
  [ ("1.2.3", Release.make (Some "1.2.3") (Some "Release 1") (Some "2023-01-01") None None None
                           (Some ["Fix bug"])
                           (Some [("fix", [titled "fix" "Fix bug"])]));
    ("1.2.4", Release.make (Some "1.2.4") (Some "Release 2") (Some "2023-01-15") None None None
                           (Some ["Fix crash"; "Add feature"])
                           (Some [("fix", [titled "fix" "Fix crash"]);
                                  ("feat", [titled "feat" "Add feature"])]));
    ("1.3.0", Release.make (Some "1.3.0") (Some "Release 3") (Some "2023-02-01") None None None
                           (Some ["Major update"])
                           (Some [("feat", [titled "feat" "Major update"])])) ].

(** The versions of the test suite. *)
Definition test_versions : list string :=
  [ "0.0.0"; "v0.0.1"; "0.0.2"; "v0.1.0"; "0.1.1"; "v0.1.2"; "0.2.0"; "v0.2.1"; "0.2.2";
    "1.0.0"; "v1.0.1"; "1.0.2"; "v1.1.2"; "1.2.0"; "v1.2.1"; "1.2.2";
    "v2.0.1"; "2.0.2"; "v2.1.2"; "2.2.2" ].

(** A fix with a scope, or without. *)
Definition scoped (scope : option string) (subject : string) : Commit.t :=
  Commit.make (Some "fix") None scope (Some subject) None None None None (Some []) None None
              None None.

(** ** More vocabulary: comparators *)

(** A comparator that orders its arguments totally: zero on equal arguments
    only, opposite signs when the arguments are swapped, transitive. *)
Record Order {A : Type} (c : A -> A -> Z) : Prop := {
  order_eq : forall a b, c a b = 0%Z <-> a = b;
  order_flip : forall a b, (c a b < 0)%Z <-> (0 < c b a)%Z;
  order_trans : forall a b d, (c a b < 0)%Z -> (c b d < 0)%Z -> (c a d < 0)%Z
}.

(** The first number when it is not zero, else the second. *)
Definition lex (x y : Z) : Z := if negb (x =? 0)%Z then x else y.

(** The versions of a list that coerce, in order. *)
Definition coercible (coerce : bool -> string -> option Semver.SemVer)
           (versions : list string) : list Semver.SemVer :=
  flat_map (fun v => match coerce true v with Some c => [c] | None => [] end) versions.

(** Identifiers compared with their numbers taken exactly, and lists of
    identifiers compared through them: what [compareIdentifiers] and the loop
    of [comparePre] come to as long as every number is a safe integer. *)
Definition exact_identifier (a b : Semver.identifier) : Z :=
  match a, b with
  | Semver.Numeric x, Semver.Numeric y => Semver.compare_N x y
  | Semver.Numeric _, Semver.Alphanumeric _ => (-1)%Z
  | Semver.Alphanumeric _, Semver.Numeric _ => 1%Z
  | Semver.Alphanumeric x, Semver.Alphanumeric y => default_cmp x y
  end.

Fixpoint exact_identifiers (a b : list Semver.identifier) : Z :=
  match a, b with
  | [], [] => 0%Z
  | _ :: _, [] => 1%Z
  | [], _ :: _ => (-1)%Z
  | x :: a', y :: b' =>
      if (exact_identifier x y =? 0)%Z then exact_identifiers a' b'
      else exact_identifier x y
  end.

Definition compare_prerelease (pa pb : list Semver.identifier) : Z :=
  match pa, pb with
  | [], [] => 0%Z
  | _ :: _, [] => (-1)%Z
  | [], _ :: _ => 1%Z
  | _ :: _, _ :: _ => exact_identifiers pa pb
  end.

(** A version whose numeric prerelease identifiers are safe integers. *)
Definition safe_identifier (i : Semver.identifier) : bool :=
  match i with
  | Semver.Numeric n => (n <=? Semver.MAX_SAFE_INTEGER)%N
  | Semver.Alphanumeric _ => true
  end.

Definition safe (v : Semver.SemVer) : bool := forallb safe_identifier (Semver.prerelease v).

(** A version as the tuple [semver.compare] goes through, and the
    comparison of two tuples, component after component. *)
Definition version_tuple (v : Semver.SemVer) : N * (N * (N * list Semver.identifier)) :=
  (Semver.major v, (Semver.minor v, (Semver.patch v, Semver.prerelease v))).

Definition compare_tuple (p q : N * (N * (N * list Semver.identifier))) : Z :=
  lex (Semver.compare_N (fst p) (fst q))
      (lex (Semver.compare_N (fst (snd p)) (fst (snd q)))
           (lex (Semver.compare_N (fst (snd (snd p))) (fst (snd (snd q))))
                (compare_prerelease (snd (snd (snd p))) (snd (snd (snd q)))))).

Definition exact_compare (a b : Semver.SemVer) : Z :=
  compare_tuple (version_tuple a) (version_tuple b).

(** ** More vocabulary: escaping *)

(** What one character becomes in a single pass over the text. *)
Definition escape_char (c : ascii) : string :=
  if Ascii.eqb c "&"%char then "&amp;"
  else if Ascii.eqb c "<"%char then "&lt;"
  else if Ascii.eqb c ">"%char then "&gt;"
  else if Ascii.eqb c "034"%char then "&quot;"
  else if Ascii.eqb c "'"%char then "&#39;"
  else String c EmptyString.

Fixpoint escape_each (s : string) : string :=
  match s with
  | EmptyString => EmptyString
  | String c s' => escape_char c +:+ escape_each s'
  end.

(** The characters that open or close markup or an attribute value. *)
Definition markup_char (c : ascii) : bool :=
  Ascii.eqb c "<"%char || Ascii.eqb c ">"%char || Ascii.eqb c "034"%char
  || Ascii.eqb c "'"%char.

(** Reading the five entities back. *)
Fixpoint unescape (s : string) : string :=
  match s with
  | String "&" (String "a" (String "m" (String "p" (String ";" r)))) =>
      String "&" (unescape r)
  | String "&" (String "l" (String "t" (String ";" r))) => String "<" (unescape r)
  | String "&" (String "g" (String "t" (String ";" r))) => String ">" (unescape r)
  | String "&" (String "q" (String "u" (String "o" (String "t" (String ";" r))))) =>
      String "034" (unescape r)
  | String "&" (String "#" (String "3" (String "9" (String ";" r)))) =>
      String "'" (unescape r)
  | String c r => String c (unescape r)
  | EmptyString => EmptyString
  end.

(** ** More vocabulary: classification *)

(** The types the rules can answer, and the shape of an answer: a subtype,
    one of three, with the type ["feat"] and with no other. *)
Definition rule_types : list string := validTypes ++ ["merge"; "other"].

Definition rule_shaped (r : MessageType.t) : bool :=
  includes rule_types (MessageType.type r)
  && match MessageType.subType r with
     | Some s => String.eqb (MessageType.type r) "feat" && includes ["add"; "change"; "remove"] s
     | None => negb (String.eqb (MessageType.type r) "feat")
     end.

(** ** More vocabulary: commits *)

(** A commit as [getCommits] leaves it: it has a type, and a subtype, not
    empty, exactly when the type is ["feat"]. *)
Definition typed (c : Commit.t) : Prop :=
  exists t,
    Commit.type c = Some t
    /\ ((t = "feat" /\ exists s, Commit.subType c = Some s /\ s <> "")
        \/ (t <> "feat" /\ Commit.subType c = None)).

Definition non_empty_message (message : string) : bool := negb (String.eqb message "").

(** ** More vocabulary: notes *)

(** The one call of [getNotices] whose outcome rests on whether a string
    compiles as a pattern: a single note, and a check between slashes. *)
Definition rests_on_compiling (commit : Commit.t) (label : string) (check : option check)
  : bool :=
  match Commit.notes commit, default (Literal label) check with
  | Some [_], Literal s => str_startsWith "/" s && str_endsWith "/" s
  | _, _ => false
  end.

(** A commit with two footer notes. *)
Definition two_notes : Commit.t :=
  Commit.make (Some "fix") None None (Some "mend the parser") None None None None
              (Some [Note.make "a/x/b" "first"; Note.make "other" "second"])
              None None None None.

(** ** More vocabulary: options *)

(** The [onlyFirst] a call works with: the caller's, or the default. *)
Definition effective_onlyFirst (options : option loc) (h : heap) : bool :=
  match options with
  | Some l => default false (Options.onlyFirst (read_options h l))
  | None => false
  end.

(** The settings of a call without options. *)
Definition default_settings : Settings :=
  {| coerce := true; onlyFirst := false; onlyBody := false; types := default_types;
     keys := default_keys; all := false; inFooter := true |}.

(** ** More vocabulary: buckets of releases *)

(** The releases that go to a bucket, in iteration order. *)
Definition contributing (coerce : bool -> string -> option Semver.SemVer)
           (groupBy group : string) (releases : list (string * Release.t)) : list Release.t :=
  map snd
      (List.filter (fun entry => match group_of coerce groupBy (fst entry) with
                                 | Some g => String.eqb g group
                                 | None => false
                                 end) releases).

(** The strings of a list of optional strings that are not empty. *)
Definition truthy_strings (l : list (option string)) : list string :=
  flat_map (fun o => if truthy o then [template o] else []) l.

(** Commit buckets with the buckets of [entries] put behind them, key by
    key. *)
Definition merged (entries : list (string * list Commit.t))
           (commits : JsObject.t (list Commit.t)) : JsObject.t (list Commit.t) :=
  fold_left (fun commits entry => JsObject.append (fst entry) (snd entry) commits)
            entries commits.

(** A release whose commit buckets have a type key that names a member of
    [Object.prototype]. *)
Definition inherited_type (release : Release.t) : bool :=
  existsb JsObject.inherited (JsObject.keys (default JsObject.empty (Release.commits release))).

(** Some release that goes to a bucket has such a key. *)
Definition poisoned (coerce : bool -> string -> option Semver.SemVer)
           (groupBy : string) (releases : list (string * Release.t)) : bool :=
  existsb (fun entry => match group_of coerce groupBy (fst entry) with
                        | Some _ => inherited_type (snd entry)
                        | None => false
                        end) releases.

(** The bucket a list of releases fills. *)
Definition bucket_of (group : string) (members : list Release.t) : Release.t :=
  Release.make
    (Some group)
    (if truthy (Some (join ", " (truthy_strings (map Release.name members))))
     then Some (join ", " (truthy_strings (map Release.name members))) else None)
    (Some (join ", " (truthy_strings (map Release.date members))))
    None None None
    (Some (flat_map (fun r => default [] (Release.messages r)) members))
    (Some (merged (flat_map (fun r => JsObject.entries
                                        (default JsObject.empty (Release.commits r)))
                            members)
                  JsObject.empty)).

(** One release added to a bucket, as [groupReleases] does it when no
    type key stops it. *)
Definition extend (g : Group.t) (release : Release.t) : Group.t :=
  Group.make (Group.tag g)
             (Group.name g ++ (if truthy (Release.name release)
                               then [template (Release.name release)] else []))
             (Group.date g ++ (if truthy (Release.date release)
                               then [template (Release.date release)] else []))
             (Group.messages g ++ default [] (Release.messages release))
             (merged (JsObject.entries (default JsObject.empty (Release.commits release)))
                     (Group.commits g)).

Definition put_release (coerce : bool -> string -> option Semver.SemVer)
           (groupBy : string) (groups : JsObject.t Group.t) (entry : string * Release.t)
  : JsObject.t Group.t :=
  match group_of coerce groupBy (fst entry) with
  | None => groups
  | Some group =>
      JsObject.set group
        (extend (default (Group.make group [] [] [] JsObject.empty)
                         (JsObject.get group groups)) (snd entry))
        groups
  end.

(** Commit buckets none of whose own keys names a member of
    [Object.prototype]. *)
Definition clean {V : Type} (o : JsObject.t V) : Prop :=
  forall k, In k (JsObject.keys o) -> JsObject.inherited k = false.

(** The same of the commit buckets of every bucket of releases. *)
Definition clean_groups (groups : JsObject.t Group.t) : Prop :=
  forall group g, JsObject.get group groups = Some g -> clean (Group.commits g).

(** ** More vocabulary: keys of a sort order *)

(** An entry whose key is one of the types of the sort order. *)
Definition listed {V : Type} (types : option (list string)) (entry : string * V) : bool :=
  includes (match types with Some t => t | None => validTypes end) (fst entry).

(** ** getBooleanInput *)

(** [String(input)] for the inputs the action passes: a string or [null]. *)
Definition String_of (input : value) : string :=
  match input with
  | Null => "null"
  | Undefined => "undefined"
  | Str s => s
  end.

Definition getBooleanInput (input : value) : bool :=
  negb (includes [""; "undefined"; "null"; "false"; "0"; "no"; "off"]
                 (trim (toLowerCase (String_of input)))).

(** A string of white space only. *)
Definition blank (s : string) : bool := forallb is_space (chars s).

(** A string of code units below 128, on which [toLowerCase],
    [toUpperCase] and [trim] are the methods of JavaScript. *)
Definition ascii_only (s : string) : bool :=
  forallb (fun c => (nat_of_ascii c <? 128)%nat) (chars s).

(** ** getRepoData

    The responses of [octokit.paginate.iterator] are the list [pages] of
    their [data] arrays, in the order the iterator yields them; the walk
    takes them one by one and stops where the source returns. *)

Module Params.
Record t : Type := make { per_page : option Z }.
End Params.

Module GetRepoDataOptions.
Record t : Type := make { limit : option Z; params : option Params.t }.
End GetRepoDataOptions.

Section RepoData.

Context {A : Type}.

(** The inner loop: [inl] is the [return] at the limit, [inr] the items at
    the end of the page. *)
Fixpoint push_items (limit : Z) (data items : list A) : list A + list A :=
  match data with
  | [] => inr items
  | item :: data' =>
      let items := items ++ [item] in
      if (limit <=? Z.of_nat (List.length items))%Z then inl items
      else push_items limit data' items
  end.

Fixpoint read_pages (limit per_page : Z) (pages : list (list A)) (items : list A) : list A :=
  match pages with
  | [] => items
  | data :: pages' =>
      match push_items limit data items with
      | inl items => items
      | inr items =>
          if (Z.of_nat (List.length data) <? per_page)%Z then items
          else read_pages limit per_page pages' items
      end
  end.

(** The spread takes [limit] and [params] from the caller's options where
    they are present; [params] is taken as a whole, so a caller's [params]
    without [per_page] falls to the [?? 30] of the comparison. *)
Definition repo_limit (options : GetRepoDataOptions.t) : Z :=
  default 500%Z (GetRepoDataOptions.limit options).

Definition repo_per_page (options : GetRepoDataOptions.t) : Z :=
  default 30%Z (Params.per_page (default (Params.make (Some 100%Z))
                                         (GetRepoDataOptions.params options))).

Definition getRepoData (pages : list (list A)) (options : GetRepoDataOptions.t) : list A :=
  read_pages (repo_limit options) (repo_per_page options) pages [].

(** The pages up to the first one that is shorter than [per_page], that
    one included. *)
Fixpoint through_short (per_page : Z) (pages : list (list A)) : list (list A) :=
  match pages with
  | [] => []
  | data :: pages' =>
      if (Z.of_nat (List.length data) <? per_page)%Z then [data]
      else data :: through_short per_page pages'
  end.

End RepoData.

(** * Properties *)

(** ** Sorting and searching *)

Lemma sort_insert_In {A : Type} (cmp : A -> A -> Z) (x y : A) (l : list A) :
  In y (sort_insert cmp x l) <-> y = x \/ In y l.
Proof.
  induction l as [|z l IH]; simpl.
  - intuition.
  - destruct (cmp x z <=? 0)%Z; simpl; [intuition|].
    rewrite IH. intuition.
Qed.

Lemma js_sort_In {A : Type} (cmp : A -> A -> Z) (y : A) (l : list A) :
  In y (js_sort cmp l) <-> In y l.
Proof.
  induction l as [|x l IH]; simpl; [reflexivity|].
  rewrite sort_insert_In, IH. intuition.
Qed.

Lemma findIndex_from_none {A : Type} (p : A -> bool) (l : list A) (i : Z) :
  (forall x, In x l -> p x = false) -> findIndex_from p l i = (-1)%Z.
Proof.
  revert i. induction l as [|x l IH]; intros i H; simpl; [reflexivity|].
  rewrite (H x) by (left; reflexivity).
  apply IH. intros y Hy. apply H. right. exact Hy.
Qed.

Lemma sort_insert_sorted {A : Type} (key : A -> Z) (x : A) (l : list A) :
  StronglySorted (fun a b => (key a <= key b)%Z) l ->
  StronglySorted (fun a b => (key a <= key b)%Z)
                 (sort_insert (fun a b => (key a - key b)%Z) x l).
Proof.
  induction 1 as [|y l Hl IH Hy]; simpl.
  - constructor; constructor.
  - destruct (key x - key y <=? 0)%Z eqn:Hxy.
    + apply Z.leb_le in Hxy.
      constructor; [constructor; assumption|].
      constructor; [lia|].
      rewrite List.Forall_forall in Hy. apply List.Forall_forall.
      intros z Hz. specialize (Hy z Hz). simpl in Hy. lia.
    + apply Z.leb_gt in Hxy.
      constructor; [exact IH|].
      apply List.Forall_forall. intros z Hz.
      apply sort_insert_In in Hz as [->|Hz]; [lia|].
      rewrite List.Forall_forall in Hy. apply Hy. exact Hz.
Qed.

Lemma StronglySorted_tail {A : Type} (R : A -> A -> Prop) (l1 l2 : list A) :
  StronglySorted R (l1 ++ l2) -> StronglySorted R l2.
Proof.
  induction l1 as [|x l1 IH]; simpl; [auto|].
  intros H. apply StronglySorted_inv in H as [H _]. apply IH. exact H.
Qed.

(** A sort by the difference of a key leaves the keys in ascending order. *)
Lemma js_sort_sorted {A : Type} (key : A -> Z) (l : list A) :
  StronglySorted (fun a b => (key a <= key b)%Z)
                 (js_sort (fun a b => (key a - key b)%Z) l).
Proof.
  induction l as [|x l IH]; simpl; [constructor|].
  apply sort_insert_sorted. exact IH.
Qed.

Lemma indexOf_from_unlisted (l : list string) (x : string) (i : Z) :
  includes l x = false -> indexOf_from l x i = (-1)%Z.
Proof.
  revert i. unfold includes.
  induction l as [|y l IH]; intros i; simpl; [reflexivity|].
  rewrite String.eqb_sym.
  destruct (String.eqb y x); simpl; [discriminate|]. apply IH.
Qed.

Lemma indexOf_from_listed (l : list string) (x : string) (i : Z) :
  includes l x = true -> (i <= indexOf_from l x i)%Z.
Proof.
  revert i. unfold includes.
  induction l as [|y l IH]; intros i; simpl; [discriminate|].
  rewrite String.eqb_sym.
  destruct (String.eqb y x); simpl; [lia|].
  intros H. specialize (IH (i + 1)%Z H). lia.
Qed.

(** ** findPreviousVersion *)

Section FindPreviousVersion.

Variable coerce : bool -> string -> option Semver.SemVer.

Lemma coerce_all_uncoercible (versions : list string) (v : string) :
  In v versions -> coerce true v = None -> coerce_all coerce versions = Throw TypeError.
Proof.
  unfold coerce_all.
  induction versions as [|x versions IH]; intros Hin Hnone; [destruct Hin|].
  simpl. destruct (coerce true x) eqn:Hx; simpl.
  - destruct Hin as [->|Hin]; [congruence|].
    rewrite (IH Hin Hnone). reflexivity.
  - reflexivity.
Qed.

(** C1, as the code has it: an entry of [versions] that does not coerce makes
    a well-formed call of [findPreviousVersion] throw a [TypeError]; the entry
    is not discarded. *)
Theorem findPreviousVersion_uncoercible_entry
        (versions : list string) (versionToFind type v : string) :
  includes ["MAJOR"; "MINOR"; "PATCH"] (toUpperCase type) = true ->
  coerce true versionToFind <> None ->
  In v versions ->
  coerce true v = None ->
  findPreviousVersion coerce versions versionToFind type = Throw TypeError.
Proof.
  intros Htype Htarget Hin Hnone.
  unfold findPreviousVersion. rewrite Htype. simpl.
  destruct (coerce true versionToFind) as [t|]; [|congruence].
  rewrite (coerce_all_uncoercible versions v Hin Hnone). reflexivity.
Qed.

(** C5, as the code has it: at PATCH granularity a target that equals none of
    the coerced versions yields [undefined], where the claim has [null]. *)
Theorem findPreviousVersion_patch_not_found
        (versions : list string) (versionToFind : string)
        (t : Semver.SemVer) (coerced : list Semver.SemVer) :
  coerce true versionToFind = Some t ->
  coerce_all coerce versions = Ok coerced ->
  (forall v, In v coerced -> Semver.eq v t = false) ->
  findPreviousVersion coerce versions versionToFind "PATCH" = Ok Undefined.
Proof.
  intros Ht Hall Hnone.
  unfold findPreviousVersion. simpl. rewrite Ht.
  rewrite Hall. simpl.
  unfold findIndex. rewrite findIndex_from_none; [reflexivity|].
  intros x Hx. apply Hnone.
  apply js_sort_In in Hx. apply filter_In in Hx. tauto.
Qed.

End FindPreviousVersion.

(** The failing call of C1. *)
Lemma findPreviousVersion_uncoercible_entry_witness :
  findPreviousVersion Semver.coerce ["not-a-version"; "1.0.0"] "1.0.0" "PATCH"
  = Throw TypeError.
Proof.
  apply (findPreviousVersion_uncoercible_entry Semver.coerce
           ["not-a-version"; "1.0.0"] "1.0.0" "PATCH" "not-a-version").
  - reflexivity.
  - discriminate.
  - left. reflexivity.
  - reflexivity.
Defined.

(** The failing call of C5. *)
Lemma findPreviousVersion_patch_not_found_witness :
  findPreviousVersion Semver.coerce ["0.0.1"] "0.0.2" "PATCH" = Ok Undefined.
Proof.
  apply (findPreviousVersion_patch_not_found Semver.coerce ["0.0.1"] "0.0.2"
           (Semver.mkSemVer 0 0 2 []) [Semver.mkSemVer 0 0 1 []]).
  - reflexivity.
  - reflexivity.
  - intros v [<-|[]]. reflexivity.
Defined.

(** The examples of the specification at PATCH granularity. *)
Example findPreviousVersion_patch_predecessor :
  findPreviousVersion Semver.coerce ["0.0.0"; "0.0.1"; "0.0.2"; "0.1.0"] "0.1.0" "PATCH"
  = Ok (Str "0.0.2").
Proof. reflexivity. Qed.

Example findPreviousVersion_patch_first :
  findPreviousVersion Semver.coerce ["0.0.0"; "0.0.1"; "0.0.2"; "0.1.0"] "0.0.0" "PATCH"
  = Ok Null.
Proof. reflexivity. Qed.

(** ** getNotices *)

Lemma filter_notes_literal (s : string) (notes : list Note.t) :
  str_startsWith "/" s && str_endsWith "/" s = false ->
  filter_notes (Literal s) notes
  = Ok (List.filter (fun note => String.eqb (Note.title note) s) notes).
Proof.
  intros Hs. induction notes as [|note notes IH]; simpl; [reflexivity|].
  rewrite Hs. simpl. rewrite IH. simpl.
  destruct (String.eqb (Note.title note) s); reflexivity.
Qed.

(** C3, as the code has it: with a [RegExp] for [check], the default
    breaking-change pattern included, [getNotices] throws a [TypeError] as
    soon as the commit has a note. *)
Theorem getNotices_pattern_check_throws
        (commit : Commit.t) (label : string) (r : RegExp.regex) (breakingLabel : string)
        (note : Note.t) (notes : list Note.t) :
  Commit.notes commit = Some (note :: notes) ->
  getNotices commit label (Some (Pattern r)) breakingLabel = Throw TypeError.
Proof.
  intros Hnotes. unfold getNotices. rewrite Hnotes. reflexivity.
Qed.

(** The failing call of C3: the default check of [buildChangelog] against a
    commit with a breaking-change note. *)
Lemma getNotices_pattern_check_throws_witness :
  getNotices (noted "BREAKING CHANGE" "the option is renamed") "BREAKING CHANGES"
             (Some (Pattern breaking_pattern)) "BREAKING CHANGE"
  = Throw TypeError.
Proof.
  apply (getNotices_pattern_check_throws
           (noted "BREAKING CHANGE" "the option is renamed") "BREAKING CHANGES"
           breaking_pattern "BREAKING CHANGE"
           (Note.make "BREAKING CHANGE" "the option is renamed") []).
  reflexivity.
Defined.

(** C6 fails as stated: a string check written between slashes is compiled
    to a pattern, and a note whose title merely contains the pattern is
    collected although the title differs from the check. *)
Lemma getNotices_slash_check_is_pattern :
  String.eqb "a/x/b" "/x/" = false
  /\ getNotices (noted "a/x/b" "collected") "NOTES" (Some (Literal "/x/")) "BREAKING CHANGE"
     = Ok ["collected"].
Proof. split; reflexivity. Qed.

(** C6, amended: for a string check that is not written between slashes, the
    notes collected are exactly the ones whose title equals the check, in
    order; without any, the breaking-change fallback decides. *)
Theorem getNotices_literal_check
        (commit : Commit.t) (label s breakingLabel : string) :
  str_startsWith "/" s && str_endsWith "/" s = false ->
  getNotices commit label (Some (Literal s)) breakingLabel
  = Ok (let found :=
          map Note.text
              (List.filter (fun note => String.eqb (Note.title note) s)
                           (default [] (Commit.notes commit))) in
        if negb (List.length found =? 0)%nat then found
        else if String.eqb label breakingLabel && truthy (Commit.breaking commit)
             then [template (Commit.breaking commit)]
             else []).
Proof.
  intros Hs. unfold getNotices.
  destruct (Commit.notes commit) as [notes|]; simpl.
  - rewrite (filter_notes_literal s notes Hs). simpl.
    destruct (negb (List.length _ =? 0)%nat); [reflexivity|].
    destruct (String.eqb label breakingLabel && truthy (Commit.breaking commit));
      reflexivity.
  - destruct (String.eqb label breakingLabel && truthy (Commit.breaking commit));
      reflexivity.
Qed.

Lemma getNotices_literal_check_witness :
  getNotices (noted "BREAKING CHANGE" "the option is renamed") "BREAKING CHANGES"
             (Some (Literal "BREAKING CHANGE")) "BREAKING CHANGE"
  = Ok ["the option is renamed"].
Proof.
  apply (getNotices_literal_check
           (noted "BREAKING CHANGE" "the option is renamed") "BREAKING CHANGES"
           "BREAKING CHANGE" "BREAKING CHANGE").
  reflexivity.
Defined.

(** ** getMessageType *)

Lemma switch_true_cons {A : Type} (labels : list bool) (r : A)
      (cases : list (list bool * A)) :
  switch_true ((labels, r) :: cases)
  = if existsb (fun b => b) labels then Some r else switch_true cases.
Proof.
  unfold switch_true. simpl. destruct (existsb _ labels); reflexivity.
Qed.

Lemma existsb_map_id {A : Type} (f : A -> bool) (l : list A) :
  existsb (fun b => b) (map f l) = existsb f l.
Proof.
  induction l as [|x l IH]; simpl; [reflexivity|]. rewrite IH. reflexivity.
Qed.

Lemma rules_compile :
  forallb compiles (flat_map fst (Rule.feat_cases ++ Rule.cascade)) = true.
Proof. vm_compute. reflexivity. Qed.

(** C8: with [forceType] equal to ["feat"] the type is ["feat"] and the
    subtype comes from the starts-with checks of the add verbs and of the
    remove verbs alone: ["add"] when an add verb matches, else ["remove"] when
    a remove verb matches, else ["change"]. Neither [semver.valid] nor the
    default type nor another rule of the cascade has a say. *)
Theorem getMessageType_forced_feat
        (valid : string -> bool) (message : string) (defaultType : option MessageType.t) :
  getMessageType valid (Some message) defaultType (Some "feat")
  = Ok (MessageType.make "feat"
          (Some (if existsb (fun expr => startsWith expr message)
                            [ "add(s|ed|ing)?"; "allow(s|ed|ing)?"; "creat(e|es|ed|ing)?";
                              "enabl(e|es|ed|ing)?"; "implement(s|ed|ing)?";
                              "includ(e|es|ed|ing)?"; "incorporat(e|es|ed|ing)?";
                              "install(s|ed|ing)?"; "introduc(e|es|ed|ing)?";
                              "support(s|ed|ing)?" ]
                 then "add"
                 else if existsb (fun expr => startsWith expr message)
                                 [ "delet(e|es|ed|ing)?"; "deprecat(e|es|ed|ing)?";
                                   "disabl(e|es|ed|ing)?"; "remov(e|es|ed|ing)?";
                                   "uninstall(s|ed|ing)?" ]
                      then "remove"
                      else "change"))).
Proof.
  unfold getMessageType, run_switch, Rule.feat_cases.
  cbn [String.eqb Ascii.eqb Bool.eqb map fst snd].
  rewrite !switch_true_cons, !existsb_map_id.
  change (existsb (holds valid message) Rule.feat_add_verbs)
    with (existsb (fun expr => startsWith expr message)
                  [ "add(s|ed|ing)?"; "allow(s|ed|ing)?"; "creat(e|es|ed|ing)?";
                    "enabl(e|es|ed|ing)?"; "implement(s|ed|ing)?";
                    "includ(e|es|ed|ing)?"; "incorporat(e|es|ed|ing)?";
                    "install(s|ed|ing)?"; "introduc(e|es|ed|ing)?";
                    "support(s|ed|ing)?" ]).
  change (existsb (holds valid message) Rule.feat_remove_verbs)
    with (existsb (fun expr => startsWith expr message)
                  [ "delet(e|es|ed|ing)?"; "deprecat(e|es|ed|ing)?";
                    "disabl(e|es|ed|ing)?"; "remov(e|es|ed|ing)?";
                    "uninstall(s|ed|ing)?" ]).
  destruct (existsb _ _); [reflexivity|].
  destruct (existsb _ _); reflexivity.
Qed.

(** The forced classification at work: a verb with its suffix, a word that
    only begins like a verb, and a message the cascade would call a merge. *)
Example getMessageType_forced_feat_examples :
  map (fun m => getMessageType Semver.valid (Some m) None (Some "feat"))
      ["Added login"; "address bug"; "Removes x"; "merge docs"]
  = [Ok (Rule.feat "add"); Ok (Rule.feat "change"); Ok (Rule.feat "remove");
     Ok (Rule.feat "change")].
Proof. vm_compute. reflexivity. Qed.

(** ** getCommits *)

Lemma push_not_inherited {V : Type} (k : string) (items : list V) (o : JsObject.t (list V)) :
  JsObject.inherited k = false -> JsObject.push k items o = Ok (JsObject.append k items o).
Proof.
  intros Hk. unfold JsObject.push, JsObject.read. rewrite Hk.
  destruct (JsObject.get k o); reflexivity.
Qed.

Section GetCommits.

Variable valid : string -> bool.
Variable parse : string -> result Commit.t.

Lemma collect_processed (options : GetCommitsOptions) (pre rest : list string)
      (commits : list Commit.t) (groups : JsObject.t (list Commit.t)) :
  Forall (fun m => m = ""
                   \/ exists c, normalise valid parse options m = Ok c
                                /\ JsObject.inherited (group_key_of c) = false) pre ->
  collect valid parse options (pre ++ rest) commits groups
  = collect valid parse options rest
            (commits ++ processed valid parse options pre)
            (grouped (processed valid parse options pre) groups).
Proof.
  intros Hpre. revert commits groups.
  induction Hpre as [|m pre Hm _ IH]; intros commits groups; simpl.
  - rewrite app_nil_r. reflexivity.
  - destruct (String.eqb m "") eqn:Hempty; simpl.
    + apply IH.
    + destruct Hm as [->|(c & Hc & Hkey)]; [discriminate Hempty|].
      rewrite Hc. unfold push_group. rewrite (push_not_inherited _ _ _ Hkey).
      simpl. rewrite IH. rewrite <- app_assoc. reflexivity.
Qed.

(** C7: when parsing or classifying a message throws, the messages before
    it having gone through the loop body, [getCommits] returns, with exactly
    the commits of the messages before it, and with nothing of the messages
    after it; the exception is logged. A message goes through the loop body
    when it is empty, or is parsed and classified and finds its bucket: the
    key of the bucket must not name a member of [Object.prototype]. *)
Theorem getCommits_aborts_at_exception
        (options : GetCommitsOptions) (pre : list string) (message : string)
        (post : list string) (e : error) :
  Forall (fun m => m = ""
                   \/ exists c, normalise valid parse options m = Ok c
                                /\ JsObject.inherited (group_key_of c) = false) pre ->
  message <> "" ->
  normalise valid parse options message = Throw e ->
  getCommits valid parse (pre ++ message :: post) options
  = {| commits := processed valid parse options pre;
       groups := grouped (processed valid parse options pre) JsObject.empty;
       logged := Some e |}.
Proof.
  intros Hpre Hne Hthrow. unfold getCommits.
  rewrite (collect_processed options pre (message :: post) [] JsObject.empty Hpre).
  simpl. rewrite Hthrow.
  destruct (String.eqb message "") eqn:Hempty.
  - apply String.eqb_eq in Hempty. contradiction.
  - reflexivity.
Qed.

End GetCommits.

(** A blank message between two well-formed ones: the parser refuses it, and
    the third message is lost. *)
Lemma getCommits_aborts_at_exception_witness :
  getCommits Semver.valid HeaderParser.parse ["fix: a bug"; " "; "feat: add b"] default_options
  = {| commits := processed Semver.valid HeaderParser.parse default_options ["fix: a bug"];
       groups := grouped (processed Semver.valid HeaderParser.parse default_options
                                    ["fix: a bug"]) JsObject.empty;
       logged := Some TypeError |}.
Proof.
  apply (getCommits_aborts_at_exception Semver.valid HeaderParser.parse default_options
           ["fix: a bug"] " " ["feat: add b"] TypeError).
  - constructor; [|constructor]. right. eexists. split; vm_compute; reflexivity.
  - discriminate.
  - reflexivity.
Defined.

(** C2, as the code has it: [indexOf] answers [-1] for a key that is not in
    [validTypes], so that key sorts before the listed ones. The bucket of
    ["feat_add"], seen second and not listed, comes out before ["fix"]. *)
Theorem getCommits_unlisted_key_first :
  JsObject.keys
    (groups (getCommits Semver.valid HeaderParser.parse ["fix: a bug"; "feat: add b"]
                        default_options))
  = ["feat_add"; "fix"].
Proof. vm_compute. reflexivity. Qed.

(** In general: in the order the buckets are rebuilt in, a key that is not
    listed in [validTypes] never follows a listed one. *)
Lemma getCommits_sort_unlisted_first
      (options : GetCommitsOptions) (entries : list (string * list Commit.t))
      (before after : list (string * list Commit.t)) (a b : string * list Commit.t) :
  js_sort (by_validTypes options) entries = before ++ a :: after ->
  In b after ->
  includes (options_validTypes options) (fst a) = true ->
  includes (options_validTypes options) (fst b) = true.
Proof.
  intros Hsort Hb Ha.
  pose proof (js_sort_sorted (fun e : string * list Commit.t =>
                                indexOf (options_validTypes options) (fst e)) entries) as H.
  change (js_sort _ entries) with (js_sort (by_validTypes options) entries) in H.
  rewrite Hsort in H.
  apply StronglySorted_tail in H.
  apply StronglySorted_inv in H as [_ H].
  rewrite List.Forall_forall in H. specialize (H b Hb). simpl in H.
  destruct (includes (options_validTypes options) (fst b)) eqn:Hlisted; [reflexivity|].
  unfold indexOf in H.
  rewrite (indexOf_from_unlisted _ _ 0%Z Hlisted) in H.
  pose proof (indexOf_from_listed _ _ 0%Z Ha). lia.
Qed.

(** ** buildChangelog *)

Section BuildChangelog.

Variable coerce : bool -> string -> option Semver.SemVer.

Lemma or_default_default {A : Type} (x : option A) (d : A) :
  or_default x d = Some (default d x).
Proof. destruct x; reflexivity. Qed.

Lemma set_defaults_caller (l : loc) (h : heap) :
  set_defaults (Some l) h
  = (l, let o := read_options h l in
        let n := notice_target h o in
        {| options_at := <[l := filled_options o n]> (options_at h);
           notice_at := <[n := filled_notice (read_notice h n)]> (notice_at h) |}).
Proof.
  unfold set_defaults, notice_target, filled_options, filled_notice.
  rewrite !or_default_default.
  destruct (Options.notice (read_options h l)) as [n|] eqn:Hn; simpl.
  - unfold write_notice, write_options, read_notice; simpl.
    rewrite !or_default_default. reflexivity.
  - unfold write_notice, write_options, read_notice; simpl.
    rewrite !or_default_default.
    rewrite lookup_insert_eq. simpl.
    rewrite insert_insert_eq.
    assert (notice_at h !! fresh (dom (notice_at h)) = None) as ->.
    { apply not_elem_of_dom. apply is_fresh. }
    reflexivity.
Qed.

Lemma settings_onlyFirst (l : loc) (h : heap) :
  onlyFirst (settings_of (snd (set_defaults (Some l) h)) (fst (set_defaults (Some l) h)))
  = default false (Options.onlyFirst (read_options h l)).
Proof.
  rewrite set_defaults_caller. simpl.
  unfold settings_of, read_options at 1. simpl.
  rewrite lookup_insert_eq. reflexivity.
Qed.

Lemma settings_onlyBody (l : loc) (h : heap) :
  onlyBody (settings_of (snd (set_defaults (Some l) h)) (fst (set_defaults (Some l) h)))
  = default false (Options.onlyBody (read_options h l)).
Proof.
  rewrite set_defaults_caller. simpl.
  unfold settings_of, read_options at 1. simpl.
  rewrite lookup_insert_eq. reflexivity.
Qed.

Lemma render_onlyFirst (o : Settings) (entry : string * Release.t)
      (rest : list (string * Release.t)) (lines : list string) :
  onlyFirst o = true ->
  render coerce o (entry :: rest) lines = render coerce o [entry] lines.
Proof.
  intros Ho. destruct entry as [version release]. simpl.
  destruct (Release.commits release) as [buckets|]; [|reflexivity].
  destruct (negb (List.length (JsObject.keys buckets) =? 0)%nat); simpl.
  - destruct (release_lines coerce o version release buckets); simpl; [|reflexivity].
    rewrite Ho. reflexivity.
  - rewrite Ho. reflexivity.
Qed.

Lemma buildChangelog_unfold (releases : list (string * Release.t)) (l : loc) (h : heap) :
  buildChangelog coerce releases (Some l) h
  = (snd (set_defaults (Some l) h),
     let o := settings_of (snd (set_defaults (Some l) h)) (fst (set_defaults (Some l) h)) in
     render coerce o releases (if onlyBody o then [] else ["# Changelog"; ""])).
Proof.
  unfold buildChangelog. destruct (set_defaults (Some l) h) as [l' h']. reflexivity.
Qed.

(** C4, amended: with [onlyFirst] set the loop ends after the first release
    of the map, emitted or not. The result is the one for the map reduced to
    its first release, and a first release without commit bucket leaves the
    title alone. *)
Theorem buildChangelog_onlyFirst
        (version : string) (release : Release.t) (rest : list (string * Release.t))
        (l : loc) (h : heap) :
  Options.onlyFirst (read_options h l) = Some true ->
  buildChangelog coerce ((version, release) :: rest) (Some l) h
  = buildChangelog coerce [(version, release)] (Some l) h
  /\ (Release.commits release = Some JsObject.empty ->
      snd (buildChangelog coerce ((version, release) :: rest) (Some l) h)
      = Ok (if default false (Options.onlyBody (read_options h l))
            then [] else ["# Changelog"; ""])).
Proof.
  intros Hfirst.
  assert (onlyFirst (settings_of (snd (set_defaults (Some l) h))
                                 (fst (set_defaults (Some l) h))) = true) as Ho.
  { rewrite settings_onlyFirst, Hfirst. reflexivity. }
  split.
  - rewrite !buildChangelog_unfold. cbv zeta.
    rewrite (render_onlyFirst _ (version, release) rest _ Ho). reflexivity.
  - intros Hempty. rewrite buildChangelog_unfold. cbv zeta.
    rewrite settings_onlyBody.
    set (o := settings_of _ _) in *. clearbody o.
    cbn [snd render]. rewrite Hempty. cbn. rewrite Ho. reflexivity.
Qed.

(** C10: the defaults are written to the object the caller passed. After
    the call that object holds, for every field, the caller's value or the
    default; its [notice] object, the caller's own when there was one, is
    filled likewise; no other object changes. *)
Theorem buildChangelog_fills_caller_options
        (releases : list (string * Release.t)) (l : loc) (h : heap) (o : Options.t) :
  options_at h !! l = Some o ->
  let h' := fst (buildChangelog coerce releases (Some l) h) in
  let n := notice_target h o in
  options_at h' !! l = Some (filled_options o n)
  /\ notice_at h' !! n = Some (filled_notice (read_notice h n))
  /\ (forall l', l' <> l -> options_at h' !! l' = options_at h !! l')
  /\ (forall n', n' <> n -> notice_at h' !! n' = notice_at h !! n').
Proof.
  intros Ho h' n. subst h' n.
  rewrite buildChangelog_unfold, set_defaults_caller. simpl.
  unfold read_options. rewrite Ho. simpl.
  repeat split.
  - apply lookup_insert_eq.
  - apply lookup_insert_eq.
  - intros l' Hl'. apply lookup_insert_ne. congruence.
  - intros n' Hn'. apply lookup_insert_ne. congruence.
Qed.

End BuildChangelog.

(** C4 fails as stated: with [onlyFirst] set and a first release without
    commit bucket, the run ends there. The sections of the next release,
    which has a bucket, are not in the output. *)
Lemma buildChangelog_onlyFirst_ends_at_empty_release :
  snd (buildChangelog Semver.coerce [("2.0.0", empty_release); ("1.0.0", fix_release)]
                      (Some 0%nat) caller_heap)
  = Ok ["# Changelog"; ""]
  /\ snd (buildChangelog Semver.coerce [("1.0.0", fix_release)] (Some 0%nat) caller_heap)
     = Ok ["# Changelog"; ""; ""; "## 1.0.0"; ""; "### Fixed"; ""; "- a bug"; ""].
Proof. split; vm_compute; reflexivity. Qed.

Lemma buildChangelog_onlyFirst_witness :
  buildChangelog Semver.coerce [("2.0.0", empty_release); ("1.0.0", fix_release)]
                 (Some 0%nat) caller_heap
  = buildChangelog Semver.coerce [("2.0.0", empty_release)] (Some 0%nat) caller_heap
  /\ snd (buildChangelog Semver.coerce [("2.0.0", empty_release); ("1.0.0", fix_release)]
                         (Some 0%nat) caller_heap)
     = Ok ["# Changelog"; ""].
Proof.
  destruct (buildChangelog_onlyFirst Semver.coerce "2.0.0" empty_release
              [("1.0.0", fix_release)] 0%nat caller_heap) as [Hsame Htitle].
  - reflexivity.
  - split; [exact Hsame|]. apply Htitle. reflexivity.
Defined.

(** The caller's object at location [0] after a call: every field is set,
    [onlyFirst] keeps the caller's value, and the new notice object is
    filled too. *)
Lemma buildChangelog_fills_caller_options_witness :
  options_at (fst (buildChangelog Semver.coerce [("1.0.0", fix_release)]
                                  (Some 0%nat) caller_heap)) !! 0%nat
  = Some (Options.make (Some true) (Some true) (Some false) (Some default_types)
                       (Some 0%nat))
  /\ notice_at (fst (buildChangelog Semver.coerce [("1.0.0", fix_release)]
                                    (Some 0%nat) caller_heap)) !! 0%nat
     = Some (NoticeOptions.make (Some default_keys) (Some false) (Some true)).
Proof.
  destruct (buildChangelog_fills_caller_options Semver.coerce [("1.0.0", fix_release)]
              0%nat caller_heap (Options.make None (Some true) None None None))
    as [Hoptions [Hnotice _]].
  - reflexivity.
  - split; [exact Hoptions | exact Hnotice].
Defined.

(** ** Plain objects *)

Section JsObjectFacts.

Context {V : Type}.

Lemma get_replace_eq (k : string) (v : V) (o : JsObject.t V) :
  JsObject.get k o <> None -> JsObject.get k (JsObject.replace k v o) = Some v.
Proof.
  induction o as [|[k' v'] o IH]; simpl; [congruence|].
  destruct (String.eqb k' k) eqn:Hk; simpl; rewrite Hk; auto.
Qed.

Lemma get_replace_ne (k k' : string) (v : V) (o : JsObject.t V) :
  k <> k' -> JsObject.get k' (JsObject.replace k v o) = JsObject.get k' o.
Proof.
  intros Hne. induction o as [|[k0 v0] o IH]; simpl; [reflexivity|].
  destruct (String.eqb k0 k) eqn:Hk; simpl.
  - apply String.eqb_eq in Hk. subst k0.
    apply String.eqb_neq in Hne. rewrite Hne. reflexivity.
  - rewrite IH. reflexivity.
Qed.

Lemma keys_replace (k : string) (v : V) (o : JsObject.t V) :
  JsObject.keys (JsObject.replace k v o) = JsObject.keys o.
Proof.
  unfold JsObject.keys.
  induction o as [|[k0 v0] o IH]; simpl; [reflexivity|].
  destruct (String.eqb k0 k); simpl; [reflexivity|].
  rewrite IH. reflexivity.
Qed.

Lemma get_add_index_eq (n : N) (k : string) (v : V) (o : JsObject.t V) :
  JsObject.get k o = None -> JsObject.get k (JsObject.add_index n k v o) = Some v.
Proof.
  induction o as [|[k0 v0] o IH]; simpl; intros Hnone.
  - rewrite String.eqb_refl. reflexivity.
  - destruct (String.eqb k0 k) eqn:Hk; [discriminate|].
    destruct (JsObject.array_index k0) as [n0|]; [destruct (n0 <? n)%N|]; simpl.
    + rewrite Hk. auto.
    + rewrite String.eqb_refl. reflexivity.
    + rewrite String.eqb_refl. reflexivity.
Qed.

Lemma get_add_index_ne (n : N) (k k' : string) (v : V) (o : JsObject.t V) :
  k <> k' -> JsObject.get k' (JsObject.add_index n k v o) = JsObject.get k' o.
Proof.
  intros Hne. apply String.eqb_neq in Hne.
  induction o as [|[k0 v0] o IH]; simpl.
  - rewrite Hne. reflexivity.
  - destruct (JsObject.array_index k0) as [n0|]; [destruct (n0 <? n)%N|]; simpl.
    + rewrite IH. reflexivity.
    + rewrite Hne. reflexivity.
    + rewrite Hne. reflexivity.
Qed.

Lemma keys_add_index (n : N) (k k' : string) (v : V) (o : JsObject.t V) :
  In k' (JsObject.keys (JsObject.add_index n k v o)) <-> k' = k \/ In k' (JsObject.keys o).
Proof.
  unfold JsObject.keys.
  induction o as [|[k0 v0] o IH]; simpl.
  - intuition.
  - destruct (JsObject.array_index k0) as [n0|]; [destruct (n0 <? n)%N|]; simpl.
    + rewrite IH. intuition.
    + intuition.
    + intuition.
Qed.

Lemma get_app_eq (k : string) (v : V) (o : JsObject.t V) :
  JsObject.get k o = None -> JsObject.get k (o ++ [(k, v)]) = Some v.
Proof.
  induction o as [|[k0 v0] o IH]; simpl; intros Hnone.
  - rewrite String.eqb_refl. reflexivity.
  - destruct (String.eqb k0 k); [discriminate|]. auto.
Qed.

Lemma get_app_ne (k k' : string) (v : V) (o : JsObject.t V) :
  k <> k' -> JsObject.get k' (o ++ [(k, v)]) = JsObject.get k' o.
Proof.
  intros Hne. apply String.eqb_neq in Hne.
  induction o as [|[k0 v0] o IH]; simpl.
  - rewrite Hne. reflexivity.
  - rewrite IH. reflexivity.
Qed.

Lemma get_keys (k : string) (o : JsObject.t V) :
  JsObject.get k o <> None <-> In k (JsObject.keys o).
Proof.
  unfold JsObject.keys.
  induction o as [|[k0 v0] o IH]; simpl.
  - intuition.
  - destruct (String.eqb k0 k) eqn:Hk.
    + apply String.eqb_eq in Hk. intuition congruence.
    + apply String.eqb_neq in Hk. rewrite IH. intuition.
Qed.

Lemma get_set_eq (k : string) (v : V) (o : JsObject.t V) :
  JsObject.get k (JsObject.set k v o) = Some v.
Proof.
  unfold JsObject.set, JsObject.has.
  destruct (JsObject.get k o) eqn:Hget.
  - apply get_replace_eq. congruence.
  - destruct (JsObject.array_index k).
    + apply get_add_index_eq. exact Hget.
    + apply get_app_eq. exact Hget.
Qed.

Lemma get_set_ne (k k' : string) (v : V) (o : JsObject.t V) :
  k <> k' -> JsObject.get k' (JsObject.set k v o) = JsObject.get k' o.
Proof.
  intros Hne. unfold JsObject.set.
  destruct (JsObject.has k o).
  - apply get_replace_ne. exact Hne.
  - destruct (JsObject.array_index k).
    + apply get_add_index_ne. exact Hne.
    + apply get_app_ne. exact Hne.
Qed.

Lemma keys_set (k k' : string) (v : V) (o : JsObject.t V) :
  In k' (JsObject.keys (JsObject.set k v o)) <-> k' = k \/ In k' (JsObject.keys o).
Proof.
  unfold JsObject.set, JsObject.has.
  destruct (JsObject.get k o) eqn:Hget.
  - rewrite keys_replace. split; [auto|].
    intros [->|H]; [|exact H]. apply get_keys. congruence.
  - destruct (JsObject.array_index k).
    + apply keys_add_index.
    + unfold JsObject.keys. rewrite map_app, in_app_iff. simpl. intuition.
Qed.

End JsObjectFacts.

(** ** groupReleases *)

Lemma chars_app (a b : string) : chars (a +:+ b) = chars a ++ chars b.
Proof.
  unfold chars. induction a as [|x a IH]; simpl; [reflexivity|].
  rewrite IH. reflexivity.
Qed.

Lemma split_acc_last (sep : ascii) (a cur : list ascii) :
  forallb (fun x => negb (Ascii.eqb x sep)) a = true ->
  split_acc sep a cur = [string_of_list_ascii (rev cur ++ a)].
Proof.
  revert cur. induction a as [|x a IH]; intros cur Ha; simpl.
  - rewrite app_nil_r. reflexivity.
  - simpl in Ha. apply andb_true_iff in Ha as [Hx Ha].
    apply negb_true_iff in Hx. rewrite Hx.
    rewrite (IH (x :: cur) Ha). simpl. rewrite <- app_assoc. reflexivity.
Qed.

Lemma split_acc_segment (sep : ascii) (a rest cur : list ascii) :
  forallb (fun x => negb (Ascii.eqb x sep)) a = true ->
  split_acc sep (a ++ sep :: rest) cur
  = string_of_list_ascii (rev cur ++ a) :: split_acc sep rest [].
Proof.
  revert cur. induction a as [|x a IH]; intros cur Ha; simpl.
  - rewrite Ascii.eqb_refl, app_nil_r. reflexivity.
  - simpl in Ha. apply andb_true_iff in Ha as [Hx Ha].
    apply negb_true_iff in Hx. rewrite Hx.
    rewrite (IH (x :: cur) Ha). simpl. rewrite <- app_assoc. reflexivity.
Qed.

Lemma string_of_uint_no_dot (d : Decimal.uint) :
  forallb (fun x => negb (Ascii.eqb x "."%char)) (chars (NilEmpty.string_of_uint d)) = true.
Proof.
  induction d; simpl; auto.
Qed.

Lemma N_to_string_no_dot (n : N) :
  forallb (fun x => negb (Ascii.eqb x "."%char)) (chars (N_to_string n)) = true.
Proof. apply string_of_uint_no_dot. Qed.

Lemma split_three (a b c : N) :
  split "."%char (N_to_string a +:+ "." +:+ N_to_string b +:+ "." +:+ N_to_string c +:+ "")
  = [N_to_string a; N_to_string b; N_to_string c].
Proof.
  unfold split. rewrite !chars_app. simpl.
  rewrite split_acc_segment by apply N_to_string_no_dot.
  rewrite split_acc_segment by apply N_to_string_no_dot.
  rewrite app_nil_r.
  rewrite split_acc_last by apply N_to_string_no_dot.
  simpl. unfold chars. rewrite !string_of_list_ascii_of_string. reflexivity.
Qed.

Section GroupReleases.

Variable coerce : bool -> string -> option Semver.SemVer.
Variable groupBy : string.

Lemma group_of_uncoercible (version : string) :
  coerce false version = None -> group_of coerce groupBy version = None.
Proof.
  intros Hnone. unfold group_of. rewrite Hnone. reflexivity.
Qed.

Lemma group_of_coerced (version : string) (v : Semver.SemVer) :
  coerce false version = Some v ->
  Semver.prerelease v = [] ->
  group_of coerce groupBy version
  = Some (if String.eqb (toLowerCase groupBy) "major"
          then N_to_string (Semver.major v)
          else N_to_string (Semver.major v) +:+ "." +:+ N_to_string (Semver.minor v)).
Proof.
  intros Hv Hpre. unfold group_of. rewrite Hv.
  unfold Semver.version. rewrite Hpre, split_three. simpl.
  destruct (String.eqb (toLowerCase groupBy) "major"); reflexivity.
Qed.

(** The key of a bucket starts with a digit: it names no member of
    [Object.prototype]. *)

Lemma N_to_string_digit (n : N) :
  exists c s, N_to_string n = String c s /\ is_digit c = true.
Proof.
  unfold N_to_string. destruct n as [|p]; simpl.
  - eexists _, _. split; reflexivity.
  - pose proof (DecimalPos.Unsigned.to_uint_nonnil p) as Hnil.
    destruct (Pos.to_uint p); [contradiction| | | | | | | | | |];
      simpl; eexists _, _; split; reflexivity.
Qed.

Lemma digit_not_inherited (c : ascii) (s : string) :
  is_digit c = true -> JsObject.inherited (String c s) = false.
Proof.
  destruct c as [[] [] [] [] [] [] [] []]; intros H; try discriminate H; reflexivity.
Qed.

Lemma group_of_not_inherited (version group : string) :
  group_of coerce groupBy version = Some group -> JsObject.inherited group = false.
Proof.
  unfold group_of.
  destruct (coerce false version) as [v|]; [|discriminate].
  unfold Semver.version.
  destruct (N_to_string_digit (Semver.major v)) as (c & s & Hmajor & Hc).
  set (rest := N_to_string (Semver.minor v) +:+ _).
  unfold split. rewrite chars_app.
  change (chars ("." +:+ rest)) with ("."%char :: chars rest).
  rewrite split_acc_segment by apply N_to_string_no_dot.
  cbn [rev app].
  unfold chars at 1. rewrite string_of_list_ascii_of_string.
  destruct (split_acc "." (chars rest) []) as [|p1 [|p2 [|p3 parts]]]; try discriminate.
  cbn [List.length Nat.eqb negb removelast]. rewrite Hmajor.
  destruct (String.eqb (toLowerCase groupBy) "major"); simpl; intros H; inversion H;
    apply digit_not_inherited; exact Hc.
Qed.

(** The first loop, as long as no type key names a member of
    [Object.prototype]. *)

Lemma push_clean {V : Type} (k : string) (items : list V) (o : JsObject.t (list V)) :
  clean o ->
  JsObject.push k items o
  = if JsObject.inherited k then Throw TypeError else Ok (JsObject.append k items o).
Proof.
  intros Ho. unfold JsObject.push, JsObject.read.
  destruct (JsObject.get k o) eqn:Hget.
  - rewrite (Ho k); [reflexivity|]. apply get_keys. congruence.
  - destruct (JsObject.inherited k); reflexivity.
Qed.

Lemma append_clean {V : Type} (k : string) (items : list V) (o : JsObject.t (list V)) :
  clean o -> JsObject.inherited k = false -> clean (JsObject.append k items o).
Proof.
  intros Ho Hk k' Hin. unfold JsObject.append in Hin.
  apply keys_set in Hin as [->|Hin]; [exact Hk|apply Ho; exact Hin].
Qed.

Lemma foldM_add_commits (entries : list (string * list Commit.t))
      (commits : JsObject.t (list Commit.t)) :
  clean commits ->
  foldM add_commits entries commits
  = if existsb JsObject.inherited (JsObject.keys entries) then Throw TypeError
    else Ok (merged entries commits).
Proof.
  revert commits. induction entries as [|[k l] entries IH]; intros commits Hclean.
  - reflexivity.
  - cbn [foldM JsObject.keys map existsb fst]. unfold add_commits at 1. cbn [fst snd].
    rewrite (push_clean k l commits Hclean).
    destruct (JsObject.inherited k) eqn:Hk; [reflexivity|].
    cbn [bind orb]. apply IH. apply append_clean; assumption.
Qed.

Lemma merged_clean (entries : list (string * list Commit.t))
      (commits : JsObject.t (list Commit.t)) :
  clean commits ->
  existsb JsObject.inherited (JsObject.keys entries) = false ->
  clean (merged entries commits).
Proof.
  revert commits. induction entries as [|[k l] entries IH]; intros commits Hclean Hkeys.
  - exact Hclean.
  - cbn [JsObject.keys map existsb fst] in Hkeys. apply orb_false_iff in Hkeys as [Hk Hkeys].
    unfold merged. cbn [fold_left fst snd]. apply IH; [|exact Hkeys].
    apply append_clean; assumption.
Qed.

Lemma clean_empty {V : Type} : clean (JsObject.empty : JsObject.t V).
Proof. intros k []. Qed.

Lemma clean_bucket (groups : JsObject.t Group.t) (group : string) :
  clean_groups groups ->
  clean (Group.commits (default (Group.make group [] [] [] JsObject.empty)
                                (JsObject.get group groups))).
Proof.
  intros Hgroups. destruct (JsObject.get group groups) as [g|] eqn:Hget.
  - apply (Hgroups group g Hget).
  - apply clean_empty.
Qed.

Lemma add_release_put (groups : JsObject.t Group.t) (entry : string * Release.t) :
  clean_groups groups ->
  add_release coerce groupBy groups entry
  = if match group_of coerce groupBy (fst entry) with
       | Some _ => inherited_type (snd entry)
       | None => false
       end
    then Throw TypeError
    else Ok (put_release coerce groupBy groups entry).
Proof.
  intros Hgroups. destruct entry as [version release].
  unfold add_release, put_release. cbn [fst snd].
  destruct (group_of coerce groupBy version) as [group|]; [|reflexivity].
  rewrite (foldM_add_commits _ _ (clean_bucket groups group Hgroups)).
  unfold inherited_type, JsObject.entries.
  destruct (existsb JsObject.inherited _); reflexivity.
Qed.

Lemma put_release_clean (groups : JsObject.t Group.t) (entry : string * Release.t) :
  clean_groups groups ->
  match group_of coerce groupBy (fst entry) with
  | Some _ => inherited_type (snd entry)
  | None => false
  end = false ->
  clean_groups (put_release coerce groupBy groups entry).
Proof.
  intros Hgroups Hentry. unfold put_release.
  destruct (group_of coerce groupBy (fst entry)) as [group|]; [|exact Hgroups].
  intros key g. destruct (String.eqb_spec group key) as [->|Hne].
  - rewrite get_set_eq. intros H. inversion H. subst g. cbn [extend Group.commits].
    apply merged_clean; [apply clean_bucket; exact Hgroups|exact Hentry].
  - rewrite (get_set_ne group key) by exact Hne. apply Hgroups.
Qed.

Lemma foldM_add_release (releases : list (string * Release.t)) (groups : JsObject.t Group.t) :
  clean_groups groups ->
  foldM (add_release coerce groupBy) releases groups
  = if poisoned coerce groupBy releases then Throw TypeError
    else Ok (fold_left (put_release coerce groupBy) releases groups).
Proof.
  revert groups. induction releases as [|entry releases IH]; intros groups Hgroups.
  - reflexivity.
  - cbn [foldM poisoned existsb fold_left]. rewrite (add_release_put groups entry Hgroups).
    destruct (match group_of coerce groupBy (fst entry) with
              | Some _ => inherited_type (snd entry)
              | None => false
              end) eqn:Hentry; [reflexivity|].
    cbn [bind orb]. apply IH. apply put_release_clean; assumption.
Qed.

Lemma clean_groups_empty : clean_groups JsObject.empty.
Proof. intros group g H. discriminate H. Qed.

Lemma groupReleases_put (releases : list (string * Release.t)) :
  groupReleases coerce releases groupBy
  = if poisoned coerce groupBy releases then Throw TypeError
    else Ok (map (fun entry => (fst entry, close_group (snd entry)))
                 (fold_left (put_release coerce groupBy) releases JsObject.empty)).
Proof.
  unfold groupReleases. rewrite (foldM_add_release releases _ clean_groups_empty).
  destruct (poisoned coerce groupBy releases); reflexivity.
Qed.

(** C9, as the code has it: a release that goes to a bucket and has a commit
    bucket under a type key that names a member of [Object.prototype] makes
    [groupReleases] throw a [TypeError]; nothing is concatenated. *)
Theorem groupReleases_inherited_type_key_throws
        (releases : list (string * Release.t)) (version : string) (release : Release.t)
        (group type : string) :
  In (version, release) releases ->
  group_of coerce groupBy version = Some group ->
  In type (JsObject.keys (default JsObject.empty (Release.commits release))) ->
  JsObject.inherited type = true ->
  groupReleases coerce releases groupBy = Throw TypeError.
Proof.
  intros Hin Hgroup Htype Hinherited.
  rewrite groupReleases_put.
  assert (poisoned coerce groupBy releases = true) as ->; [|reflexivity].
  apply existsb_exists. exists (version, release). split; [exact Hin|].
  cbn [fst snd]. rewrite Hgroup.
  apply existsb_exists. exists type. split; assumption.
Qed.

(** The rest of C9, for the release maps without such a key. *)

Lemma get_merged (type : string) (entries : list (string * list Commit.t))
      (commits : JsObject.t (list Commit.t)) :
  default [] (JsObject.get type (merged entries commits))
  = default [] (JsObject.get type commits)
    ++ flat_map snd (List.filter (fun entry => String.eqb (fst entry) type) entries).
Proof.
  unfold merged.
  revert commits. induction entries as [|[k l] entries IH]; intros commits; simpl.
  - rewrite app_nil_r. reflexivity.
  - rewrite IH. unfold JsObject.append.
    destruct (String.eqb k type) eqn:Hk.
    + apply String.eqb_eq in Hk. subst k. rewrite get_set_eq. simpl.
      rewrite <- app_assoc. reflexivity.
    + apply String.eqb_neq in Hk. rewrite (get_set_ne k type) by exact Hk. reflexivity.
Qed.

Lemma open_commits_put_release (groups : JsObject.t Group.t) (entry : string * Release.t)
      (group type : string) :
  open_commits (put_release coerce groupBy groups entry) group type
  = open_commits groups group type
    ++ match group_of coerce groupBy (fst entry) with
       | Some g => if String.eqb g group then under type (snd entry) else []
       | None => []
       end.
Proof.
  destruct entry as [version release]. unfold put_release. simpl.
  destruct (group_of coerce groupBy version) as [g|]; [|rewrite app_nil_r; reflexivity].
  destruct (String.eqb g group) eqn:Hg.
  - apply String.eqb_eq in Hg. subst g.
    unfold open_commits. rewrite get_set_eq. cbn [extend Group.commits].
    rewrite get_merged. unfold under.
    destruct (JsObject.get group groups); reflexivity.
  - apply String.eqb_neq in Hg.
    unfold open_commits. rewrite (get_set_ne g group) by exact Hg.
    rewrite app_nil_r. reflexivity.
Qed.

Lemma open_commits_fold (releases : list (string * Release.t)) (groups : JsObject.t Group.t)
      (group type : string) :
  open_commits (fold_left (put_release coerce groupBy) releases groups) group type
  = open_commits groups group type ++ contributions coerce groupBy releases group type.
Proof.
  revert groups.
  induction releases as [|entry releases IH]; intros groups; cbn [fold_left].
  - unfold contributions. simpl. rewrite app_nil_r. reflexivity.
  - rewrite IH, open_commits_put_release, <- app_assoc. reflexivity.
Qed.

Lemma keys_put_release (groups : JsObject.t Group.t) (entry : string * Release.t)
      (group : string) :
  In group (JsObject.keys (put_release coerce groupBy groups entry))
  <-> In group (JsObject.keys groups) \/ group_of coerce groupBy (fst entry) = Some group.
Proof.
  destruct entry as [version release]. unfold put_release. simpl.
  destruct (group_of coerce groupBy version) as [g|].
  - rewrite keys_set. intuition congruence.
  - intuition congruence.
Qed.

Lemma keys_fold (releases : list (string * Release.t)) (groups : JsObject.t Group.t)
      (group : string) :
  In group (JsObject.keys (fold_left (put_release coerce groupBy) releases groups))
  <-> In group (JsObject.keys groups)
      \/ exists version release,
           In (version, release) releases /\ group_of coerce groupBy version = Some group.
Proof.
  revert groups.
  induction releases as [|[version release] releases IH]; intros groups; cbn [fold_left].
  - split; [auto|]. intros [H|(v & r & [] & _)]. exact H.
  - rewrite IH, keys_put_release. cbn [fst]. split.
    + intros [[H|H]|(v & r & Hin & Hg)].
      * left. exact H.
      * right. exists version, release. split; [left; reflexivity|exact H].
      * right. exists v, r. split; [right; exact Hin|exact Hg].
    + intros [H|(v & r & [Heq|Hin] & Hg)].
      * left. left. exact H.
      * inversion Heq. subst. left. right. exact Hg.
      * right. exists v, r. split; [exact Hin|exact Hg].
Qed.

Lemma get_close (groups : JsObject.t Group.t) (group : string) :
  JsObject.get group (map (fun entry => (fst entry, close_group (snd entry))) groups)
  = option_map close_group (JsObject.get group groups).
Proof.
  induction groups as [|[k g] groups IH]; simpl; [reflexivity|].
  destruct (String.eqb k group); [reflexivity|exact IH].
Qed.

(** A release whose tag does not coerce is skipped; a coerced tag goes to
    the bucket named by its major and minor numbers, by its major number
    alone when grouping by major; and, when no type key stops the run, the
    buckets are the ones some release goes to, and under each type key a
    bucket holds the commits of its releases, one release after the other in
    iteration order. *)
Lemma groupReleases_aggregates (releases : list (string * Release.t)) :
  poisoned coerce groupBy releases = false ->
  (forall version, coerce false version = None -> group_of coerce groupBy version = None)
  /\ (forall version v,
        coerce false version = Some v ->
        Semver.prerelease v = [] ->
        group_of coerce groupBy version
        = Some (if String.eqb (toLowerCase groupBy) "major"
                then N_to_string (Semver.major v)
                else N_to_string (Semver.major v) +:+ "." +:+ N_to_string (Semver.minor v)))
  /\ exists buckets,
       groupReleases coerce releases groupBy = Ok buckets
       /\ (forall group,
             In group (JsObject.keys buckets)
             <-> exists version release,
                   In (version, release) releases
                   /\ group_of coerce groupBy version = Some group)
       /\ (forall group type,
             bucket_commits buckets group type
             = contributions coerce groupBy releases group type).
Proof.
  intros Hclean.
  split; [exact group_of_uncoercible|].
  split; [exact group_of_coerced|].
  rewrite groupReleases_put, Hclean. eexists. split; [reflexivity|]. split.
  - intros group. unfold JsObject.keys.
    rewrite map_map. simpl.
    change (map (fun x => fst x) ?l) with (JsObject.keys l).
    rewrite keys_fold. simpl. intuition.
  - intros group type. unfold bucket_commits.
    rewrite get_close.
    pose proof (open_commits_fold releases JsObject.empty group type) as H.
    unfold open_commits in H at 1 2. simpl in H. rewrite <- H.
    destruct (JsObject.get group _); reflexivity.
Qed.

End GroupReleases.

(** The failing call of C9: one release with a bucket of commits typed
    ["constructor"]. *)
Lemma groupReleases_inherited_type_key_throws_witness :
  groupReleases Semver.coerce
    [("1.2.3", Release.make (Some "1.2.3") None None None None None None
                 (Some [("constructor", [titled "constructor" "Rework the builder"])]))]
    "minor"
  = Throw TypeError.
Proof.
  apply (groupReleases_inherited_type_key_throws Semver.coerce "minor" _ "1.2.3"
           (Release.make (Some "1.2.3") None None None None None None
              (Some [("constructor", [titled "constructor" "Rework the builder"])]))
           "1.2" "constructor").
  - left. reflexivity.
  - reflexivity.
  - left. reflexivity.
  - reflexivity.
Defined.

(** The example of the specification, and a tag that does not coerce. *)
Example groupReleases_aggregates_example :
  group_of Semver.coerce "minor" "invalid" = None
  /\ group_of Semver.coerce "minor" "1.2.4" = Some "1.2"
  /\ exists buckets,
       groupReleases Semver.coerce three_releases "minor" = Ok buckets
       /\ JsObject.keys buckets = ["1.2"; "1.3"]
       /\ bucket_commits buckets "1.2" "fix" = [titled "fix" "Fix bug"; titled "fix" "Fix crash"]
       /\ bucket_commits buckets "1.2" "feat" = [titled "feat" "Add feature"]
       /\ bucket_commits buckets "1.3" "feat" = [titled "feat" "Major update"].
Proof.
  split; [reflexivity|]. split; [reflexivity|].
  eexists. split; [vm_compute; reflexivity|].
  repeat split; vm_compute; reflexivity.
Qed.

(** Grouped by major, newest release first: the buckets ["2"] and ["1"] are
    array-index keys, so the object lists them in ascending order. *)
Example groupReleases_by_major_order :
  exists buckets,
    groupReleases Semver.coerce
      [("2.0.0", fix_release); ("1.3.0", fix_release); ("1.2.3", fix_release)] "major"
    = Ok buckets
    /\ JsObject.keys buckets = ["1"; "2"].
Proof. eexists. split; vm_compute; reflexivity. Qed.

(** ** The model against the test suite and the README *)

Example findPreviousVersion_tests :
  map (fun q => findPreviousVersion Semver.coerce test_versions (fst q) (snd q))
      [ ("v0.0.1", "MAJOR"); ("1.2.1", "MAJOR"); ("2.1.2", "MAJOR"); ("3.0.0", "MAJOR");
        ("1.1.2", "MINOR"); ("1.2.2", "MINOR");
        ("0.0.0", "PATCH"); ("1.0.0", "PATCH"); ("2.0.1", "PATCH") ]
  = [ Ok (Str "v0.0.0"); Ok (Str "1.0.0"); Ok (Str "2.0.1"); Ok Null;
      Ok (Str "1.1.2"); Ok (Str "1.2.0");
      Ok Null; Ok (Str "0.2.2"); Ok (Str "1.2.2") ].
Proof. vm_compute. reflexivity. Qed.

Example findPreviousVersion_prerelease_tests :
  map (fun q => findPreviousVersion Semver.coerce
                  ["0.0.0-alpha"; "0.0.0-beta"; "0.0.0"; "1.0.0-alpha"; "1.0.0-beta"; "1.0.0"]
                  (fst q) (snd q))
      [ ("1.0.0", "PATCH"); ("1.0.0-beta", "PATCH"); ("1.0.0-alpha", "PATCH");
        ("1.0.0", "MINOR") ]
  = [ Ok (Str "1.0.0-beta"); Ok (Str "1.0.0-alpha"); Ok (Str "0.0.0"); Ok (Str "1.0.0") ].
Proof. vm_compute. reflexivity. Qed.

Example findPreviousVersion_invalid_arguments :
  findPreviousVersion Semver.coerce test_versions "1.0.0" "INVALID"
  = Throw (Error "Invalid input parameters")
  /\ findPreviousVersion Semver.coerce test_versions "latest" "patch"
     = Throw (Error "Invalid version string").
Proof. split; vm_compute; reflexivity. Qed.

Example getMessageType_cascade_examples :
  map (fun m => getMessageType Semver.valid (Some m) None None)
      [ "bug fix for typo"; "Merge branch dev"; "update readme"; "1.2.3";
        "Added login"; "Removes the cache"; "something else" ]
  = [ Ok (Rule.just "fix"); Ok (Rule.just "merge"); Ok (Rule.just "docs");
      Ok (Rule.just "build"); Ok (Rule.feat "add"); Ok (Rule.feat "remove");
      Ok (Rule.just "other") ].
Proof. vm_compute. reflexivity. Qed.

Example groupReleases_test_names :
  exists buckets,
    groupReleases Semver.coerce three_releases "minor" = Ok buckets
    /\ JsObject.get "1.2" buckets
       = Some (Release.make (Some "1.2") (Some "Release 1, Release 2")
                            (Some "2023-01-01, 2023-01-15") None None None
                            (Some ["Fix bug"; "Fix crash"; "Add feature"])
                            (Some [("fix", [titled "fix" "Fix bug"; titled "fix" "Fix crash"]);
                                   ("feat", [titled "feat" "Add feature"])])).
Proof. eexists. split; vm_compute; reflexivity. Qed.

(** Scopes are rendered in lexicographic order, the unscoped commits first. *)
Example buildChangelog_scopes :
  snd (buildChangelog Semver.coerce
         [("v1.0.0", Release.make (Some "v1.0.0") None (Some "2024-05-01") None None None None
                       (Some [("fix", [scoped (Some "b") "second <tag>"; scoped (Some "a") "first";
                                       scoped None "loose"])]))]
         None {| options_at := ∅; notice_at := ∅ |})
  = Ok [ "# Changelog"; ""; ""; "## 1.0.0 (2024-05-01)"; ""; "### Fixed"; "";
         "- loose"; "- a"; "  - first"; "- b"; "  - second &lt;tag&gt;"; "" ].
Proof. vm_compute. reflexivity. Qed.

(** ** Comparators *)

Lemma order_le_total {A : Type} (c : A -> A -> Z) (a b : A) :
  Order c -> (c a b <= 0)%Z \/ (c b a <= 0)%Z.
Proof.
  intros H. destruct (Z_lt_le_dec 0%Z (c a b)) as [Hpos|Hle]; [|left; exact Hle].
  right. apply (order_flip c H) in Hpos. lia.
Qed.

Lemma order_le_trans {A : Type} (c : A -> A -> Z) (a b d : A) :
  Order c -> (c a b <= 0)%Z -> (c b d <= 0)%Z -> (c a d <= 0)%Z.
Proof.
  intros H Hab Hbd.
  destruct (Z.eq_dec (c a b) 0%Z) as [E|E].
  - apply (order_eq c H) in E. subst b. exact Hbd.
  - destruct (Z.eq_dec (c b d) 0%Z) as [E'|E'].
    + apply (order_eq c H) in E'. subst d. exact Hab.
    + assert (c a d < 0)%Z; [|lia].
      apply (order_trans c H a b d); lia.
Qed.

Lemma order_le_antisym {A : Type} (c : A -> A -> Z) (a b : A) :
  Order c -> (c a b <= 0)%Z -> (c b a <= 0)%Z -> a = b.
Proof.
  intros H Hab Hba.
  destruct (Z.eq_dec (c a b) 0%Z) as [E|E]; [apply (order_eq c H); exact E|].
  assert (c a b < 0)%Z as Hlt by lia.
  apply (order_flip c H) in Hlt. lia.
Qed.

Lemma order_refl {A : Type} (c : A -> A -> Z) (a : A) : Order c -> c a a = 0%Z.
Proof. intros H. apply (order_eq c H). reflexivity. Qed.

Lemma order_ext {A : Type} (c c' : A -> A -> Z) :
  (forall a b, c a b = c' a b) -> Order c -> Order c'.
Proof.
  intros E [H1 H2 H3]. constructor.
  - intros a b. rewrite <- E. apply H1.
  - intros a b. rewrite <- !E. apply H2.
  - intros a b d. rewrite <- !E. apply H3.
Qed.

Lemma order_on {A B : Type} (f : A -> B) (c : B -> B -> Z) :
  (forall a b, f a = f b -> a = b) -> Order c -> Order (fun a b => c (f a) (f b)).
Proof.
  intros Hf [H1 H2 H3]. constructor.
  - intros a b. rewrite H1. split; [apply Hf|congruence].
  - intros a b. apply H2.
  - intros a b d. apply H3.
Qed.

Lemma order_lex {A B : Type} (c1 : A -> A -> Z) (c2 : B -> B -> Z) :
  Order c1 -> Order c2 ->
  Order (fun p q : A * B => lex (c1 (fst p) (fst q)) (c2 (snd p) (snd q))).
Proof.
  intros H1 H2. constructor.
  - intros [a1 a2] [b1 b2]. unfold lex. simpl.
    destruct (Z.eqb_spec (c1 a1 b1) 0%Z) as [E|E]; simpl.
    + apply (order_eq c1 H1) in E. subst b1. rewrite (order_eq c2 H2).
      split; congruence.
    + split; [contradiction|]. intros Heq. inversion Heq. subst.
      exfalso. apply E. apply (order_refl c1 _ H1).
  - intros [a1 a2] [b1 b2]. unfold lex. simpl.
    destruct (Z.eqb_spec (c1 a1 b1) 0%Z) as [E|E]; simpl.
    + apply (order_eq c1 H1) in E. subst b1. rewrite (order_refl c1 _ H1). simpl.
      apply (order_flip c2 H2).
    + destruct (Z.eqb_spec (c1 b1 a1) 0%Z) as [E'|E']; simpl.
      * apply (order_eq c1 H1) in E'. subst b1.
        exfalso. apply E. apply (order_refl c1 _ H1).
      * apply (order_flip c1 H1).
  - intros [a1 a2] [b1 b2] [d1 d2]. unfold lex. simpl.
    destruct (Z.eqb_spec (c1 a1 b1) 0%Z) as [E|E]; simpl.
    + apply (order_eq c1 H1) in E. subst b1.
      destruct (Z.eqb_spec (c1 a1 d1) 0%Z) as [E'|E']; simpl; [|auto].
      intros Hab Hbd. eapply (order_trans c2 H2); eassumption.
    + destruct (Z.eqb_spec (c1 b1 d1) 0%Z) as [E'|E']; simpl.
      * apply (order_eq c1 H1) in E'. subst d1.
        destruct (Z.eqb_spec (c1 a1 b1) 0%Z); [contradiction|]. simpl. auto.
      * intros Hab Hbd. pose proof (order_trans c1 H1 _ _ _ Hab Hbd) as Had.
        destruct (Z.eqb_spec (c1 a1 d1) 0%Z); simpl; [lia|exact Had].
Qed.

Lemma order_compare_N : Order Semver.compare_N.
Proof.
  constructor; unfold Semver.compare_N.
  - intros a b. destruct (N.ltb_spec a b), (N.ltb_spec b a); split; intros; try lia.
  - intros a b. destruct (N.ltb_spec a b), (N.ltb_spec b a); split; intros; try lia.
  - intros a b d.
    destruct (N.ltb_spec a b), (N.ltb_spec b a), (N.ltb_spec b d), (N.ltb_spec d b),
      (N.ltb_spec a d), (N.ltb_spec d a); intros; try lia.
Qed.

Lemma nat_of_ascii_inj (x y : ascii) : nat_of_ascii x = nat_of_ascii y -> x = y.
Proof.
  intros H. rewrite <- (ascii_nat_embedding x), <- (ascii_nat_embedding y), H.
  reflexivity.
Qed.

Lemma str_ltb_irrefl (a : string) : str_ltb a a = false.
Proof.
  induction a as [|x a IH]; simpl; [reflexivity|].
  rewrite Nat.ltb_irrefl. exact IH.
Qed.

Lemma str_ltb_asym (a b : string) : str_ltb a b = true -> str_ltb b a = false.
Proof.
  revert b. induction a as [|x a IH]; intros [|y b]; simpl; try congruence.
  destruct (Nat.ltb_spec (nat_of_ascii x) (nat_of_ascii y)),
    (Nat.ltb_spec (nat_of_ascii y) (nat_of_ascii x)); try lia; try congruence.
  apply IH.
Qed.

Lemma str_ltb_trichotomy (a b : string) :
  str_ltb a b = false -> str_ltb b a = false -> a = b.
Proof.
  revert b. induction a as [|x a IH]; intros [|y b]; simpl; try congruence.
  destruct (Nat.ltb_spec (nat_of_ascii x) (nat_of_ascii y)),
    (Nat.ltb_spec (nat_of_ascii y) (nat_of_ascii x)); try lia; try congruence.
  intros Hab Hba. rewrite (IH b Hab Hba).
  assert (x = y) as -> by (apply nat_of_ascii_inj; lia). reflexivity.
Qed.

Lemma str_ltb_trans (a b d : string) :
  str_ltb a b = true -> str_ltb b d = true -> str_ltb a d = true.
Proof.
  revert b d. induction a as [|x a IH]; intros [|y b] [|z d]; simpl; try congruence.
  destruct (Nat.ltb_spec (nat_of_ascii x) (nat_of_ascii y)),
    (Nat.ltb_spec (nat_of_ascii y) (nat_of_ascii x)),
    (Nat.ltb_spec (nat_of_ascii y) (nat_of_ascii z)),
    (Nat.ltb_spec (nat_of_ascii z) (nat_of_ascii y)),
    (Nat.ltb_spec (nat_of_ascii x) (nat_of_ascii z)),
    (Nat.ltb_spec (nat_of_ascii z) (nat_of_ascii x));
    try lia; try congruence.
  apply IH.
Qed.

Lemma order_default_cmp : Order default_cmp.
Proof.
  constructor; unfold default_cmp.
  - intros a b. destruct (str_ltb a b) eqn:Hab; [|destruct (str_ltb b a) eqn:Hba].
    + split; [lia|]. intros ->. rewrite str_ltb_irrefl in Hab. discriminate.
    + split; [lia|]. intros ->. rewrite str_ltb_irrefl in Hba. discriminate.
    + split; [|reflexivity]. intros _. apply str_ltb_trichotomy; assumption.
  - intros a b. destruct (str_ltb a b) eqn:Hab.
    + rewrite (str_ltb_asym a b Hab). split; lia.
    + destruct (str_ltb b a); split; lia.
  - intros a b d.
    destruct (str_ltb a b) eqn:Hab; [|destruct (str_ltb b a); lia].
    destruct (str_ltb b d) eqn:Hbd; [|destruct (str_ltb d b); lia].
    rewrite (str_ltb_trans a b d Hab Hbd). lia.
Qed.

Lemma order_exact_identifier : Order exact_identifier.
Proof.
  pose proof order_compare_N as [N1 N2 N3].
  pose proof order_default_cmp as [S1 S2 S3].
  constructor.
  - intros [x|x] [y|y]; simpl.
    + rewrite N1. split; congruence.
    + split; [lia|discriminate].
    + split; [lia|discriminate].
    + rewrite S1. split; congruence.
  - intros [x|x] [y|y]; simpl; try lia; auto.
  - intros [x|x] [y|y] [z|z]; simpl; try lia; eauto.
Qed.

Lemma order_exact_identifiers : Order exact_identifiers.
Proof.
  pose proof order_exact_identifier as HI.
  constructor.
  - induction a as [|x a IH]; intros [|y b]; simpl.
    + split; reflexivity.
    + split; [lia|discriminate].
    + split; [lia|discriminate].
    + destruct (Z.eqb_spec (exact_identifier x y) 0%Z) as [E|E].
      * apply (order_eq _ HI) in E. subst y. rewrite IH. split; congruence.
      * split; [contradiction|]. intros Heq. inversion Heq. subst.
        exfalso. apply E. apply (order_refl _ _ HI).
  - induction a as [|x a IH]; intros [|y b]; simpl; try lia.
    destruct (Z.eqb_spec (exact_identifier x y) 0%Z) as [E|E].
    + apply (order_eq _ HI) in E. subst y. rewrite (order_refl _ _ HI). simpl. apply IH.
    + destruct (Z.eqb_spec (exact_identifier y x) 0%Z) as [E'|E'].
      * apply (order_eq _ HI) in E'. subst y.
        exfalso. apply E. apply (order_refl _ _ HI).
      * apply (order_flip _ HI).
  - induction a as [|x a IH]; intros [|y b] [|z d]; simpl; try lia.
    destruct (Z.eqb_spec (exact_identifier x y) 0%Z) as [E|E].
    + apply (order_eq _ HI) in E. subst y.
      destruct (Z.eqb_spec (exact_identifier x z) 0%Z); [apply IH|auto].
    + destruct (Z.eqb_spec (exact_identifier y z) 0%Z) as [E'|E'].
      * apply (order_eq _ HI) in E'. subst z.
        destruct (Z.eqb_spec (exact_identifier x y) 0%Z); [contradiction|auto].
      * intros Hab Hbd. pose proof (order_trans _ HI _ _ _ Hab Hbd) as Had.
        destruct (Z.eqb_spec (exact_identifier x z) 0%Z); [lia|exact Had].
Qed.

Lemma order_compare_prerelease : Order compare_prerelease.
Proof.
  pose proof order_exact_identifiers as HL.
  constructor.
  - intros [|x a] [|y b]; unfold compare_prerelease.
    + split; reflexivity.
    + split; [lia|discriminate].
    + split; [lia|discriminate].
    + apply (order_eq _ HL).
  - intros [|x a] [|y b]; unfold compare_prerelease; try lia.
    apply (order_flip _ HL).
  - intros [|x a] [|y b] [|z d]; unfold compare_prerelease; try lia.
    apply (order_trans _ HL).
Qed.

Lemma order_compare_tuple : Order compare_tuple.
Proof.
  exact (order_lex _ _ order_compare_N
           (order_lex _ _ order_compare_N
              (order_lex _ _ order_compare_N order_compare_prerelease))).
Qed.

Lemma order_exact_compare : Order exact_compare.
Proof.
  apply (order_on version_tuple compare_tuple).
  - intros [a1 a2 a3 pa] [b1 b2 b3 pb]. unfold version_tuple. simpl.
    intros H. inversion H. reflexivity.
  - exact order_compare_tuple.
Qed.

(** *** [semver.compare] on safe versions *)

Lemma to_double_safe (n : N) :
  (n <=? Semver.MAX_SAFE_INTEGER)%N = true -> Semver.to_double n = n.
Proof.
  intros Hn. apply N.leb_le in Hn. unfold Semver.MAX_SAFE_INTEGER in Hn.
  unfold Semver.to_double.
  destruct (N.leb_spec (N.size n) 53) as [_|Hsize]; [reflexivity|].
  exfalso.
  pose proof (N.size_le n) as Hle.
  assert (2 ^ 54 <= 2 ^ N.size n)%N as Hpow by (apply N.pow_le_mono_r; lia).
  change (2 ^ 54)%N with 18014398509481984%N in Hpow.
  rewrite N.succ_double_spec in Hle. lia.
Qed.

Lemma compareIdentifiers_safe (x y : Semver.identifier) :
  safe_identifier x = true -> safe_identifier y = true ->
  Semver.compareIdentifiers x y = exact_identifier x y.
Proof.
  destruct x as [x|x], y as [y|y]; simpl; intros Hx Hy; try reflexivity.
  rewrite (to_double_safe x Hx), (to_double_safe y Hy). reflexivity.
Qed.

Lemma identifier_eqb_spec (x y : Semver.identifier) :
  Semver.identifier_eqb x y = true <-> x = y.
Proof.
  destruct x as [x|x], y as [y|y]; simpl.
  - rewrite N.eqb_eq. split; congruence.
  - split; discriminate.
  - split; discriminate.
  - rewrite String.eqb_eq. split; congruence.
Qed.

Lemma compare_identifiers_safe (a b : list Semver.identifier) :
  forallb safe_identifier a = true -> forallb safe_identifier b = true ->
  Semver.compare_identifiers a b = exact_identifiers a b.
Proof.
  revert b. induction a as [|x a IH]; intros [|y b]; simpl; try reflexivity.
  intros Ha Hb. apply andb_prop in Ha as [Hx Ha]. apply andb_prop in Hb as [Hy Hb].
  rewrite (compareIdentifiers_safe x y Hx Hy).
  destruct (Semver.identifier_eqb x y) eqn:Heq.
  - apply identifier_eqb_spec in Heq. subst y.
    rewrite (order_refl _ x order_exact_identifier). simpl. apply IH; assumption.
  - destruct (Z.eqb_spec (exact_identifier x y) 0%Z) as [E|E].
    + apply (order_eq _ order_exact_identifier) in E. subst y.
      assert (Semver.identifier_eqb x x = true) as H by (apply identifier_eqb_spec; reflexivity).
      congruence.
    + reflexivity.
Qed.

(** On safe versions [semver.compare] is the exact comparison, a total
    order. *)
Lemma compare_safe (a b : Semver.SemVer) :
  safe a = true -> safe b = true -> Semver.compare a b = exact_compare a b.
Proof.
  destruct a as [a1 a2 a3 pa], b as [b1 b2 b3 pb]. unfold safe. simpl. intros Ha Hb.
  unfold exact_compare, compare_tuple, version_tuple, Semver.compare, Semver.compareMain,
    Semver.comparePre, lex. simpl.
  destruct (Z.eqb_spec (Semver.compare_N a1 b1) 0%Z); simpl;
    [|destruct (Z.eqb_spec (Semver.compare_N a1 b1) 0%Z); [contradiction|reflexivity]].
  destruct (Z.eqb_spec (Semver.compare_N a2 b2) 0%Z); simpl;
    [|destruct (Z.eqb_spec (Semver.compare_N a2 b2) 0%Z); [contradiction|reflexivity]].
  destruct (Z.eqb_spec (Semver.compare_N a3 b3) 0%Z); simpl;
    [|reflexivity].
  destruct pa as [|x pa], pb as [|y pb]; try reflexivity.
  unfold compare_prerelease.
  apply (compare_identifiers_safe (x :: pa) (y :: pb)); assumption.
Qed.

(** ** Sorting with a total order *)

Lemma sort_insert_perm {A : Type} (c : A -> A -> Z) (x : A) (l : list A) :
  Permutation (sort_insert c x l) (x :: l).
Proof.
  induction l as [|y l IH]; simpl; [reflexivity|].
  destruct (c x y <=? 0)%Z; [reflexivity|].
  rewrite IH. apply perm_swap.
Qed.

Lemma js_sort_perm {A : Type} (c : A -> A -> Z) (l : list A) :
  Permutation (js_sort c l) l.
Proof.
  induction l as [|x l IH]; simpl; [reflexivity|].
  rewrite sort_insert_perm, IH. reflexivity.
Qed.

Lemma sort_insert_ordered {A : Type} (c : A -> A -> Z) (x : A) (l : list A) :
  Order c ->
  StronglySorted (fun a b => (c a b <= 0)%Z) l ->
  StronglySorted (fun a b => (c a b <= 0)%Z) (sort_insert c x l).
Proof.
  intros Hc. induction 1 as [|y l Hl IH Hy]; simpl.
  - constructor; constructor.
  - destruct (c x y <=? 0)%Z eqn:Hxy.
    + apply Z.leb_le in Hxy.
      constructor; [constructor; assumption|].
      constructor; [exact Hxy|].
      rewrite List.Forall_forall in Hy. apply List.Forall_forall.
      intros z Hz. apply (order_le_trans c x y z Hc Hxy). apply Hy. exact Hz.
    + apply Z.leb_gt in Hxy.
      constructor; [exact IH|].
      apply List.Forall_forall. intros z Hz.
      apply sort_insert_In in Hz as [->|Hz].
      * destruct (order_le_total c x y Hc) as [H|H]; [lia|exact H].
      * rewrite List.Forall_forall in Hy. apply Hy. exact Hz.
Qed.

Lemma js_sort_ordered {A : Type} (c : A -> A -> Z) (l : list A) :
  Order c -> StronglySorted (fun a b => (c a b <= 0)%Z) (js_sort c l).
Proof.
  intros Hc. induction l as [|x l IH]; simpl; [constructor|].
  apply sort_insert_ordered; assumption.
Qed.

Lemma StronglySorted_across {A : Type} (R : A -> A -> Prop) (l1 l2 : list A) (a b : A) :
  StronglySorted R (l1 ++ l2) -> In a l1 -> In b l2 -> R a b.
Proof.
  induction l1 as [|x l1 IH]; simpl; [contradiction|].
  intros H [->|Ha] Hb.
  - apply StronglySorted_inv in H as [_ H].
    rewrite List.Forall_forall in H. apply H. apply in_or_app. right. exact Hb.
  - apply StronglySorted_inv in H as [H _]. apply IH; assumption.
Qed.

Lemma sorted_unique {A : Type} (R : A -> A -> Prop) (l1 l2 : list A) :
  (forall a b, R a b -> R b a -> a = b) ->
  (forall a, R a a) ->
  StronglySorted R l1 -> StronglySorted R l2 -> Permutation l1 l2 -> l1 = l2.
Proof.
  intros Hanti Hrefl. revert l2.
  induction l1 as [|x l1 IH]; intros l2 H1 H2 Hp.
  - apply Permutation_nil in Hp. congruence.
  - destruct l2 as [|y l2]; [apply Permutation_sym, Permutation_nil in Hp; discriminate|].
    apply StronglySorted_inv in H1 as [H1 Hx].
    apply StronglySorted_inv in H2 as [H2 Hy].
    rewrite List.Forall_forall in Hx, Hy.
    assert (x = y) as ->.
    { assert (In x (y :: l2)) as Hin1
          by (apply (Permutation_in _ Hp); left; reflexivity).
      assert (In y (x :: l1)) as Hin2
          by (apply (Permutation_in _ (Permutation_sym Hp)); left; reflexivity).
      apply Hanti.
      - destruct Hin2 as [->|Hin2]; [apply Hrefl|apply Hx; exact Hin2].
      - destruct Hin1 as [->|Hin1]; [apply Hrefl|apply Hy; exact Hin1]. }
    f_equal. apply IH; [assumption|assumption|].
    apply Permutation_cons_inv in Hp. exact Hp.
Qed.

Lemma js_sort_perm_eq {A : Type} (c : A -> A -> Z) (l1 l2 : list A) :
  Order c -> Permutation l1 l2 -> js_sort c l1 = js_sort c l2.
Proof.
  intros Hc Hp.
  apply (sorted_unique (fun a b => (c a b <= 0)%Z)).
  - intros a b. apply order_le_antisym. exact Hc.
  - intros a. rewrite (order_refl c a Hc). lia.
  - apply js_sort_ordered. exact Hc.
  - apply js_sort_ordered. exact Hc.
  - rewrite !js_sort_perm. exact Hp.
Qed.

Lemma sort_insert_ext {A : Type} (c c' : A -> A -> Z) (x : A) (l : list A) :
  (forall y, In y l -> c x y = c' x y) -> sort_insert c x l = sort_insert c' x l.
Proof.
  induction l as [|y l IH]; intros H; simpl; [reflexivity|].
  rewrite (H y) by (left; reflexivity).
  destruct (c' x y <=? 0)%Z; [reflexivity|].
  rewrite IH; [reflexivity|]. intros z Hz. apply H. right. exact Hz.
Qed.

Lemma js_sort_ext {A : Type} (c c' : A -> A -> Z) (l : list A) :
  (forall a b, In a l -> In b l -> c a b = c' a b) -> js_sort c l = js_sort c' l.
Proof.
  induction l as [|x l IH]; intros H; simpl; [reflexivity|].
  rewrite IH by (intros a b Ha Hb; apply H; right; assumption).
  apply sort_insert_ext. intros y Hy. apply js_sort_In in Hy.
  apply H; [left; reflexivity|right; exact Hy].
Qed.

Lemma StronglySorted_ext {A : Type} (R R' : A -> A -> Prop) (l : list A) :
  (forall a b, In a l -> In b l -> R a b -> R' a b) ->
  StronglySorted R l -> StronglySorted R' l.
Proof.
  intros H Hl. induction Hl as [|x l Hl IH Hx]; constructor.
  - apply IH. intros a b Ha Hb. apply H; right; assumption.
  - rewrite List.Forall_forall in Hx. apply List.Forall_forall. intros y Hy.
    apply H; [left; reflexivity|right; exact Hy|apply Hx; exact Hy].
Qed.

(** *** Lists of safe versions *)

Lemma compare_safe_refl (a : Semver.SemVer) : safe a = true -> Semver.compare a a = 0%Z.
Proof.
  intros Ha. rewrite (compare_safe a a Ha Ha). apply (order_refl _ a order_exact_compare).
Qed.

Lemma compare_safe_eq (a b : Semver.SemVer) :
  safe a = true -> safe b = true -> Semver.compare a b = 0%Z -> a = b.
Proof.
  intros Ha Hb. rewrite (compare_safe a b Ha Hb). apply (order_eq _ order_exact_compare).
Qed.

Lemma compare_safe_flip (a b : Semver.SemVer) :
  safe a = true -> safe b = true ->
  (Semver.compare a b < 0)%Z <-> (0 < Semver.compare b a)%Z.
Proof.
  intros Ha Hb. rewrite (compare_safe a b Ha Hb), (compare_safe b a Hb Ha).
  apply (order_flip _ order_exact_compare).
Qed.

Lemma js_sort_safe (l : list Semver.SemVer) :
  (forall q, In q l -> safe q = true) ->
  js_sort Semver.compare l = js_sort exact_compare l.
Proof.
  intros Hl. apply js_sort_ext. intros a b Ha Hb. apply compare_safe; apply Hl; assumption.
Qed.

Lemma js_sort_safe_ordered (l : list Semver.SemVer) :
  (forall q, In q l -> safe q = true) ->
  StronglySorted (fun a b => (Semver.compare a b <= 0)%Z) (js_sort Semver.compare l).
Proof.
  intros Hl. rewrite (js_sort_safe l Hl).
  apply (StronglySorted_ext (fun a b => (exact_compare a b <= 0)%Z)).
  - intros a b Ha Hb. apply js_sort_In in Ha, Hb.
    rewrite (compare_safe a b (Hl a Ha) (Hl b Hb)). auto.
  - apply js_sort_ordered. exact order_exact_compare.
Qed.

(** ** findPreviousVersion, once more *)

Lemma version_truthy (v : Semver.SemVer) : truthy (Some (Semver.version v)) = true.
Proof.
  unfold truthy, Semver.version.
  destruct (N_to_string (Semver.major v)); reflexivity.
Qed.

Lemma filter_versions (l : list Semver.SemVer) :
  List.filter (fun v => truthy (Some (Semver.version v))) l = l.
Proof.
  induction l as [|v l IH]; cbn [List.filter]; [reflexivity|].
  rewrite version_truthy, IH. reflexivity.
Qed.

Lemma coerce_all_coercible (coerce : bool -> string -> option Semver.SemVer)
      (versions : list string) :
  coerce_all coerce versions
  = if forallb (fun v => match coerce true v with Some _ => true | None => false end) versions
    then Ok (coercible coerce versions)
    else Throw TypeError.
Proof.
  unfold coerce_all, coercible.
  induction versions as [|v versions IH]; simpl; [reflexivity|].
  destruct (coerce true v); simpl; [|reflexivity].
  rewrite IH. destruct (forallb _ versions); reflexivity.
Qed.

Lemma forallb_perm {A : Type} (f : A -> bool) (l1 l2 : list A) :
  Permutation l1 l2 -> forallb f l1 = forallb f l2.
Proof.
  induction 1; simpl.
  - reflexivity.
  - rewrite IHPermutation. reflexivity.
  - destruct (f x), (f y); reflexivity.
  - congruence.
Qed.

Lemma coercible_perm (coerce : bool -> string -> option Semver.SemVer)
      (l1 l2 : list string) :
  Permutation l1 l2 -> Permutation (coercible coerce l1) (coercible coerce l2).
Proof.
  intros Hp. unfold coercible. induction Hp; simpl.
  - reflexivity.
  - apply Permutation_app_head. exact IHHp.
  - rewrite !app_assoc. apply Permutation_app_tail. apply Permutation_app_comm.
  - etransitivity; eassumption.
Qed.

Lemma coercible_In (coerce : bool -> string -> option Semver.SemVer)
      (versions : list string) (c : Semver.SemVer) :
  In c (coercible coerce versions) <-> exists v, In v versions /\ coerce true v = Some c.
Proof.
  unfold coercible. rewrite in_flat_map. split.
  - intros (v & Hv & Hc). exists v. split; [exact Hv|].
    destruct (coerce true v) as [c'|]; [|destruct Hc].
    destruct Hc as [->|[]]. reflexivity.
  - intros (v & Hv & Hc). exists v. split; [exact Hv|]. rewrite Hc. left. reflexivity.
Qed.

(** X1: as long as the numeric prerelease identifiers of the coerced
    versions are safe integers, the order of [versions] does not matter to
    [findPreviousVersion]: the list is sorted by [semver.compare], on such
    versions a total order, before it is searched. *)
Theorem findPreviousVersion_order_independent
        (coerce : bool -> string -> option Semver.SemVer)
        (versions versions' : list string) (versionToFind type : string) :
  (forall v c, In v versions -> coerce true v = Some c -> safe c = true) ->
  Permutation versions versions' ->
  findPreviousVersion coerce versions versionToFind type
  = findPreviousVersion coerce versions' versionToFind type.
Proof.
  intros Hsafe Hp. unfold findPreviousVersion.
  rewrite !coerce_all_coercible.
  rewrite (forallb_perm _ versions versions' Hp).
  destruct (forallb _ versions'); [|reflexivity].
  cbn [bind]. rewrite !filter_versions.
  assert (forall q, In q (coercible coerce versions) -> safe q = true) as Hl.
  { intros q Hq. apply coercible_In in Hq as (v & Hv & Hc). apply (Hsafe v q Hv Hc). }
  assert (forall q, In q (coercible coerce versions') -> safe q = true) as Hl'.
  { intros q Hq. apply Hl.
    apply (Permutation_in _ (Permutation_sym (coercible_perm coerce _ _ Hp))). exact Hq. }
  rewrite (js_sort_safe _ Hl), (js_sort_safe _ Hl').
  rewrite (js_sort_perm_eq exact_compare (coercible coerce versions)
             (coercible coerce versions') order_exact_compare (coercible_perm coerce _ _ Hp)).
  reflexivity.
Qed.

(** The unsorted list of the test suite against its sorted form. *)
Lemma findPreviousVersion_order_independent_witness :
  findPreviousVersion Semver.coerce ["2.0.0"; "1.0.0-9"; "3.0.0"; "1.1.0"] "3.0.0" "PATCH"
  = findPreviousVersion Semver.coerce ["1.0.0-9"; "1.1.0"; "2.0.0"; "3.0.0"] "3.0.0" "PATCH".
Proof.
  apply (findPreviousVersion_order_independent Semver.coerce
           ["2.0.0"; "1.0.0-9"; "3.0.0"; "1.1.0"] ["1.0.0-9"; "1.1.0"; "2.0.0"; "3.0.0"]
           "3.0.0" "PATCH").
  - intros v c [<-|[<-|[<-|[<-|[]]]]] H; inversion H; reflexivity.
  - apply (perm_trans (l' := ["1.0.0-9"; "2.0.0"; "3.0.0"; "1.1.0"])).
    + apply perm_swap.
    + apply perm_skip.
      apply (perm_trans (l' := ["2.0.0"; "1.1.0"; "3.0.0"])).
      * apply perm_skip. apply perm_swap.
      * apply perm_swap.
Defined.

Lemma findIndex_from_first {A : Type} (p : A -> bool) (l : list A) (i : Z) (x : A) :
  In x l -> p x = true ->
  exists before y after,
    l = before ++ y :: after
    /\ p y = true
    /\ (forall z, In z before -> p z = false)
    /\ findIndex_from p l i = (i + Z.of_nat (List.length before))%Z.
Proof.
  revert i. induction l as [|a l IH]; intros i Hin Hx; [destruct Hin|].
  simpl. destruct (p a) eqn:Ha.
  - exists [], a, l. simpl. repeat split; [exact Ha|contradiction|lia].
  - destruct Hin as [->|Hin]; [congruence|].
    destruct (IH (i + 1)%Z Hin Hx) as (before & y & after & -> & Hy & Hbefore & Hidx).
    exists (a :: before), y, after. simpl. repeat split; [exact Hy| |lia].
    intros z [<-|Hz]; [exact Ha|apply Hbefore; exact Hz].
Qed.

Lemma find_first {A : Type} (p : A -> bool) (l : list A) (x : A) :
  List.find p l = Some x ->
  exists before after,
    l = before ++ x :: after /\ p x = true /\ (forall z, In z before -> p z = false).
Proof.
  induction l as [|a l IH]; simpl; [discriminate|].
  destruct (p a) eqn:Ha.
  - intros H. inversion H. subst a. exists [], l. simpl. repeat split; [exact Ha|contradiction].
  - intros H. destruct (IH H) as (before & after & -> & Hx & Hbefore).
    exists (a :: before), after. simpl. repeat split; [exact Hx|].
    intros z [<-|Hz]; [exact Ha|apply Hbefore; exact Hz].
Qed.

Lemma find_none_all {A : Type} (p : A -> bool) (l : list A) :
  List.find p l = None -> forall x, In x l -> p x = false.
Proof.
  induction l as [|a l IH]; simpl; [contradiction|].
  destruct (p a) eqn:Ha; [discriminate|].
  intros H x [<-|Hx]; [exact Ha|apply IH; assumption].
Qed.

Lemma nth_error_middle {A : Type} (l1 l2 : list A) (x : A) :
  nth_error (l1 ++ x :: l2) (List.length l1) = Some x.
Proof.
  induction l1 as [|a l1 IH]; simpl; [reflexivity|exact IH].
Qed.

Lemma exists_last_or_nil {A : Type} (l : list A) :
  l = [] \/ exists l' x, l = l' ++ [x].
Proof.
  destruct l as [|a l]; [left; reflexivity|right].
  destruct (exists_last (l := a :: l)) as (l' & x & H); [discriminate|].
  exists l', x. exact H.
Qed.

Section Predecessor.

Variable coerce : bool -> string -> option Semver.SemVer.

(** X2: at PATCH granularity, for versions whose numeric prerelease
    identifiers are safe integers and a target that is among them,
    [findPreviousVersion] answers [null] when no version is below the
    target, and otherwise the greatest version below it, with the [v] of the
    target put back. *)
Theorem findPreviousVersion_patch_greatest_below
        (versions : list string) (versionToFind : string)
        (t : Semver.SemVer) (coerced : list Semver.SemVer) :
  coerce true versionToFind = Some t ->
  coerce_all coerce versions = Ok coerced ->
  (forall q, In q coerced -> safe q = true) ->
  In t coerced ->
  (findPreviousVersion coerce versions versionToFind "PATCH" = Ok Null
   /\ forall q, In q coerced -> (Semver.compare t q <= 0)%Z)
  \/ exists p,
       In p coerced
       /\ (Semver.compare p t < 0)%Z
       /\ (forall q, In q coerced -> (Semver.compare q t < 0)%Z -> (Semver.compare q p <= 0)%Z)
       /\ findPreviousVersion coerce versions versionToFind "PATCH"
          = Ok (Str ((if str_startsWith "v" versionToFind then "v" else "")
                     +:+ Semver.version p)).
Proof.
  intros Ht Hall Hsafe Hin.
  pose proof (Hsafe t Hin) as Hsafe_t.
  unfold findPreviousVersion. cbn [toUpperCase map_string upper_char is_lower nat_of_ascii].
  simpl includes. cbn [negb]. rewrite Ht, Hall. cbn [bind].
  rewrite filter_versions.
  pose proof (js_sort_safe_ordered coerced Hsafe) as Hsorted.
  assert (forall q, In q coerced <-> In q (js_sort Semver.compare coerced)) as Hmem
      by (intros q; symmetry; apply js_sort_In).
  set (sorted := js_sort Semver.compare coerced) in *. clearbody sorted.
  assert (Semver.eq t t = true) as Htt.
  { unfold Semver.eq. rewrite (compare_safe_refl t Hsafe_t). reflexivity. }
  destruct (findIndex_from_first (fun v => Semver.eq v t) sorted 0%Z t
              (proj1 (Hmem t) Hin) Htt)
    as (before & y & after & Hsplit & Hy & Hbefore & Hidx).
  assert (y = t) as ->.
  { unfold Semver.eq in Hy. apply Z.eqb_eq in Hy.
    apply (compare_safe_eq y t); [|exact Hsafe_t|exact Hy].
    apply Hsafe. apply Hmem. rewrite Hsplit. apply in_or_app. right. left. reflexivity. }
  unfold findIndex. rewrite Hidx. subst sorted.
  destruct (exists_last_or_nil before) as [->|(before' & p & ->)].
  - left. split; [reflexivity|].
    intros q Hq. apply Hmem in Hq. simpl in Hq. destruct Hq as [<-|Hq].
    + rewrite (compare_safe_refl t Hsafe_t). lia.
    + simpl in Hsorted. apply StronglySorted_inv in Hsorted as [_ H].
      rewrite List.Forall_forall in H. apply H. exact Hq.
  - right. exists p.
    assert (In p (before' ++ [p])) as Hp by (apply in_or_app; right; left; reflexivity).
    assert (In p coerced) as Hp_in by (apply Hmem; apply in_or_app; left; exact Hp).
    assert (Semver.compare p t <= 0)%Z as Hple.
    { apply (StronglySorted_across _ (before' ++ [p]) (t :: after) p t Hsorted Hp).
      left. reflexivity. }
    split; [|split; [|split]].
    + exact Hp_in.
    + specialize (Hbefore p Hp). unfold Semver.eq in Hbefore.
      apply Z.eqb_neq in Hbefore. lia.
    + intros q Hq Hqt. pose proof (Hsafe q Hq) as Hsafe_q. apply Hmem in Hq.
      rewrite <- app_assoc in Hq, Hsorted. simpl in Hq, Hsorted.
      apply in_app_or in Hq as [Hq|[<-|[<-|Hq]]].
      * apply (StronglySorted_across _ before' (p :: t :: after) q p Hsorted Hq).
        left. reflexivity.
      * rewrite (compare_safe_refl p Hsafe_q). lia.
      * rewrite (compare_safe_refl t Hsafe_t) in Hqt. lia.
      * assert (Semver.compare t q <= 0)%Z as Htq.
        { apply StronglySorted_tail in Hsorted.
          apply StronglySorted_inv in Hsorted as [Hsorted _].
          apply StronglySorted_inv in Hsorted as [_ H].
          rewrite List.Forall_forall in H. apply H. exact Hq. }
        apply (compare_safe_flip q t Hsafe_q Hsafe_t) in Hqt. lia.
    + rewrite length_app. simpl List.length.
      replace (0 + Z.of_nat (List.length before' + 1) =? 0)%Z with false
        by (symmetry; apply Z.eqb_neq; lia).
      unfold at_index.
      replace (0 + Z.of_nat (List.length before' + 1) - 1 <? 0)%Z with false
        by (symmetry; apply Z.ltb_ge; lia).
      replace (Z.to_nat (0 + Z.of_nat (List.length before' + 1) - 1))
        with (List.length before') by lia.
      rewrite <- app_assoc. simpl app. rewrite nth_error_middle.
      unfold value_truthy. fold (truthy (Some (Semver.version p))).
      rewrite version_truthy.
      destruct (str_startsWith "v" versionToFind); reflexivity.
Qed.

(** X3: at MAJOR and MINOR granularity, for versions whose numeric
    prerelease identifiers are safe integers, [findPreviousVersion] answers
    the least coerced version that is not below the start of the target's
    own major (minor) line, with the [v] of the target put back, and [null]
    exactly when every version is below that start. *)
Theorem findPreviousVersion_line_start
        (versions : list string) (versionToFind type : string)
        (t : Semver.SemVer) (coerced : list Semver.SemVer) :
  includes ["MAJOR"; "MINOR"] (toUpperCase type) = true ->
  coerce true versionToFind = Some t ->
  coerce_all coerce versions = Ok coerced ->
  (forall q, In q coerced -> safe q = true) ->
  let range :=
    Semver.mkSemVer (Semver.major t)
                    (if String.eqb (toUpperCase type) "MAJOR" then 0%N else Semver.minor t)
                    0 [] in
  (findPreviousVersion coerce versions versionToFind type = Ok Null
   /\ forall q, In q coerced -> (Semver.compare q range < 0)%Z)
  \/ exists p,
       In p coerced
       /\ (0 <= Semver.compare p range)%Z
       /\ (forall q, In q coerced -> (0 <= Semver.compare q range)%Z ->
                     (Semver.compare p q <= 0)%Z)
       /\ findPreviousVersion coerce versions versionToFind type
          = Ok (Str ((if str_startsWith "v" versionToFind then "v" else "")
                     +:+ Semver.version p)).
Proof.
  intros Htype Ht Hall Hsafe range.
  assert (findPreviousVersion coerce versions versionToFind type
          = Ok (match List.find (fun v => Semver.gte v range)
                                (js_sort Semver.compare coerced) with
                | Some v => Str ((if str_startsWith "v" versionToFind then "v" else "")
                                 +:+ Semver.version v)
                | None => Null
                end)) as ->.
  { unfold findPreviousVersion. subst range.
    assert (includes ["MAJOR"; "MINOR"; "PATCH"] (toUpperCase type) = true) as ->.
    { unfold includes in *. simpl in *.
      destruct (String.eqb (toUpperCase type) "MAJOR"); [reflexivity|].
      destruct (String.eqb (toUpperCase type) "MINOR"); [reflexivity|discriminate]. }
    cbn [negb]. rewrite Ht, Hall. cbn [bind]. rewrite filter_versions.
    unfold includes in Htype. simpl in Htype.
    destruct (String.eqb (toUpperCase type) "MAJOR") eqn:Hmajor.
    - destruct (List.find _ _) as [v|]; [|reflexivity].
      rewrite version_truthy. unfold value_truthy.
      fold (truthy (Some (Semver.version v))). rewrite version_truthy.
      destruct (str_startsWith "v" versionToFind); reflexivity.
    - destruct (String.eqb (toUpperCase type) "MINOR") eqn:Hminor; [|discriminate].
      destruct (List.find _ _) as [v|]; [|reflexivity].
      rewrite version_truthy. unfold value_truthy.
      fold (truthy (Some (Semver.version v))). rewrite version_truthy.
      destruct (str_startsWith "v" versionToFind); reflexivity. }
  pose proof (js_sort_safe_ordered coerced Hsafe) as Hsorted.
  assert (forall q, In q coerced <-> In q (js_sort Semver.compare coerced)) as Hmem
      by (intros q; symmetry; apply js_sort_In).
  set (sorted := js_sort Semver.compare coerced) in *. clearbody sorted.
  destruct (List.find (fun v => Semver.gte v range) sorted) as [p|] eqn:Hfind.
  - right. exists p.
    destruct (find_first _ _ _ Hfind) as (before & after & -> & Hp & Hbefore).
    unfold Semver.gte in Hp. apply Z.leb_le in Hp.
    assert (In p coerced) as Hp_in
        by (apply Hmem; apply in_or_app; right; left; reflexivity).
    split; [|split; [|split]].
    + exact Hp_in.
    + exact Hp.
    + intros q Hq Hqr. apply Hmem in Hq.
      apply in_app_or in Hq as [Hq|[<-|Hq]].
      * specialize (Hbefore q Hq). unfold Semver.gte in Hbefore.
        apply Z.leb_gt in Hbefore. lia.
      * rewrite (compare_safe_refl p (Hsafe p Hp_in)). lia.
      * apply StronglySorted_tail in Hsorted.
        apply StronglySorted_inv in Hsorted as [_ H].
        rewrite List.Forall_forall in H. apply H. exact Hq.
    + reflexivity.
  - left. split; [reflexivity|].
    intros q Hq. apply Hmem in Hq.
    pose proof (find_none_all _ _ Hfind q Hq) as H. simpl in H.
    unfold Semver.gte in H. apply Z.leb_gt in H. exact H.
Qed.

End Predecessor.

(** Over the versions of the test suite: the predecessor of [1.0.0] is
    [0.2.2], the last version of the line before. *)
Lemma findPreviousVersion_patch_greatest_below_witness :
  (findPreviousVersion Semver.coerce test_versions "v1.0.0" "PATCH" = Ok Null
   /\ forall q, In q (coercible Semver.coerce test_versions) ->
                (Semver.compare (Semver.mkSemVer 1 0 0 []) q <= 0)%Z)
  \/ exists p,
       In p (coercible Semver.coerce test_versions)
       /\ (Semver.compare p (Semver.mkSemVer 1 0 0 []) < 0)%Z
       /\ (forall q, In q (coercible Semver.coerce test_versions) ->
                     (Semver.compare q (Semver.mkSemVer 1 0 0 []) < 0)%Z ->
                     (Semver.compare q p <= 0)%Z)
       /\ findPreviousVersion Semver.coerce test_versions "v1.0.0" "PATCH"
          = Ok (Str ("v" +:+ Semver.version p)).
Proof.
  apply (findPreviousVersion_patch_greatest_below Semver.coerce test_versions "v1.0.0"
           (Semver.mkSemVer 1 0 0 []) (coercible Semver.coerce test_versions)).
  - reflexivity.
  - reflexivity.
  - intros q Hq. apply coercible_In in Hq as (v & Hv & Hc).
    repeat (destruct Hv as [<-|Hv]; [inversion Hc; reflexivity|]). destruct Hv.
  - vm_compute. do 9 right. left. reflexivity.
Defined.

(** The first release of the line of [1.2.2] is [1.0.0]. *)
Lemma findPreviousVersion_line_start_witness :
  (findPreviousVersion Semver.coerce ["1.0.0"; "1.1.2"; "2.0.1"] "1.2.2" "major" = Ok Null
   /\ forall q, In q (coercible Semver.coerce ["1.0.0"; "1.1.2"; "2.0.1"]) ->
                (Semver.compare q (Semver.mkSemVer 1 0 0 []) < 0)%Z)
  \/ exists p,
       In p (coercible Semver.coerce ["1.0.0"; "1.1.2"; "2.0.1"])
       /\ (0 <= Semver.compare p (Semver.mkSemVer 1 0 0 []))%Z
       /\ (forall q, In q (coercible Semver.coerce ["1.0.0"; "1.1.2"; "2.0.1"]) ->
                     (0 <= Semver.compare q (Semver.mkSemVer 1 0 0 []))%Z ->
                     (Semver.compare p q <= 0)%Z)
       /\ findPreviousVersion Semver.coerce ["1.0.0"; "1.1.2"; "2.0.1"] "1.2.2" "major"
          = Ok (Str ("" +:+ Semver.version p)).
Proof.
  apply (findPreviousVersion_line_start Semver.coerce ["1.0.0"; "1.1.2"; "2.0.1"]
           "1.2.2" "major" (Semver.mkSemVer 1 2 2 [])
           (coercible Semver.coerce ["1.0.0"; "1.1.2"; "2.0.1"])).
  - reflexivity.
  - reflexivity.
  - reflexivity.
  - intros q Hq. apply coercible_In in Hq as (v & Hv & Hc).
    repeat (destruct Hv as [<-|Hv]; [inversion Hc; reflexivity|]). destruct Hv.
Defined.

(** ** escapeHTML *)

Lemma append_cons (x : ascii) (a b : string) : String x a +:+ b = String x (a +:+ b).
Proof. reflexivity. Qed.

Lemma append_assoc (a b c : string) : (a +:+ b) +:+ c = a +:+ (b +:+ c).
Proof.
  induction a as [|x a IH]; [reflexivity|].
  rewrite !append_cons, IH. reflexivity.
Qed.

Lemma replace_all_app (c : ascii) (b x y : string) :
  replace_all c b (x +:+ y) = replace_all c b x +:+ replace_all c b y.
Proof.
  induction x as [|a x IH]; [reflexivity|].
  rewrite append_cons. cbn [replace_all]. rewrite IH, append_assoc. reflexivity.
Qed.

Lemma escapeHTML_app (a b : string) :
  escapeHTML (a +:+ b) = escapeHTML a +:+ escapeHTML b.
Proof. unfold escapeHTML. rewrite !replace_all_app. reflexivity. Qed.

Lemma escapeHTML_char (c : ascii) : escapeHTML (String c EmptyString) = escape_char c.
Proof.
  unfold escape_char.
  destruct (Ascii.eqb_spec c "&"%char) as [->|H1]; [reflexivity|].
  destruct (Ascii.eqb_spec c "<"%char) as [->|H2]; [reflexivity|].
  destruct (Ascii.eqb_spec c ">"%char) as [->|H3]; [reflexivity|].
  destruct (Ascii.eqb_spec c "034"%char) as [->|H4]; [reflexivity|].
  destruct (Ascii.eqb_spec c "'"%char) as [->|H5]; [reflexivity|].
  unfold escapeHTML. simpl.
  apply Ascii.eqb_neq in H1, H2, H3, H4, H5.
  rewrite H1. simpl. rewrite H2. simpl. rewrite H3. simpl. rewrite H4. simpl.
  rewrite H5. reflexivity.
Qed.

Lemma escapeHTML_cons (c : ascii) (str : string) :
  escapeHTML (String c str) = escape_char c +:+ escapeHTML str.
Proof.
  change (String c str) with (String c EmptyString +:+ str).
  rewrite escapeHTML_app, escapeHTML_char. reflexivity.
Qed.

(** X4: the five replacements in a row amount to one pass that replaces
    each reserved character by its entity: the ampersand of an entity that
    an earlier replacement has inserted is not escaped again. *)
Theorem escapeHTML_single_pass (str : string) : escapeHTML str = escape_each str.
Proof.
  induction str as [|c str IH]; [reflexivity|].
  rewrite escapeHTML_cons, IH. reflexivity.
Qed.

Lemma forallb_chars_app (f : ascii -> bool) (a b : string) :
  forallb f (chars (a +:+ b)) = forallb f (chars a) && forallb f (chars b).
Proof. rewrite chars_app, forallb_app. reflexivity. Qed.

Lemma escape_char_no_markup (c : ascii) :
  forallb (fun c => negb (markup_char c)) (chars (escape_char c)) = true.
Proof.
  unfold escape_char, markup_char.
  destruct (Ascii.eqb c "&"%char); [reflexivity|].
  destruct (Ascii.eqb c "<"%char) eqn:H2; [reflexivity|].
  destruct (Ascii.eqb c ">"%char) eqn:H3; [reflexivity|].
  destruct (Ascii.eqb c "034"%char) eqn:H4; [reflexivity|].
  destruct (Ascii.eqb c "'"%char) eqn:H5; [reflexivity|].
  simpl. rewrite H2, H3, H4, H5. reflexivity.
Qed.

(** X5: no [<], [>], double quote or apostrophe is left in the text
    [escapeHTML] returns. *)
Theorem escapeHTML_no_markup (str : string) :
  forallb (fun c => negb (markup_char c)) (chars (escapeHTML str)) = true.
Proof.
  induction str as [|c str IH]; [reflexivity|].
  rewrite escapeHTML_cons, forallb_chars_app, IH, escape_char_no_markup. reflexivity.
Qed.

Lemma unescape_escape_char (c : ascii) (r : string) :
  unescape (escape_char c +:+ r) = String c (unescape r).
Proof.
  unfold escape_char.
  destruct (Ascii.eqb_spec c "&"%char) as [->|H1]; [reflexivity|].
  destruct (Ascii.eqb_spec c "<"%char) as [->|H2]; [reflexivity|].
  destruct (Ascii.eqb_spec c ">"%char) as [->|H3]; [reflexivity|].
  destruct (Ascii.eqb_spec c "034"%char) as [->|H4]; [reflexivity|].
  destruct (Ascii.eqb_spec c "'"%char) as [->|H5]; [reflexivity|].
  change (String c EmptyString +:+ r) with (String c r).
  destruct c as [[] [] [] [] [] [] [] []]; try reflexivity; exfalso; apply H1; reflexivity.
Qed.

Lemma unescape_escapeHTML (str : string) : unescape (escapeHTML str) = str.
Proof.
  induction str as [|c str IH]; [reflexivity|].
  rewrite escapeHTML_cons, unescape_escape_char, IH. reflexivity.
Qed.

(** X6: [escapeHTML] loses nothing: two texts with the same escaped form
    are the same text. *)
Theorem escapeHTML_injective (a b : string) : escapeHTML a = escapeHTML b -> a = b.
Proof.
  intros H.
  rewrite <- (unescape_escapeHTML a), <- (unescape_escapeHTML b), H. reflexivity.
Qed.

Lemma escapeHTML_injective_witness :
  escapeHTML ("a" +:+ "<b>") = escapeHTML ("a<" +:+ "b>") /\ "a" +:+ "<b>" = "a<" +:+ "b>".
Proof.
  split; [reflexivity|].
  apply (escapeHTML_injective ("a" +:+ "<b>") ("a<" +:+ "b>")). reflexivity.
Defined.

(** ** getMessageType, once more *)

Lemma switch_true_In {A : Type} (cases : list (list bool * A)) (r : A) :
  switch_true cases = Some r -> In r (map snd cases).
Proof.
  unfold switch_true. destruct (List.find _ cases) as [[labels r']|] eqn:Hfind; [|discriminate].
  simpl. intros H. inversion H. subst r'.
  apply find_some in Hfind as [Hin _].
  apply (in_map snd) in Hin. exact Hin.
Qed.

Lemma run_switch_In (valid : string -> bool) (message : string)
      (cases : list (list Rule.t * MessageType.t)) (r : MessageType.t) :
  run_switch valid message cases = Some r -> In r (map snd cases).
Proof.
  unfold run_switch. intros H. apply switch_true_In in H.
  rewrite map_map in H. simpl in H. exact H.
Qed.

Lemma rules_shaped :
  forallb rule_shaped (map snd (Rule.feat_cases ++ Rule.cascade)) = true.
Proof. vm_compute. reflexivity. Qed.

(** X7: for a string, [getMessageType] answers, and the answer is the
    caller's default type or a record of the rules: its type is one of the
    ten valid types, ["merge"] or ["other"], and it has a subtype, one of
    ["add"], ["change"] and ["remove"], exactly when its type is ["feat"]. *)
Theorem getMessageType_answers
        (valid : string -> bool) (message : string)
        (defaultType : option MessageType.t) (forceType : option string) :
  exists r,
    getMessageType valid (Some message) defaultType forceType = Ok r
    /\ (defaultType = Some r \/ rule_shaped r = true).
Proof.
  pose proof rules_shaped as Hrules.
  rewrite forallb_forall in Hrules.
  unfold getMessageType.
  destruct (match forceType with Some f => String.eqb f "feat" | None => false end).
  - destruct (run_switch valid message Rule.feat_cases) as [r|] eqn:Hr.
    + exists r. split; [reflexivity|]. right. apply Hrules.
      rewrite map_app. apply in_or_app. left. eapply run_switch_In. exact Hr.
    + eexists. split; [reflexivity|]. right. reflexivity.
  - destruct (run_switch valid message Rule.cascade) as [r|] eqn:Hr.
    + exists r. split; [reflexivity|]. right. apply Hrules.
      rewrite map_app. apply in_or_app. right. eapply run_switch_In. exact Hr.
    + destruct defaultType as [d|].
      * exists d. split; [reflexivity|]. left. reflexivity.
      * eexists. split; [reflexivity|]. right. reflexivity.
Qed.

(** ** Plain objects, once more *)

Section JsObjectOrder.

Context {V : Type}.

Lemma keys_add_index_perm (n : N) (k : string) (v : V) (o : JsObject.t V) :
  Permutation (JsObject.keys (JsObject.add_index n k v o)) (k :: JsObject.keys o).
Proof.
  unfold JsObject.keys.
  induction o as [|[k0 v0] o IH]; simpl; [reflexivity|].
  destruct (JsObject.array_index k0) as [n0|]; [destruct (n0 <? n)%N|]; simpl.
  - rewrite IH. apply perm_swap.
  - reflexivity.
  - reflexivity.
Qed.

Lemma keys_set_NoDup (k : string) (v : V) (o : JsObject.t V) :
  List.NoDup (JsObject.keys o) -> List.NoDup (JsObject.keys (JsObject.set k v o)).
Proof.
  intros Ho. unfold JsObject.set, JsObject.has.
  destruct (JsObject.get k o) eqn:Hget.
  - rewrite keys_replace. exact Ho.
  - assert (~ In k (JsObject.keys o)) as Hk.
    { intros Hin. apply get_keys in Hin. congruence. }
    destruct (JsObject.array_index k).
    + apply (Permutation_NoDup (Permutation_sym (keys_add_index_perm _ _ _ _))).
      constructor; assumption.
    + unfold JsObject.keys. rewrite map_app. simpl.
      apply (Permutation_NoDup (Permutation_cons_append _ _)).
      constructor; assumption.
Qed.

Lemma get_In (k : string) (v : V) (l : JsObject.t V) :
  List.NoDup (JsObject.keys l) -> (JsObject.get k l = Some v <-> In (k, v) l).
Proof.
  unfold JsObject.keys.
  induction l as [|[k0 v0] l IH]; simpl; intros Hl.
  - split; [discriminate|contradiction].
  - apply List.NoDup_cons_iff in Hl as [Hk0 Hl].
    destruct (String.eqb_spec k0 k) as [->|Hne].
    + split.
      * intros H. inversion H. left. reflexivity.
      * intros [H|H]; [inversion H; reflexivity|].
        exfalso. apply Hk0. apply (in_map fst) in H. exact H.
    + rewrite (IH Hl). split; [auto|].
      intros [H|H]; [inversion H; contradiction|exact H].
Qed.

Lemma get_perm (k : string) (l l' : JsObject.t V) :
  List.NoDup (JsObject.keys l) -> Permutation l l' -> JsObject.get k l = JsObject.get k l'.
Proof.
  intros Hl Hp.
  assert (List.NoDup (JsObject.keys l')) as Hl'.
  { apply (Permutation_NoDup (l := JsObject.keys l)); [|exact Hl].
    unfold JsObject.keys. apply Permutation_map. exact Hp. }
  destruct (JsObject.get k l) as [v|] eqn:Hget.
  - symmetry. apply (get_In k v l' Hl'). apply (Permutation_in _ Hp).
    apply (get_In k v l Hl). exact Hget.
  - destruct (JsObject.get k l') as [v'|] eqn:Hget'; [|reflexivity].
    apply (get_In k v' l' Hl') in Hget'.
    apply (Permutation_in _ (Permutation_sym Hp)) in Hget'.
    apply (get_In k v' l Hl) in Hget'. congruence.
Qed.

Lemma get_fold_set (k : string) (l : list (string * V)) (o : JsObject.t V) :
  List.NoDup (map fst l) ->
  JsObject.get k (fold_left (fun o e => JsObject.set (fst e) (snd e) o) l o)
  = match JsObject.get k l with
    | Some v => Some v
    | None => JsObject.get k o
    end.
Proof.
  revert o. induction l as [|[k0 v0] l IH]; intros o Hl; simpl; [reflexivity|].
  apply List.NoDup_cons_iff in Hl as [Hk0 Hl].
  rewrite (IH _ Hl). simpl.
  destruct (String.eqb_spec k0 k) as [->|Hne].
  - destruct (JsObject.get k l) as [v|] eqn:Hget.
    + exfalso. apply Hk0. apply (get_keys k l). congruence.
    + apply get_set_eq.
  - destruct (JsObject.get k l); [reflexivity|].
    apply get_set_ne. exact Hne.
Qed.

Lemma get_fromEntries (k : string) (l : list (string * V)) :
  List.NoDup (map fst l) -> JsObject.get k (JsObject.fromEntries l) = JsObject.get k l.
Proof.
  intros Hl. unfold JsObject.fromEntries. rewrite (get_fold_set k l _ Hl).
  destruct (JsObject.get k l); reflexivity.
Qed.

(** Sorting the entries of an object and building an object from them
    again leaves every property as it was. *)
Lemma get_sorted_entries (c : string * V -> string * V -> Z) (k : string) (o : JsObject.t V) :
  List.NoDup (JsObject.keys o) ->
  JsObject.get k (JsObject.fromEntries (js_sort c (JsObject.entries o))) = JsObject.get k o.
Proof.
  intros Ho. unfold JsObject.entries.
  rewrite get_fromEntries.
  - symmetry. apply get_perm; [exact Ho|]. symmetry. apply js_sort_perm.
  - apply (Permutation_NoDup (l := JsObject.keys o)); [|exact Ho].
    unfold JsObject.keys. apply Permutation_map. symmetry. apply js_sort_perm.
Qed.

End JsObjectOrder.

(** ** getCommits, once more *)

Section Grouping.

Variable valid : string -> bool.
Variable parse : string -> result Commit.t.

Lemma append_NoDup {V : Type} (key : string) (items : list V) (o : JsObject.t (list V)) :
  List.NoDup (JsObject.keys o) -> List.NoDup (JsObject.keys (JsObject.append key items o)).
Proof. apply keys_set_NoDup. Qed.

Lemma grouped_NoDup (commits : list Commit.t) (groups : JsObject.t (list Commit.t)) :
  List.NoDup (JsObject.keys groups) -> List.NoDup (JsObject.keys (grouped commits groups)).
Proof.
  unfold grouped. revert groups.
  induction commits as [|c commits IH]; intros groups H; simpl; [exact H|].
  apply IH. apply append_NoDup. exact H.
Qed.

Lemma get_grouped (key : string) (commits : list Commit.t)
      (groups : JsObject.t (list Commit.t)) :
  default [] (JsObject.get key (grouped commits groups))
  = default [] (JsObject.get key groups)
    ++ List.filter (fun c => String.eqb (group_key_of c) key) commits.
Proof.
  unfold grouped. revert groups.
  induction commits as [|c commits IH]; intros groups; simpl.
  - rewrite app_nil_r. reflexivity.
  - rewrite IH. unfold JsObject.append.
    destruct (String.eqb_spec (group_key_of c) key) as [->|Hne].
    + rewrite get_set_eq. simpl. rewrite <- app_assoc. reflexivity.
    + rewrite (get_set_ne _ key) by exact Hne. reflexivity.
Qed.

Lemma grouped_clean (commits : list Commit.t) (groups : JsObject.t (list Commit.t)) :
  clean groups ->
  Forall (fun c => JsObject.inherited (group_key_of c) = false) commits ->
  clean (grouped commits groups).
Proof.
  unfold grouped. revert groups.
  induction commits as [|c commits IH]; intros groups Hclean Hkeys; simpl; [exact Hclean|].
  apply List.Forall_cons_iff in Hkeys as [Hc Hkeys].
  apply IH; [|exact Hkeys].
  intros k Hk. unfold JsObject.append in Hk.
  apply keys_set in Hk as [->|Hk]; [exact Hc|apply Hclean; exact Hk].
Qed.

Lemma push_group_clean (key : string) (commit : Commit.t)
      (groups : JsObject.t (list Commit.t)) :
  clean groups ->
  push_group key commit groups
  = if JsObject.inherited key then Throw TypeError
    else Ok (JsObject.append key [commit] groups).
Proof.
  intros Hclean. unfold push_group, JsObject.push, JsObject.read.
  destruct (JsObject.get key groups) eqn:Hget.
  - rewrite (Hclean key); [reflexivity|]. apply get_keys. congruence.
  - destruct (JsObject.inherited key); reflexivity.
Qed.

Lemma normalise_raw (options : GetCommitsOptions) (m : string) (c : Commit.t) :
  normalise valid parse options m = Ok c -> Commit.raw c = Some m.
Proof.
  unfold normalise. intros Hc.
  destruct (parse m) as [c0|]; simpl in Hc; [|discriminate].
  destruct (truthy (Commit.type c0) && _) in Hc; simpl in Hc.
  - destruct (parse _) as [c1|]; simpl in Hc; [|discriminate].
    destruct (parseCommitMessage _ _ _ _ _); simpl in Hc; [|discriminate].
    inversion Hc. reflexivity.
  - destruct (parseCommitMessage _ _ _ _ _); simpl in Hc; [|discriminate].
    inversion Hc. reflexivity.
Qed.

(** The state of the loop: the commits that found their bucket, then at
    most one that did not, which ended the loop. *)
Lemma collect_state (options : GetCommitsOptions) (messages : list string)
      (commits : list Commit.t) (groups : JsObject.t (list Commit.t)) :
  clean groups ->
  exists bucketed stray kept rest e,
    collect valid parse options messages commits groups
    = (commits ++ bucketed ++ stray, grouped bucketed groups, e)
    /\ List.filter non_empty_message messages = kept ++ rest
    /\ map Commit.raw (bucketed ++ stray) = map Some kept
    /\ match e with None => rest = [] | Some _ => True end
    /\ Forall (fun c => JsObject.inherited (group_key_of c) = false) bucketed
    /\ (stray = []
        \/ exists c, stray = [c] /\ JsObject.inherited (group_key_of c) = true
                     /\ e = Some TypeError).
Proof.
  revert commits groups.
  induction messages as [|m messages IH]; intros commits groups Hclean.
  - exists [], [], [], [], None. simpl. rewrite app_nil_r. auto 10.
  - simpl. unfold non_empty_message at 1.
    destruct (String.eqb m "") eqn:Hm; simpl.
    + apply IH. exact Hclean.
    + destruct (normalise valid parse options m) as [c|err] eqn:Hc.
      * rewrite (push_group_clean _ c groups Hclean).
        destruct (JsObject.inherited (group_key_of c)) eqn:Hkey.
        -- exists [], [c], [m], (List.filter non_empty_message messages), (Some TypeError).
           simpl. rewrite (normalise_raw options m c Hc).
           repeat split; auto. right. exists c. auto.
        -- assert (clean (JsObject.append (group_key_of c) [c] groups)) as Hclean'.
           { intros k Hk. unfold JsObject.append in Hk.
             apply keys_set in Hk as [->|Hk]; [exact Hkey|apply Hclean; exact Hk]. }
           destruct (IH (commits ++ [c]) _ Hclean')
             as (bucketed & stray & kept & rest & e & Hcollect & Hfilter & Hraw & He
                 & Hkeys & Hstray).
           exists (c :: bucketed), stray, (m :: kept), rest, e.
           rewrite Hcollect, <- app_assoc. simpl.
           split; [reflexivity|]. split; [rewrite Hfilter; reflexivity|].
           split; [rewrite Hraw, (normalise_raw options m c Hc); reflexivity|].
           split; [exact He|]. split; [|exact Hstray].
           constructor; assumption.
      * exists [], [], [], (m :: List.filter non_empty_message messages), (Some err).
        simpl. rewrite app_nil_r. auto 10.
Qed.

(** The returned buckets against the returned commits. *)
Lemma getCommits_bucket
      (messages : list string) (options : GetCommitsOptions) (key : string) :
  default [] (JsObject.get key (groups (getCommits valid parse messages options)))
  = List.filter (fun c => String.eqb (group_key_of c) key && negb (JsObject.inherited key))
                (commits (getCommits valid parse messages options)).
Proof.
  unfold getCommits.
  destruct (collect_state options messages [] JsObject.empty
                          (fun k (H : In k []) => match H with end))
    as (bucketed & stray & kept & rest & e & Hcollect & _ & _ & _ & Hkeys & Hstray).
  rewrite Hcollect. simpl app.
  assert (default [] (JsObject.get key (grouped bucketed JsObject.empty))
          = List.filter (fun c => String.eqb (group_key_of c) key
                                  && negb (JsObject.inherited key))
                        (bucketed ++ stray)) as Hbucket.
  { rewrite get_grouped. simpl. rewrite List.filter_app.
    assert (List.filter (fun c => String.eqb (group_key_of c) key
                                  && negb (JsObject.inherited key)) stray = []) as ->.
    { destruct Hstray as [->|(c & -> & Hc & _)]; [reflexivity|]. simpl.
      destruct (String.eqb_spec (group_key_of c) key) as [<-|]; [|reflexivity].
      rewrite Hc. reflexivity. }
    rewrite app_nil_r. apply List.filter_ext_in. intros c Hc.
    rewrite List.Forall_forall in Hkeys.
    destruct (String.eqb_spec (group_key_of c) key) as [<-|]; [|reflexivity].
    rewrite (Hkeys c Hc). reflexivity. }
  destruct e; simpl.
  - exact Hbucket.
  - rewrite get_sorted_entries; [exact Hbucket|].
    apply grouped_NoDup. constructor.
Qed.

(** X9: the buckets of [getCommits] split the returned commits: under each
    key the bucket holds, in processing order, exactly the returned commits
    with that key, whether the batch ran to its end or was cut short. The
    one exception is a commit whose key names a member of
    [Object.prototype]: it is returned in no bucket, as the last commit, and
    with a [TypeError] logged. *)
Theorem getCommits_buckets_split_commits
        (messages : list string) (options : GetCommitsOptions) :
  (forall key,
      default [] (JsObject.get key (groups (getCommits valid parse messages options)))
      = List.filter (fun c => String.eqb (group_key_of c) key
                              && negb (JsObject.inherited key))
                    (commits (getCommits valid parse messages options)))
  /\ exists bucketed stray,
       commits (getCommits valid parse messages options) = bucketed ++ stray
       /\ Forall (fun c => JsObject.inherited (group_key_of c) = false) bucketed
       /\ (stray = []
           \/ exists c, stray = [c] /\ JsObject.inherited (group_key_of c) = true
                        /\ logged (getCommits valid parse messages options)
                           = Some TypeError).
Proof.
  split; [intros key; apply getCommits_bucket|].
  unfold getCommits.
  destruct (collect_state options messages [] JsObject.empty
                          (fun k (H : In k []) => match H with end))
    as (bucketed & stray & kept & rest & e & Hcollect & _ & _ & _ & Hkeys & Hstray).
  rewrite Hcollect. simpl app.
  exists bucketed, stray.
  destruct Hstray as [->|(c & -> & Hc & ->)].
  - destruct e; simpl; auto.
  - simpl. split; [reflexivity|]. split; [exact Hkeys|].
    right. exists c. auto.
Qed.

(** X10: the commits of [getCommits] follow the messages: one commit for
    each non-empty message, in order, with the message in [raw]; when an
    exception was logged they cover a first part of the messages, else all
    of them. *)
Theorem getCommits_follows_messages
        (messages : list string) (options : GetCommitsOptions) :
  exists kept rest,
    List.filter non_empty_message messages = kept ++ rest
    /\ map Commit.raw (commits (getCommits valid parse messages options)) = map Some kept
    /\ match logged (getCommits valid parse messages options) with
       | None => rest = []
       | Some _ => True
       end.
Proof.
  unfold getCommits.
  destruct (collect_state options messages [] JsObject.empty
                          (fun k (H : In k []) => match H with end))
    as (bucketed & stray & kept & rest & e & Hcollect & Hfilter & Hraw & He & _).
  rewrite Hcollect. simpl app.
  exists kept, rest. destruct e; simpl; auto.
Qed.

Lemma typed_key (c : Commit.t) : typed c -> group_key_of c <> "feat".
Proof.
  intros (t & Ht & [(-> & s & Hs & Hne)|(Hne & Hs)]); unfold group_key_of; rewrite Ht, Hs.
  - simpl. destruct (String.eqb_spec s ""); [contradiction|]. simpl. discriminate.
  - simpl. exact Hne.
Qed.

Lemma parseCommitMessage_typed (commit : Commit.t) (defaultType : option MessageType.t)
      (types : list string) (c : Commit.t) :
  Commit.subType commit = None ->
  parseCommitMessage valid parse commit defaultType types = Ok c ->
  typed c.
Proof.
  intros Hsub. unfold parseCommitMessage.
  destruct (truthy (Commit.merge commit)).
  { intros H. inversion H. exists "merge". simpl. split; [reflexivity|].
    right. split; [discriminate|exact Hsub]. }
  destruct (Commit.revert commit).
  { intros H. inversion H. exists "revert". simpl. split; [reflexivity|].
    right. split; [discriminate|exact Hsub]. }
  destruct (getMessageType _ _ _ _) as [data|]; simpl; [|discriminate].
  set (type := match Commit.type commit with Some t => t | None => MessageType.type data end).
  assert (forall c0, typed (Commit.with_type c0 (Some type)
            (if String.eqb type "feat"
             then Some (if truthy (MessageType.subType data)
                        then template (MessageType.subType data) else "change")
             else None))) as Htyped.
  { intros c0. exists type. simpl. split; [reflexivity|].
    destruct (String.eqb_spec type "feat") as [Hfeat|Hfeat].
    - left. split; [exact Hfeat|]. eexists. split; [reflexivity|].
      destruct (MessageType.subType data) as [x|]; simpl; [|discriminate].
      destruct (String.eqb_spec x ""); simpl; [discriminate|assumption].
    - right. split; [exact Hfeat|reflexivity]. }
  destruct (includes types type).
  - intros H. inversion H. apply Htyped.
  - destruct (parse _) as [c1|]; simpl; [|discriminate].
    intros H. inversion H. apply Htyped.
Qed.

Lemma typed_with_source (c : Commit.t) (o r : option string) :
  typed c -> typed (Commit.with_source c o r).
Proof. intros (t & Ht & H). exists t. simpl. split; [exact Ht|exact H]. Qed.

Lemma normalise_typed (options : GetCommitsOptions) (m : string) (c : Commit.t) :
  (forall raw c0, parse raw = Ok c0 -> Commit.subType c0 = None) ->
  normalise valid parse options m = Ok c -> typed c.
Proof.
  intros Hparse. unfold normalise. intros Hc.
  destruct (parse m) as [c0|] eqn:H0; simpl in Hc; [|discriminate].
  destruct (truthy (Commit.type c0) && _) in Hc; simpl in Hc.
  - destruct (parse (replace_first _ _ _)) as [c1|] eqn:H1; simpl in Hc; [|discriminate].
    destruct (parseCommitMessage _ _ _ _ _) as [c2|] eqn:H2; simpl in Hc; [|discriminate].
    inversion Hc. apply typed_with_source.
    apply (parseCommitMessage_typed _ _ _ _ (Hparse _ _ H1 : Commit.subType
             (Commit.with_source (Commit.with_type c1 None (Commit.subType c1)) _ _) = None)
             H2).
  - destruct (parseCommitMessage _ _ _ _ _) as [c2|] eqn:H2; simpl in Hc; [|discriminate].
    inversion Hc. apply typed_with_source.
    apply (parseCommitMessage_typed _ _ _ _ (Hparse _ _ H0 : Commit.subType
             (Commit.with_source
                (Commit.with_type c0 (Commit.type c0) (Commit.subType c0)) _ _) = None)
             H2).
Qed.

Lemma collect_typed (options : GetCommitsOptions) (messages : list string)
      (commits : list Commit.t) (groups : JsObject.t (list Commit.t)) :
  (forall raw c0, parse raw = Ok c0 -> Commit.subType c0 = None) ->
  Forall typed commits ->
  Forall typed (fst (fst (collect valid parse options messages commits groups))).
Proof.
  intros Hparse. revert commits groups.
  induction messages as [|m messages IH]; intros commits groups Hcommits; simpl.
  - exact Hcommits.
  - destruct (String.eqb m ""); [apply IH; exact Hcommits|].
    destruct (normalise valid parse options m) as [c|] eqn:Hc; [|exact Hcommits].
    assert (Forall typed (commits ++ [c])) as Hmore.
    { apply List.Forall_app. split; [exact Hcommits|].
      constructor; [|constructor]. apply (normalise_typed options m c Hparse Hc). }
    destruct (push_group (group_key_of c) c groups); [apply IH|]; exact Hmore.
Qed.

(** X8: with a parser whose records carry no subtype, every commit
    [getCommits] returns has a type, be it the empty string, and has a
    subtype, not empty, exactly when its type is ["feat"]. A feature thus
    goes to a bucket named after type and subtype, and no bucket is keyed
    ["feat"]. *)
Theorem getCommits_typed_commits
        (messages : list string) (options : GetCommitsOptions) :
  (forall raw c, parse raw = Ok c -> Commit.subType c = None) ->
  Forall typed (commits (getCommits valid parse messages options))
  /\ JsObject.get "feat" (groups (getCommits valid parse messages options)) = None.
Proof.
  intros Hparse.
  assert (Forall typed (commits (getCommits valid parse messages options))) as Htyped.
  { pose proof (collect_typed options messages [] JsObject.empty Hparse (List.Forall_nil _)) as H.
    unfold getCommits.
    destruct (collect valid parse options messages [] JsObject.empty) as [[cs gs] [e|]];
      exact H. }
  split; [exact Htyped|].
  pose proof (getCommits_bucket messages options "feat") as Hsplit.
  destruct (JsObject.get "feat" (groups (getCommits valid parse messages options)))
    as [bucket|] eqn:Hget; [|reflexivity].
  exfalso.
  assert (bucket <> []) as Hne.
  { clear Hsplit Htyped. revert Hget. unfold getCommits.
    destruct (collect_state options messages [] JsObject.empty
                            (fun k (H : In k []) => match H with end))
      as (bucketed & stray & kept & rest & e & Hcollect & _).
    rewrite Hcollect. simpl app.
    assert (forall cs gs, (forall l, JsObject.get "feat" gs = Some l -> l <> []) ->
              forall l, JsObject.get "feat" (grouped cs gs) = Some l -> l <> []) as Hgrouped.
    { unfold grouped. induction cs as [|c cs IH]; intros gs Hgs; simpl; [exact Hgs|].
      apply IH. intros l. unfold JsObject.append.
      destruct (String.eqb_spec (group_key_of c) "feat") as [->|Hk].
      - rewrite get_set_eq. intros H. inversion H.
        destruct (default [] (JsObject.get "feat" gs)); discriminate.
      - rewrite (get_set_ne _ "feat") by exact Hk. apply Hgs. }
    destruct e; simpl.
    - apply Hgrouped. simpl. discriminate.
    - rewrite get_sorted_entries by (apply grouped_NoDup; constructor).
      apply Hgrouped. simpl. discriminate. }
  destruct bucket as [|c bucket]; [contradiction|].
  assert (In c (List.filter (fun c => String.eqb (group_key_of c) "feat"
                                      && negb (JsObject.inherited "feat"))
                            (commits (getCommits valid parse messages options)))) as Hin
      by (rewrite <- Hsplit; left; reflexivity).
  apply filter_In in Hin as [Hin Hkey].
  apply andb_prop in Hkey as [Hkey _].
  rewrite List.Forall_forall in Htyped.
  apply (typed_key c (Htyped c Hin)). apply String.eqb_eq. exact Hkey.
Qed.

End Grouping.

Lemma HeaderParser_no_subType (raw : string) (c : Commit.t) :
  HeaderParser.parse raw = Ok c -> Commit.subType c = None.
Proof.
  unfold HeaderParser.parse. destruct (HeaderParser.blank raw); [discriminate|].
  destruct (HeaderParser.match_header _) as [[[[? ?] ?] ?]|]; intros H; inversion H;
    reflexivity.
Qed.

(** Two features and a fix: no bucket ["feat"], the features under
    ["feat_add"] and ["feat_change"]. *)
Lemma getCommits_typed_commits_witness :
  Forall typed
         (commits (getCommits Semver.valid HeaderParser.parse
                              ["feat: add b"; "fix: a bug"; "feat: rework c"] default_options))
  /\ JsObject.get "feat"
       (groups (getCommits Semver.valid HeaderParser.parse
                           ["feat: add b"; "fix: a bug"; "feat: rework c"] default_options))
     = None.
Proof.
  apply (getCommits_typed_commits Semver.valid HeaderParser.parse
           ["feat: add b"; "fix: a bug"; "feat: rework c"] default_options).
  exact HeaderParser_no_subType.
Defined.

(** ** getNotices, once more *)

(** X11: [getNotices] throws exactly when the commit has a note and the
    check is a [RegExp] or a string between slashes. One case is left out,
    where the outcome rests on whether the string compiles: a single note
    and a string between slashes. With a second note it does not matter: the
    constructor throws at the first note, or [startsWith] at the second. *)
Theorem getNotices_throws_exactly
        (commit : Commit.t) (label : string) (check : option check) (breakingLabel : string) :
  rests_on_compiling commit label check = false ->
  (exists e, getNotices commit label check breakingLabel = Throw e)
  <-> exists note rest,
        Commit.notes commit = Some (note :: rest)
        /\ match default (Literal label) check with
           | Pattern _ => True
           | Literal s => str_startsWith "/" s && str_endsWith "/" s = true
           end.
Proof.
  unfold getNotices, rests_on_compiling.
  replace (match check with Some c => c | None => Literal label end)
    with (default (Literal label) check) by (destruct check; reflexivity).
  destruct (Commit.notes commit) as [[|note rest]|]; simpl.
  - intros _. split.
    + intros [e He].
      destruct (String.eqb label breakingLabel && truthy (Commit.breaking commit));
        discriminate.
    + intros (n & r & H & _). discriminate.
  - destruct (default (Literal label) check) as [s|r].
    + destruct (str_startsWith "/" s && str_endsWith "/" s) eqn:Hslash.
      * destruct rest as [|note2 rest]; [discriminate|]. intros _.
        split; [intros _; exists note, (note2 :: rest); auto|]. intros _.
        destruct (RegExp.create s) as [r|]; simpl; eexists; reflexivity.
      * intros _. simpl. rewrite (filter_notes_literal s rest Hslash). simpl.
        split.
        -- intros [e He].
           destruct (negb _) in He; [discriminate|].
           destruct (String.eqb label breakingLabel && truthy (Commit.breaking commit));
             discriminate.
        -- intros (n & r0 & _ & H). discriminate.
    + intros _. split; [|intros _; eexists; reflexivity].
      intros _. exists note, rest. split; [reflexivity|exact I].
  - intros _. split.
    + intros [e He].
      destruct (String.eqb label breakingLabel && truthy (Commit.breaking commit));
        discriminate.
    + intros (n & r & H & _). discriminate.
Qed.

(** Two notes and a check between slashes. *)
Lemma getNotices_throws_exactly_witness :
  rests_on_compiling two_notes "Notes" (Some (Literal "/x/")) = false
  /\ ((exists e, getNotices two_notes "Notes" (Some (Literal "/x/")) "BREAKING CHANGE"
                 = Throw e)
      <-> exists note rest,
            Commit.notes two_notes = Some (note :: rest)
            /\ str_startsWith "/" "/x/" && str_endsWith "/" "/x/" = true).
Proof.
  split; [reflexivity|].
  apply (getNotices_throws_exactly two_notes "Notes" (Some (Literal "/x/")) "BREAKING CHANGE").
  reflexivity.
Defined.

(** ** buildChangelog, once more *)

Section Rendering.

Variable coerce : bool -> string -> option Semver.SemVer.

Lemma read_write_options (l : loc) (o : Options.t) (h : heap) :
  read_options (write_options l o h) l = o.
Proof. unfold read_options, write_options. simpl. rewrite lookup_insert_eq. reflexivity. Qed.

Lemma read_write_notice (n : loc) (k : NoticeOptions.t) (h : heap) :
  read_notice (write_notice n k h) n = k.
Proof. unfold read_notice, write_notice. simpl. rewrite lookup_insert_eq. reflexivity. Qed.

Lemma read_notice_write_options (l n : loc) (o : Options.t) (h : heap) :
  read_notice (write_options l o h) n = read_notice h n.
Proof. reflexivity. Qed.

Lemma set_defaults_none (h : heap) :
  set_defaults None h
  = (fresh (dom (options_at h)),
     {| options_at :=
          <[fresh (dom (options_at h)) :=
              filled_options Options.empty (fresh (dom (notice_at h)))]> (options_at h);
        notice_at :=
          <[fresh (dom (notice_at h)) := filled_notice NoticeOptions.empty]> (notice_at h) |}).
Proof.
  unfold set_defaults. rewrite !read_write_options. cbn [Options.notice Options.empty].
  rewrite read_notice_write_options, read_write_notice.
  unfold write_notice, write_options. cbn [options_at notice_at].
  rewrite !insert_insert_eq. reflexivity.
Qed.

Lemma settings_none (h : heap) :
  settings_of (snd (set_defaults None h)) (fst (set_defaults None h)) = default_settings.
Proof.
  rewrite set_defaults_none. cbn [fst snd].
  unfold settings_of, read_options, read_notice. cbn [options_at notice_at].
  rewrite lookup_insert_eq. simpl. rewrite lookup_insert_eq. reflexivity.
Qed.

Lemma buildChangelog_unfold_any (releases : list (string * Release.t))
      (options : option loc) (h : heap) :
  buildChangelog coerce releases options h
  = (snd (set_defaults options h),
     let o := settings_of (snd (set_defaults options h)) (fst (set_defaults options h)) in
     render coerce o releases (if onlyBody o then [] else ["# Changelog"; ""])).
Proof.
  unfold buildChangelog. destruct (set_defaults options h) as [l' h']. reflexivity.
Qed.

(** X12: called without options, [buildChangelog] leaves every object that
    exists as it is; the defaults go to objects of its own. *)
Theorem buildChangelog_without_options_frame
        (releases : list (string * Release.t)) (h : heap) :
  (forall l o, options_at h !! l = Some o ->
               options_at (fst (buildChangelog coerce releases None h)) !! l = Some o)
  /\ (forall n k, notice_at h !! n = Some k ->
                  notice_at (fst (buildChangelog coerce releases None h)) !! n = Some k).
Proof.
  rewrite buildChangelog_unfold_any, set_defaults_none. simpl. split.
  - intros l o Hl. rewrite lookup_insert_ne; [exact Hl|].
    intros <-. pose proof (is_fresh (dom (options_at h))) as Hfresh.
    apply Hfresh. apply elem_of_dom. eauto.
  - intros n k Hn. rewrite lookup_insert_ne; [exact Hn|].
    intros <-. pose proof (is_fresh (dom (notice_at h))) as Hfresh.
    apply Hfresh. apply elem_of_dom. eauto.
Qed.

Lemma set_defaults_again (l : loc) (h : heap) :
  set_defaults (Some l) (snd (set_defaults (Some l) h)) = set_defaults (Some l) h.
Proof.
  rewrite (set_defaults_caller l h). cbn [snd]. cbv zeta.
  set (o := read_options h l). set (n := notice_target h o).
  set (h1 := {| options_at := _; notice_at := _ |}).
  rewrite (set_defaults_caller l h1). cbv zeta.
  assert (read_options h1 l = filled_options o n) as Ho.
  { unfold read_options, h1. cbn [options_at]. rewrite lookup_insert_eq. reflexivity. }
  rewrite Ho.
  change (notice_target h1 (filled_options o n)) with n.
  assert (read_notice h1 n = filled_notice (read_notice h n)) as Hk.
  { unfold read_notice at 1. unfold h1. cbn [notice_at].
    rewrite lookup_insert_eq. reflexivity. }
  rewrite Hk. unfold h1. cbn [options_at notice_at].
  rewrite !insert_insert_eq. reflexivity.
Qed.

(** X13: a second call with the same options object finds the defaults in
    place: it changes nothing in the heap, and for the same releases it
    returns the same lines. *)
Theorem buildChangelog_second_call
        (releases releases' : list (string * Release.t)) (l : loc) (h : heap) :
  fst (buildChangelog coerce releases' (Some l)
                      (fst (buildChangelog coerce releases (Some l) h)))
  = fst (buildChangelog coerce releases (Some l) h)
  /\ buildChangelog coerce releases (Some l)
                    (fst (buildChangelog coerce releases (Some l) h))
     = buildChangelog coerce releases (Some l) h.
Proof.
  rewrite !buildChangelog_unfold_any. cbn [fst snd].
  rewrite !set_defaults_again. split; reflexivity.
Qed.

Lemma settings_effective_onlyFirst (options : option loc) (h : heap) :
  onlyFirst (settings_of (snd (set_defaults options h)) (fst (set_defaults options h)))
  = effective_onlyFirst options h.
Proof.
  destruct options as [l|].
  - apply settings_onlyFirst.
  - rewrite settings_none. reflexivity.
Qed.

Lemma render_app (o : Settings) (a b : list (string * Release.t)) (lines : list string) :
  onlyFirst o = false ->
  render coerce o (a ++ b) lines = bind (render coerce o a lines) (render coerce o b).
Proof.
  intros Ho. revert lines.
  induction a as [|[version release] a IH]; intros lines; [reflexivity|].
  cbn [app render].
  destruct (Release.commits release) as [buckets|]; [|reflexivity].
  destruct (negb (List.length (JsObject.keys buckets) =? 0)%nat); cbn [bind].
  - destruct (release_lines coerce o version release buckets); cbn [bind]; [|reflexivity].
    rewrite Ho. apply IH.
  - rewrite Ho. apply IH.
Qed.

(** X14: unless [onlyFirst] is set, a release without commit bucket adds
    nothing: the lines are those of the map without it. *)
Theorem buildChangelog_skips_empty_release
        (before after : list (string * Release.t)) (version : string) (release : Release.t)
        (options : option loc) (h : heap) :
  effective_onlyFirst options h = false ->
  Release.commits release = Some JsObject.empty ->
  buildChangelog coerce (before ++ (version, release) :: after) options h
  = buildChangelog coerce (before ++ after) options h.
Proof.
  intros Hfirst Hempty. rewrite !buildChangelog_unfold_any. f_equal. cbv zeta.
  pose proof (settings_effective_onlyFirst options h) as Ho. rewrite Hfirst in Ho.
  set (o := settings_of _ _) in *. clearbody o.
  rewrite !render_app by exact Ho.
  destruct (render coerce o before _) as [lines|]; [|reflexivity].
  cbn [bind render]. rewrite Hempty. cbn. rewrite Ho. reflexivity.
Qed.

(** X15: with the default options, a commit of a rendered type that carries
    a footer note makes [buildChangelog] throw: the default check is a
    [RegExp], and [getNotices] throws on it. *)
Theorem buildChangelog_default_options_note_throws
        (version : string) (release : Release.t) (rest : list (string * Release.t))
        (type : string) (commit : Commit.t) (more : list Commit.t)
        (buckets : JsObject.t (list Commit.t)) (note : Note.t) (notes : list Note.t)
        (h : heap) :
  Release.commits release = Some ((type, commit :: more) :: buckets) ->
  includes ["feat_add"; "feat_change"; "feat_remove"; "fix"] type = true ->
  Commit.notes commit = Some (note :: notes) ->
  snd (buildChangelog coerce ((version, release) :: rest) None h) = Throw TypeError.
Proof.
  intros Hcommits Htype Hnotes.
  rewrite buildChangelog_unfold_any. cbv zeta. rewrite settings_none.
  cbn [snd render onlyBody default_settings]. rewrite Hcommits.
  cbn [JsObject.keys map List.length Nat.eqb negb bind].
  unfold release_lines.
  cbn [keys default_settings default_keys JsObject.keys map List.length Nat.eqb negb].
  unfold collect_notices.
  cbn [JsObject.entries foldM all default_settings types orb fst snd].
  change (JsObject.keys default_types)
    with ["feat_add"; "feat_change"; "feat_remove"; "fix"].
  rewrite Htype. cbn [foldM keys default_settings default_keys JsObject.entries fst snd].
  unfold getNotices. rewrite Hnotes. reflexivity.
Qed.

End Rendering.

Lemma buildChangelog_skips_empty_release_witness :
  buildChangelog Semver.coerce ([("2.0.0", empty_release)] ++ ("1.5.0", empty_release)
                                  :: [("1.0.0", fix_release)])
                 None {| options_at := ∅; notice_at := ∅ |}
  = buildChangelog Semver.coerce ([("2.0.0", empty_release)] ++ [("1.0.0", fix_release)])
                   None {| options_at := ∅; notice_at := ∅ |}.
Proof.
  apply (buildChangelog_skips_empty_release Semver.coerce [("2.0.0", empty_release)]
           [("1.0.0", fix_release)] "1.5.0" empty_release None).
  - reflexivity.
  - reflexivity.
Defined.

Lemma buildChangelog_default_options_note_throws_witness :
  snd (buildChangelog Semver.coerce
         [("1.0.0", Release.make (Some "1.0.0") None None None None None None
                      (Some [("feat_add", [noted "BREAKING CHANGE" "the option is renamed"])]))]
         None {| options_at := ∅; notice_at := ∅ |})
  = Throw TypeError.
Proof.
  apply (buildChangelog_default_options_note_throws Semver.coerce "1.0.0"
           (Release.make (Some "1.0.0") None None None None None None
              (Some [("feat_add", [noted "BREAKING CHANGE" "the option is renamed"])]))
           [] "feat_add" (noted "BREAKING CHANGE" "the option is renamed") [] []
           (Note.make "BREAKING CHANGE" "the option is renamed") []).
  - reflexivity.
  - reflexivity.
  - reflexivity.
Defined.

(** ** groupReleases, once more *)

Section Buckets.

Variable coerce : bool -> string -> option Semver.SemVer.
Variable groupBy : string.

Lemma get_put_release (groups : JsObject.t Group.t) (version : string) (release : Release.t)
      (group : string) :
  JsObject.get group (put_release coerce groupBy groups (version, release))
  = if match group_of coerce groupBy version with
       | Some g => String.eqb g group
       | None => false
       end
    then Some (extend (default (Group.make group [] [] [] JsObject.empty)
                               (JsObject.get group groups)) release)
    else JsObject.get group groups.
Proof.
  unfold put_release. cbn [fst snd].
  destruct (group_of coerce groupBy version) as [g|]; [|reflexivity].
  destruct (String.eqb_spec g group) as [->|Hne].
  - rewrite get_set_eq. reflexivity.
  - apply get_set_ne. exact Hne.
Qed.

Lemma get_fold_put_release (releases : list (string * Release.t))
      (groups : JsObject.t Group.t) (group : string) :
  JsObject.get group (fold_left (put_release coerce groupBy) releases groups)
  = match contributing coerce groupBy group releases with
    | [] => JsObject.get group groups
    | members =>
        Some (fold_left extend members
                        (default (Group.make group [] [] [] JsObject.empty)
                                 (JsObject.get group groups)))
    end.
Proof.
  revert groups.
  induction releases as [|[version release] releases IH]; intros groups; [reflexivity|].
  cbn [fold_left]. rewrite IH, get_put_release.
  unfold contributing. cbn [List.filter fst].
  destruct (match group_of coerce groupBy version with
            | Some g => String.eqb g group
            | None => false
            end); [|reflexivity].
  cbn [map snd fold_left].
  destruct (map snd (List.filter _ releases)); reflexivity.
Qed.

Lemma merged_app (entries more : list (string * list Commit.t))
      (commits : JsObject.t (list Commit.t)) :
  merged (entries ++ more) commits = merged more (merged entries commits).
Proof. unfold merged. apply fold_left_app. Qed.

Lemma fold_extend (members : list Release.t) (g : Group.t) :
  fold_left extend members g
  = Group.make (Group.tag g)
               (Group.name g ++ truthy_strings (map Release.name members))
               (Group.date g ++ truthy_strings (map Release.date members))
               (Group.messages g ++ flat_map (fun r => default [] (Release.messages r)) members)
               (merged (flat_map (fun r => JsObject.entries
                                             (default JsObject.empty (Release.commits r)))
                                 members)
                       (Group.commits g)).
Proof.
  revert g. induction members as [|r members IH]; intros g.
  - simpl. rewrite !app_nil_r. destruct g; reflexivity.
  - cbn [fold_left]. rewrite IH. unfold extend, truthy_strings.
    cbn [Group.tag Group.name Group.date Group.messages Group.commits map flat_map].
    rewrite <- !app_assoc, merged_app. reflexivity.
Qed.

(** X16: as long as no release that goes to a bucket has a commit bucket
    under a type key that names a member of [Object.prototype],
    [groupReleases] returns; if one has, it throws a [TypeError]. In what it
    returns a bucket exists when some release goes to it, and is then made
    of the releases that do, in iteration order: its tag is its key, its
    names and dates are the non-empty ones joined by a comma (no name at all
    gives [null], no date the empty string), its messages are theirs one
    after the other, and its commits are theirs merged by type key. *)
Theorem groupReleases_bucket (releases : list (string * Release.t)) :
  if poisoned coerce groupBy releases
  then groupReleases coerce releases groupBy = Throw TypeError
  else exists buckets,
      groupReleases coerce releases groupBy = Ok buckets
      /\ forall group,
          JsObject.get group buckets
          = match contributing coerce groupBy group releases with
            | [] => None
            | members => Some (bucket_of group members)
            end.
Proof.
  rewrite groupReleases_put.
  destruct (poisoned coerce groupBy releases); [reflexivity|].
  eexists. split; [reflexivity|]. intros group.
  rewrite get_close, get_fold_put_release.
  destruct (contributing coerce groupBy group releases) as [|r members]; [reflexivity|].
  cbn [option_map JsObject.get JsObject.empty default]. rewrite fold_extend. reflexivity.
Qed.

End Buckets.

Example groupReleases_bucket_names :
  exists buckets,
    groupReleases Semver.coerce three_releases "minor" = Ok buckets
    /\ option_map Release.name (JsObject.get "1.2" buckets)
       = Some (Some "Release 1, Release 2").
Proof. eexists. split; vm_compute; reflexivity. Qed.

(** ** createSortGroupKeys *)

Section SortGroupKeys.

Context {V : Type}.

Lemma keys_fold_set {W : Type} (k : string) (l : list (string * W)) (o : JsObject.t W) :
  In k (JsObject.keys (fold_left (fun o e => JsObject.set (fst e) (snd e) o) l o))
  <-> In k (map fst l) \/ In k (JsObject.keys o).
Proof.
  revert o. induction l as [|[k0 v0] l IH]; intros o; simpl.
  - tauto.
  - rewrite IH, keys_set. simpl. intuition.
Qed.

Lemma includes_In (l : list string) (x : string) :
  includes l x = true <-> In x l.
Proof.
  unfold includes. rewrite existsb_exists. split.
  - intros [y [Hy Heq]]. apply String.eqb_eq in Heq. subst. exact Hy.
  - intros H. exists x. split; [exact H|apply String.eqb_refl].
Qed.

Lemma fst_combine_seq (l : list string) (i : nat) :
  map fst (combine l (map Z.of_nat (seq i (List.length l)))) = l.
Proof.
  revert i. induction l as [|x l IH]; intros i; simpl; [reflexivity|].
  rewrite IH. reflexivity.
Qed.

Lemma get_fromEntries_none {W : Type} (k : string) (l : list (string * W)) :
  JsObject.get k (JsObject.fromEntries l) = None <-> ~ In k (map fst l).
Proof.
  pose proof (get_keys k (JsObject.fromEntries l)) as Hkeys.
  pose proof (keys_fold_set k l (JsObject.empty : JsObject.t W)) as Hfold.
  fold (JsObject.fromEntries l) in Hfold. simpl in Hfold.
  destruct (JsObject.get k (JsObject.fromEntries l)) eqn:Hget.
  - split; [discriminate|]. intros Hin. exfalso. apply Hin.
    assert (In k (JsObject.keys (JsObject.fromEntries l))) as Hk
        by (apply Hkeys; discriminate).
    apply Hfold in Hk as [Hk|[]]. exact Hk.
  - split; [|reflexivity]. intros _ Hin.
    assert (In k (JsObject.keys (JsObject.fromEntries l))) as Hk
        by (apply Hfold; left; exact Hin).
    apply Hkeys in Hk. apply Hk. reflexivity.
Qed.

Lemma typeOrder_listed (order : list string) (k : string) :
  JsObject.get k (JsObject.fromEntries
                    (combine order (map Z.of_nat (seq 0 (List.length order))))) = None
  <-> includes order k = false.
Proof.
  rewrite get_fromEntries_none, fst_combine_seq.
  rewrite <- Bool.not_true_iff_false, includes_In. reflexivity.
Qed.

Variable types : option (list string).

Lemma read_listed (e : string * V) :
  listed types e = true ->
  exists x,
    JsObject.read (fst e)
      (JsObject.fromEntries
         (combine (match types with Some t => t | None => validTypes end)
                  (map Z.of_nat
                       (seq 0 (List.length
                                 (match types with Some t => t | None => validTypes end))))))
    = JsObject.Own x.
Proof.
  unfold listed, JsObject.read. intros He.
  destruct (JsObject.get (fst e) _) as [x|] eqn:Hget; [exists x; reflexivity|].
  apply typeOrder_listed in Hget. congruence.
Qed.

Lemma read_unlisted (e : string * V) :
  listed types e = false ->
  JsObject.inherited (fst e) = false ->
  JsObject.read (fst e)
    (JsObject.fromEntries
       (combine (match types with Some t => t | None => validTypes end)
                (map Z.of_nat
                     (seq 0 (List.length
                               (match types with Some t => t | None => validTypes end))))))
  = JsObject.Absent.
Proof.
  unfold listed, JsObject.read. intros He Hkey.
  apply typeOrder_listed in He. rewrite He, Hkey. reflexivity.
Qed.

(** An entry that is not listed and whose key [typeOrder] does not
    inherit. *)
Lemma createSortGroupKeys_listed_unlisted (a b : string * V) :
  listed types a = true -> listed types b = false -> JsObject.inherited (fst b) = false ->
  createSortGroupKeys types a b = (-1)%Z.
Proof.
  intros Ha Hb Hkey. unfold createSortGroupKeys. cbv zeta.
  destruct (read_listed a Ha) as [x ->]. rewrite (read_unlisted b Hb Hkey). reflexivity.
Qed.

Lemma createSortGroupKeys_unlisted_listed (a b : string * V) :
  listed types a = false -> JsObject.inherited (fst a) = false -> listed types b = true ->
  createSortGroupKeys types a b = 1%Z.
Proof.
  intros Ha Hkey Hb. unfold createSortGroupKeys. cbv zeta.
  destruct (read_listed b Hb) as [x ->]. rewrite (read_unlisted a Ha Hkey). reflexivity.
Qed.

Lemma createSortGroupKeys_unlisted (a b : string * V) :
  listed types a = false -> JsObject.inherited (fst a) = false ->
  listed types b = false -> JsObject.inherited (fst b) = false ->
  createSortGroupKeys types a b = 0%Z.
Proof.
  intros Ha Hka Hb Hkb. unfold createSortGroupKeys. cbv zeta.
  rewrite (read_unlisted a Ha Hka), (read_unlisted b Hb Hkb). reflexivity.
Qed.

Lemma sort_insert_listed (x : string * V) (front back : list (string * V)) :
  listed types x = true ->
  List.Forall (fun e => listed types e = false /\ JsObject.inherited (fst e) = false) back ->
  sort_insert (createSortGroupKeys types) x (front ++ back)
  = sort_insert (createSortGroupKeys types) x front ++ back.
Proof.
  intros Hx Hback. induction front as [|y front IH]; simpl.
  - destruct back as [|u back]; [reflexivity|]. simpl.
    inversion Hback as [|? ? [Hu Hku] ?]; subst.
    rewrite createSortGroupKeys_listed_unlisted by assumption. reflexivity.
  - destruct (createSortGroupKeys types x y <=? 0)%Z; [reflexivity|].
    rewrite IH. reflexivity.
Qed.

Lemma sort_insert_unlisted (x : string * V) (front back : list (string * V)) :
  listed types x = false ->
  JsObject.inherited (fst x) = false ->
  List.Forall (fun e => listed types e = true) front ->
  List.Forall (fun e => listed types e = false /\ JsObject.inherited (fst e) = false) back ->
  sort_insert (createSortGroupKeys types) x (front ++ back) = front ++ x :: back.
Proof.
  intros Hx Hkx Hfront Hback. induction Hfront as [|y front Hy Hfront IH]; simpl.
  - destruct back as [|u back]; [reflexivity|]. simpl.
    inversion Hback as [|? ? [Hu Hku] ?]; subst.
    rewrite createSortGroupKeys_unlisted by assumption. reflexivity.
  - rewrite createSortGroupKeys_unlisted_listed by assumption. simpl.
    rewrite IH. reflexivity.
Qed.

(** X17: when no key names a member of [Object.prototype], sorting entries
    with the comparator of [createSortGroupKeys] puts the entries whose key
    is a type of the list first, sorted among themselves, and leaves the
    others behind them in the order they had. *)
Theorem createSortGroupKeys_listed_first (entries : list (string * V)) :
  Forall (fun e => JsObject.inherited (fst e) = false) entries ->
  js_sort (createSortGroupKeys types) entries
  = js_sort (createSortGroupKeys types) (List.filter (listed types) entries)
    ++ List.filter (fun e => negb (listed types e)) entries.
Proof.
  intros Hkeys.
  induction Hkeys as [|x entries Hx Hkeys IH]; [reflexivity|].
  cbn [js_sort List.filter]. rewrite IH.
  assert (List.Forall (fun e => listed types e = false /\ JsObject.inherited (fst e) = false)
                      (List.filter (fun e => negb (listed types e)) entries)) as Hback.
  { apply List.Forall_forall. intros e He. apply filter_In in He as [Hin He].
    rewrite List.Forall_forall in Hkeys.
    split; [apply Bool.negb_true_iff; exact He|apply Hkeys; exact Hin]. }
  destruct (listed types x) eqn:Hlisted; cbn [negb js_sort].
  - apply sort_insert_listed; assumption.
  - apply sort_insert_unlisted; [assumption|assumption| |assumption].
    apply List.Forall_forall. intros e He.
    apply (Permutation_in _ (js_sort_perm (createSortGroupKeys types) _)) in He.
    apply filter_In in He as [_ He]. exact He.
Qed.

End SortGroupKeys.

Lemma createSortGroupKeys_listed_first_witness :
  js_sort (createSortGroupKeys None)
          [("zeta", 1%nat); ("fix", 2%nat); ("alpha", 3%nat); ("feat", 4%nat)]
  = js_sort (createSortGroupKeys None)
            (List.filter (listed None)
                         [("zeta", 1%nat); ("fix", 2%nat); ("alpha", 3%nat); ("feat", 4%nat)])
    ++ List.filter (fun e => negb (listed None e))
                   [("zeta", 1%nat); ("fix", 2%nat); ("alpha", 3%nat); ("feat", 4%nat)].
Proof.
  apply (createSortGroupKeys_listed_first None
           [("zeta", 1%nat); ("fix", 2%nat); ("alpha", 3%nat); ("feat", 4%nat)]).
  repeat constructor.
Defined.

Example createSortGroupKeys_listed_first_keys :
  map fst (js_sort (createSortGroupKeys None)
                   [("zeta", 1); ("fix", 2); ("alpha", 3); ("feat", 4)])
  = ["feat"; "fix"; "zeta"; "alpha"].
Proof. vm_compute. reflexivity. Qed.

(** ** getRepoData *)

Section RepoDataFacts.

Context {A : Type}.

Lemma push_items_firstn (limit : Z) (data items : list A) :
  (List.length items < Z.to_nat (Z.max 1 limit))%nat ->
  push_items limit data items
  = if (Z.to_nat (Z.max 1 limit) <=? List.length items + List.length data)%nat
    then inl (firstn (Z.to_nat (Z.max 1 limit)) (items ++ data))
    else inr (items ++ data).
Proof.
  revert items. induction data as [|item data IH]; intros items Hlen.
  - simpl. rewrite app_nil_r.
    destruct (Nat.leb_spec (Z.to_nat (Z.max 1 limit)) (List.length items + 0)); [lia|].
    reflexivity.
  - cbn [push_items].
    assert (List.length (items ++ [item]) = S (List.length items)) as Hlen'.
    { rewrite length_app. simpl. lia. }
    rewrite Hlen'.
    replace (items ++ item :: data) with ((items ++ [item]) ++ data)
      by (rewrite <- app_assoc; reflexivity).
    destruct (Z.leb_spec limit (Z.of_nat (S (List.length items)))) as [Hle|Hgt].
    + assert (Z.to_nat (Z.max 1 limit) = S (List.length items)) as -> by lia.
      destruct (Nat.leb_spec (S (List.length items))
                             (List.length items + List.length (item :: data)));
        [|simpl in *; lia].
      rewrite firstn_app, Hlen', Nat.sub_diag, firstn_O, app_nil_r.
      rewrite <- Hlen', firstn_all. reflexivity.
    + rewrite IH by lia. rewrite Hlen'. cbn [List.length].
      replace (List.length items + S (List.length data))%nat
        with (S (List.length items) + List.length data)%nat by lia.
      reflexivity.
Qed.

Lemma read_pages_firstn (limit per_page : Z) (pages : list (list A)) (items : list A) :
  (List.length items < Z.to_nat (Z.max 1 limit))%nat ->
  read_pages limit per_page pages items
  = firstn (Z.to_nat (Z.max 1 limit)) (items ++ concat (through_short per_page pages)).
Proof.
  revert items. induction pages as [|data pages IH]; intros items Hlen.
  - simpl. rewrite app_nil_r, firstn_all2 by lia. reflexivity.
  - cbn [read_pages through_short]. rewrite push_items_firstn by exact Hlen.
    destruct (Nat.leb_spec (Z.to_nat (Z.max 1 limit))
                           (List.length items + List.length data)) as [Hle|Hgt].
    + assert (forall rest : list A,
                 firstn (Z.to_nat (Z.max 1 limit)) (items ++ data ++ rest)
                 = firstn (Z.to_nat (Z.max 1 limit)) (items ++ data)) as Hcut.
      { intros rest. rewrite app_assoc, firstn_app.
        replace (Z.to_nat (Z.max 1 limit) - List.length (items ++ data))%nat with 0%nat
          by (rewrite length_app; lia).
        rewrite firstn_O, app_nil_r. reflexivity. }
      destruct (Z.of_nat (List.length data) <? per_page)%Z; cbn [concat];
        rewrite Hcut; reflexivity.
    + destruct (Z.of_nat (List.length data) <? per_page)%Z; cbn [concat].
      * rewrite app_nil_r, firstn_all2 by (rewrite length_app; lia). reflexivity.
      * rewrite IH by (rewrite length_app; lia). rewrite app_assoc. reflexivity.
Qed.

(** X18: [getRepoData] returns the items of the pages in order, up to the
    first page that is shorter than [per_page], and cut at [limit] items;
    a limit below one still lets one item through. Pages behind a short
    page, or behind the limit, have no part in the result. *)
Theorem getRepoData_items (pages : list (list A)) (options : GetRepoDataOptions.t) :
  getRepoData pages options
  = firstn (Z.to_nat (Z.max 1 (repo_limit options)))
           (concat (through_short (repo_per_page options) pages)).
Proof.
  unfold getRepoData. rewrite read_pages_firstn by (simpl; lia). reflexivity.
Qed.

End RepoDataFacts.

Example getRepoData_stops_at_short_page :
  getRepoData [[1; 2]; [3]; [4; 5]]
              (GetRepoDataOptions.make None (Some (Params.make (Some 2%Z))))
  = [1; 2; 3].
Proof. reflexivity. Qed.

Example getRepoData_limit_zero :
  getRepoData [[1; 2]; [3]] (GetRepoDataOptions.make (Some 0%Z) None) = [1].
Proof. reflexivity. Qed.

(** ** getBooleanInput *)

Lemma map_string_app (f : ascii -> ascii) (a b : string) :
  map_string f (a +:+ b) = map_string f a +:+ map_string f b.
Proof.
  induction a as [|c a IH]; [reflexivity|].
  rewrite append_cons. simpl. rewrite IH, append_cons. reflexivity.
Qed.

Lemma toLowerCase_app (a b : string) :
  toLowerCase (a +:+ b) = toLowerCase a +:+ toLowerCase b.
Proof. apply map_string_app. Qed.

Lemma lower_upper_char (c : ascii) : lower_char (upper_char c) = lower_char c.
Proof.
  destruct c as [[] [] [] [] [] [] [] []]; vm_compute; reflexivity.
Qed.

Lemma toLowerCase_toUpperCase (s : string) : toLowerCase (toUpperCase s) = toLowerCase s.
Proof.
  unfold toLowerCase, toUpperCase.
  induction s as [|c s IH]; simpl; [reflexivity|].
  rewrite lower_upper_char, IH. reflexivity.
Qed.

Lemma lower_space (c : ascii) : is_space c = true -> lower_char c = c.
Proof.
  destruct c as [[] [] [] [] [] [] [] []]; vm_compute; intros H;
    try reflexivity; discriminate.
Qed.

Lemma toLowerCase_blank (p : string) : blank p = true -> toLowerCase p = p.
Proof.
  unfold blank, toLowerCase, chars.
  induction p as [|c p IH]; simpl; [reflexivity|].
  intros H. apply andb_prop in H as [Hc Hp].
  rewrite (lower_space c Hc), (IH Hp). reflexivity.
Qed.

Lemma trimStart_blank_app (p s : string) :
  blank p = true -> trimStart (p +:+ s) = trimStart s.
Proof.
  unfold blank, chars.
  induction p as [|c p IH]; simpl; intros H; [reflexivity|].
  apply andb_prop in H as [Hc Hp].
  rewrite ?append_cons. simpl. rewrite Hc. apply IH. exact Hp.
Qed.

Lemma trimEnd_blank (p : string) : blank p = true -> trimEnd p = "".
Proof.
  unfold blank, chars.
  induction p as [|c p IH]; simpl; intros H; [reflexivity|].
  apply andb_prop in H as [Hc Hp].
  rewrite (IH Hp), Hc. reflexivity.
Qed.

Lemma trimEnd_app_blank (s p : string) :
  blank p = true -> trimEnd (s +:+ p) = trimEnd s.
Proof.
  intros Hp. induction s as [|c s IH].
  - apply trimEnd_blank. exact Hp.
  - rewrite ?append_cons. simpl. rewrite IH. reflexivity.
Qed.

Lemma trim_app_blank (s p : string) : blank p = true -> trim (s +:+ p) = trim s.
Proof.
  intros Hp. unfold trim. induction s as [|c s IH].
  - change ("" +:+ p) with p.
    replace (trimStart p) with (trimStart (p +:+ ""))
      by (f_equal; clear; induction p as [|c p IH]; [reflexivity|];
          rewrite append_cons, IH; reflexivity).
    rewrite (trimStart_blank_app p "" Hp). reflexivity.
  - rewrite ?append_cons. simpl. destruct (is_space c); [exact IH|].
    rewrite <- append_cons. apply trimEnd_app_blank. exact Hp.
Qed.

(** X19: for an input of code units below 128, the white space around it
    (tab, line feed, vertical tab, form feed, carriage return, space) and the
    case of its letters do not matter to [getBooleanInput]. Beyond 128 the
    case mapping of JavaScript reaches into the letters below it, and the
    statement is not made. *)
Theorem getBooleanInput_padding_and_case (before after s : string) :
  blank before = true -> blank after = true -> ascii_only s = true ->
  getBooleanInput (Str (before +:+ toUpperCase s +:+ after)) = getBooleanInput (Str s).
Proof.
  intros Hbefore Hafter _.
  assert (trim (toLowerCase (before +:+ toUpperCase s +:+ after)) = trim (toLowerCase s))
    as Htrim.
  { rewrite !toLowerCase_app, toLowerCase_toUpperCase.
    rewrite (toLowerCase_blank _ Hbefore), (toLowerCase_blank _ Hafter).
    unfold trim at 1. rewrite (trimStart_blank_app _ _ Hbefore).
    apply (trim_app_blank _ _ Hafter). }
  unfold getBooleanInput, String_of. rewrite Htrim. reflexivity.
Qed.

Lemma getBooleanInput_padding_and_case_witness :
  getBooleanInput (Str (" " +:+ toUpperCase "off" +:+ " ")) = getBooleanInput (Str "off").
Proof. apply (getBooleanInput_padding_and_case " " " " "off"); reflexivity. Defined.
